(** * COPY_BOT: the RPC resilience layer of safe-four-meme-trader

    A shallow embedding of [src/services/rpc.ts] (cost model, usage meter,
    token-bucket limiter, retry policy) and [src/services/nonceManager.ts]
    (per-address nonce allocation behind an async mutex).

    Conventions of the embedding:
    - a JavaScript [number] holding a count, a nonce, a weight or a
      millisecond timestamp is a [Z]; the token count and the retry delays,
      which the code computes with fractions, are exact rationals [Q]: the
      rounding of doubles is not modelled there;
    - the gas price is computed on doubles proper: finite values, the two
      infinities and [NaN], with the rounded multiplication, division and
      [Number] of the run time as parameters;
    - [Date.now()], [Math.random()], the network and the operation passed to
      [retryWithBackoff] are the environment: their answers are inputs;
    - the two weight tables are plain JavaScript objects: a read finds the
      own property, a finite map here, and else the member of that name
      inherited from [Object.prototype];
    - the nonce manager, whose calls interleave at their [await]s, is a
      labelled transition system: an event is a point at which the event
      loop runs code of the manager, and a schedule is any sequence of
      events; [retryWithBackoff] and [enforceBudget] are run by one caller
      and are functions of the answers the environment gives. *)

From Stdlib Require Import ZArith QArith Qround Qminmax Lqa Lia Bool List.
From Stdlib Require Import Ascii String.
From Stdlib Require Import Sorted.
From stdpp Require Import base option list gmap strings.
Import ListNotations.

Local Open Scope Z_scope.
Local Open Scope string_scope.

(** ** JavaScript values and strings *)

Module Js.

(** The values [JSON.parse] produces.  [undefined] is [None] in
    [option json]. *)
#[warnings="-register-all"]
Inductive json : Type :=
| JNull
| JBool (b : bool)
| JNum (q : Q)
| JStr (s : string)
| JArr (xs : list json)
| JObj (fields : list (string * json)).

Definition jsval : Type := option json.

(** [Boolean(v)]: false for [undefined], [null], [false], [0] and the
    empty string. *)
Definition truthy (v : jsval) : bool :=
  match v with
  | None | Some JNull => false
  | Some (JBool b) => b
  | Some (JNum q) => negb (Qeq_bool q 0)
  | Some (JStr s) => negb (String.eqb s "")
  | Some (JArr _) | Some (JObj _) => true
  end.

(** [o[k]] on a parsed object: the last binding of a repeated key wins. *)
Fixpoint ownProp (fields : list (string * json)) (k : string) : jsval :=
  match fields with
  | [] => None
  | (k', v) :: rest =>
      match ownProp rest k with
      | Some w => Some w
      | None => if String.eqb k' k then Some v else None
      end
  end.

(** [j.k] for a parsed value [j]: a [TypeError] on [null] (outer [None]),
    [undefined] on the other values that are not objects. *)
Definition getProp (j : json) (k : string) : option jsval :=
  match j with
  | JNull => None
  | JObj fields => Some (ownProp fields k)
  | _ => Some None
  end.

(** [s.toLowerCase()] on the ASCII letters. *)
Definition lowerAscii (c : ascii) : ascii :=
  let n := nat_of_ascii c in
  if (Nat.leb 65 n && Nat.leb n 90)%bool then ascii_of_nat (n + 32) else c.

Fixpoint toLowerCase (s : string) : string :=
  match s with
  | EmptyString => EmptyString
  | String c rest => String (lowerAscii c) (toLowerCase rest)
  end.

(** [hay.includes(needle)] *)
Fixpoint includes (needle hay : string) : bool :=
  if String.prefix needle hay then true
  else match hay with
       | EmptyString => false
       | String _ rest => includes needle rest
       end.

(** What [throw] can raise: an instance of [Error] carrying its message, or
    any other value. *)
Inductive thrown : Type :=
| ErrorInst (message : string)
| NonError (v : jsval).

End Js.
Export Js.

(** ** Cost model: [DEFAULT_CU_WEIGHTS], [USER_CU_WEIGHTS], [weightFor] *)

Module CostModel.

Definition DEFAULT_CU_WEIGHTS : gmap string Z :=
  list_to_map
    [ ("eth_chainId", 1); ("net_version", 1); ("web3_clientVersion", 1);
      ("eth_blockNumber", 1); ("eth_gasPrice", 2);
      ("eth_getBalance", 3); ("eth_getCode", 4);
      ("eth_getTransactionByHash", 3); ("eth_getTransactionReceipt", 8);
      ("eth_getTransactionCount", 3); ("eth_call", 6);
      ("eth_getLogs", 20); ("eth_sendRawTransaction", 15);
      ("eth_getBlockByNumber", 8); ("eth_getBlockByHash", 8) ].

(** [a ?? b] *)
Definition nullish {A : Type} (a : option A) (b : A) : A :=
  match a with Some x => x | None => b end.

(** [v === s] for a string literal [s] *)
Definition strictEqStr (v : jsval) (s : string) : bool :=
  match v with Some (JStr m) => String.eqb m s | _ => false end.

(** The names every plain object inherits from [Object.prototype]
    (ECMAScript, Annex B included). *)
Definition objectPrototypeNames : list string :=
  [ "constructor"; "__defineGetter__"; "__defineSetter__"; "hasOwnProperty";
    "__lookupGetter__"; "__lookupSetter__"; "isPrototypeOf";
    "propertyIsEnumerable"; "toString"; "valueOf"; "__proto__";
    "toLocaleString" ].

Definition inheritedName (key : string) : bool :=
  existsb (String.eqb key) objectPrototypeNames.

(** What [weightFor] can return: a number of units; a member of
    [Object.prototype] (a function, or the prototype itself for
    [__proto__]), read through the prototype chain of a weight table; or
    [NaN], what the multiplication of such a member by 4 gives. *)
Inductive weightValue : Type :=
| Units (w : Z)
| Member (name : string)
| NotANumber.

(** [table[key]] on a weight table, which is a plain object: the own
    property, else the inherited member of that name, else [undefined]. *)
Definition readWeight (table : gmap string Z) (key : string) : option weightValue :=
  match table !! key with
  | Some w => Some (Units w)
  | None => if inheritedName key then Some (Member key) else None
  end.

(** [base * 4] *)
Definition times4 (base : weightValue) : weightValue :=
  match base with
  | Units w => Units (w * 4)
  | Member _ | NotANumber => NotANumber
  end.

Section Weights.
(** [Number.prototype.toString], the runtime's. *)
Variable Number_toString : Q -> string.
(** The table parsed from the environment variable [RPC_CU_WEIGHTS]
    (empty when the variable is unset or is not JSON). *)
Variable USER_CU_WEIGHTS : gmap string Z.

(** [String(j)], as a property key is computed from a value. *)
Fixpoint toString (j : json) : string :=
  match j with
  | JNull => "null"
  | JBool true => "true"
  | JBool false => "false"
  | JNum q => Number_toString q
  | JStr s => s
  | JArr xs =>
      (fix join (ys : list json) : string :=
         match ys with
         | [] => ""
         | [y] => match y with JNull => "" | _ => toString y end
         | y :: rest =>
             (match y with JNull => "" | _ => toString y end) ++ "," ++ join rest
         end) xs
  | JObj _ => "[object Object]"
  end.

Definition propertyKey (v : jsval) : string :=
  match v with None => "undefined" | Some j => toString j end.

Definition weightFor (method : jsval) (params : jsval) : weightValue :=
  match params with
  | Some (JArr ps) =>
      if (strictEqStr method "eth_getBlockByNumber"
          || strictEqStr method "eth_getBlockByHash")%bool
      then
        let includeTxs := truthy (ps !! 1%nat) in
        let base :=
          nullish (readWeight USER_CU_WEIGHTS (propertyKey method))
                  (nullish (readWeight DEFAULT_CU_WEIGHTS (propertyKey method))
                           (Units 5)) in
        if includeTxs then times4 base else base
      else
        nullish (readWeight USER_CU_WEIGHTS (propertyKey method))
                (nullish (readWeight DEFAULT_CU_WEIGHTS (propertyKey method))
                         (Units 5))
  | _ =>
      nullish (readWeight USER_CU_WEIGHTS (propertyKey method))
              (nullish (readWeight DEFAULT_CU_WEIGHTS (propertyKey method))
                       (Units 5))
  end.
End Weights.

End CostModel.
Export CostModel.

(** ** Request inspection: [parsePayload] *)

Module Payload.

Record rpcCall : Type := { method : jsval; params : jsval }.

(** The [body] of a fetch request: a string, or another object together
    with what its [toString()] yields ([None] when it has no such method). *)
Inductive fetchBody : Type :=
| BodyString (s : string)
| BodyOther (rendered : option string).

Section Parse.
(** [JSON.parse], the runtime's: [None] when it throws a [SyntaxError]. *)
Variable JSON_parse : string -> option json.

(** [{ method: j.method, params: j.params }]; [None] when reading a
    property throws. *)
Definition callOf (j : json) : option rpcCall :=
  match getProp j "method", getProp j "params" with
  | Some m, Some p => Some {| method := m; params := p |}
  | _, _ => None
  end.

Definition parsePayload (body : option fetchBody) : list rpcCall :=
  let s := match body with
           | None => None
           | Some (BodyString s) => Some s
           | Some (BodyOther r) => r
           end in
  match s with
  | None => []
  | Some s =>
      if String.eqb s "" then []
      else
        match JSON_parse s with
        | None => []
        | Some (JArr js) =>
            match mapM callOf js with
            | Some calls => calls
            | None => []
            end
        | Some j =>
            if truthy (Some j) then
              match callOf j with
              | Some c => if truthy (method c) then [c] else []
              | None => []
              end
            else []
        end
  end.
End Parse.

End Payload.
Export Payload.

(** ** Token-bucket limiter: [refillTokens], [enforceBudget] *)

Module Limiter.

(** [CU_BUDGET_PER_SEC]: [undefined] unless [RPC_CU_BUDGET_PER_SEC] is set,
    else [Math.max(1, parseInt(...))]; the argument is the integer read from
    the variable. *)
Definition budgetPerSec (RPC_CU_BUDGET_PER_SEC : option Z) : option Z :=
  match RPC_CU_BUDGET_PER_SEC with
  | Some n => Some (Z.max 1 n)
  | None => None
  end.

(** The two module-level variables [cuTokens] and [lastRefill]. *)
Record bucket : Type := { cuTokens : Q; lastRefill : Z }.

(** The bucket when the module is loaded at time [start]. *)
Definition initialBucket (budget : option Z) (start : Z) : bucket :=
  {| cuTokens := inject_Z (CostModel.nullish budget 0); lastRefill := start |}.

(** How a call of [enforceBudget] stands after some admission checks: it
    has returned, or it is still asleep in its loop.  Both carry the bucket
    and the durations passed to [setTimeout] so far. *)
Inductive budgetRun : Type :=
| Granted (b : bucket) (slept : list Z)
| Waiting (b : bucket) (slept : list Z).

Definition bucketOf (r : budgetRun) : bucket :=
  match r with Granted b _ | Waiting b _ => b end.

Section Budget.
Variable CU_BUDGET_PER_SEC : option Z.

Definition refillTokens (now : Z) (b : bucket) : bucket :=
  match CU_BUDGET_PER_SEC with
  | None => b
  | Some cap =>
      let elapsedSec := (inject_Z (now - lastRefill b) / 1000)%Q in
      if Qlt_le_dec 0 elapsedSec then
        {| cuTokens := Qmin (inject_Z cap)
                            (cuTokens b + elapsedSec * inject_Z cap)%Q;
           lastRefill := now |}
      else b
  end.

(** One turn of the [while (true)] loop at clock reading [now]: the bucket
    after it, and [None] when the call returns or [Some ms] when it sleeps
    [ms] milliseconds before the next turn. *)
Definition admissionCheck (cap : Z) (needed : Q) (now : Z) (b : bucket)
  : bucket * option Z :=
  let b1 := refillTokens now b in
  if Qle_bool needed (cuTokens b1) then
    ({| cuTokens := (cuTokens b1 - needed)%Q; lastRefill := lastRefill b1 |},
     None)
  else
    let deficit := (needed - cuTokens b1)%Q in
    let waitMs := Z.max 5 (Qceiling (deficit / inject_Z cap * 1000)%Q) in
    (b1, Some (Z.min waitMs 200)).

(** The loop; [clock i] is what [Date.now()] reads at the [i]-th admission
    check, [fuel] bounds the number of checks observed. *)
Fixpoint enforceLoop (cap : Z) (needed : Q) (clock : nat -> Z)
    (fuel i : nat) (b : bucket) (slept : list Z) : budgetRun :=
  match fuel with
  | O => Waiting b slept
  | S fuel' =>
      match admissionCheck cap needed (clock i) b with
      | (b', None) => Granted b' slept
      | (b', Some ms) =>
          enforceLoop cap needed clock fuel' (S i) b' (slept ++ [ms])%list
      end
  end.

Definition enforceBudget (needed : Q) (clock : nat -> Z) (fuel : nat)
    (b : bucket) : budgetRun :=
  match CU_BUDGET_PER_SEC with
  | None => Granted b []
  | Some cap => enforceLoop cap needed clock fuel 0 b []
  end.

End Budget.

End Limiter.
Export Limiter.

(** ** Usage meter: [metrics], [recordUsage], [instrumentedFetchFor] *)

Module Meter.

Record methodWeight : Type := { wmethod : jsval; weight : Z }.
Record timelineEntry : Type := { ts : Z; cus : Z; endpoint : string }.
Record endpointTotals : Type := { calls : Z; estCus : Z }.

(** Key equality of a JavaScript [Map]; two parsed objects are never the
    same reference. *)
Definition sameValueZero (a b : jsval) : bool :=
  match a, b with
  | None, None => true
  | Some JNull, Some JNull => true
  | Some (JBool x), Some (JBool y) => Bool.eqb x y
  | Some (JNum x), Some (JNum y) => Qeq_bool x y
  | Some (JStr x), Some (JStr y) => String.eqb x y
  | _, _ => false
  end.

Fixpoint mapGet (m : list (jsval * Z)) (k : jsval) : option Z :=
  match m with
  | [] => None
  | (k', v) :: rest => if sameValueZero k' k then Some v else mapGet rest k
  end.

Fixpoint mapSet (m : list (jsval * Z)) (k : jsval) (v : Z) : list (jsval * Z) :=
  match m with
  | [] => [(k, v)]
  | (k', v') :: rest =>
      if sameValueZero k' k then (k', v) :: rest else (k', v') :: mapSet rest k v
  end.

(** The [metrics] object (the header passthrough fields are left out). *)
Record metrics : Type := {
  callsByMethod : list (jsval * Z);
  estCusByMethod : list (jsval * Z);
  estCusTimeline : list timelineEntry;
  byEndpoint : gmap string endpointTotals
}.

Definition emptyMetrics : metrics :=
  {| callsByMethod := []; estCusByMethod := []; estCusTimeline := [];
     byEndpoint := ∅ |}.

Definition reqCuOf (methodWeights : list methodWeight) : Z :=
  fold_left (fun s c => s + weight c) methodWeights 0.

Definition recordUsage (now : Z) (endpointUrl : string)
    (methodWeights : list methodWeight) (m : metrics) : metrics :=
  let reqCus := reqCuOf methodWeights in
  let callsBy :=
    fold_left (fun acc c =>
                 mapSet acc (wmethod c)
                   (CostModel.nullish (mapGet acc (wmethod c)) 0 + 1))
              methodWeights (callsByMethod m) in
  let cusBy :=
    fold_left (fun acc c =>
                 mapSet acc (wmethod c)
                   (CostModel.nullish (mapGet acc (wmethod c)) 0 + weight c))
              methodWeights (estCusByMethod m) in
  let timeline :=
    (estCusTimeline m
       ++ [{| ts := now; cus := reqCus; endpoint := endpointUrl |}])%list in
  let ep := CostModel.nullish (byEndpoint m !! endpointUrl)
                              {| calls := 0; estCus := 0 |} in
  let cutoff := now - 5 * 60000 in
  {| callsByMethod := callsBy;
     estCusByMethod := cusBy;
     estCusTimeline :=
       if (5000 <? Z.of_nat (length timeline))%Z
       then List.filter (fun e => (cutoff <=? ts e)%Z) timeline
       else timeline;
     byEndpoint :=
       <[endpointUrl := {| calls := calls ep + 1; estCus := estCus ep + reqCus |}]>
         (byEndpoint m) |}.


Section Instrumented.
Variable Number_toString : Q -> string.
Variable USER_CU_WEIGHTS : gmap string Z.
Variable JSON_parse : string -> option json.
Variable CU_BUDGET_PER_SEC : option Z.



End Instrumented.

End Meter.
Export Meter.

(** ** Retry policy: [retryWithBackoff] *)

Module Retry.

(** What a call of [retryWithBackoff] did: its result (a value, or the
    value it threw), how many times it invoked [fn], and the delays it
    passed to [setTimeout], in order. *)
Record retryRun (T : Type) : Type := {
  outcome : T + thrown;
  invocations : nat;
  delays : list Q
}.
Arguments outcome {T} _.
Arguments invocations {T} _.
Arguments delays {T} _.

(** The test of the [catch] block that rethrows at once. *)
Definition isFatal (error : thrown) : bool :=
  match error with
  | ErrorInst message =>
      includes "insufficient funds" message
      || includes "nonce" (toLowerCase message)
      || includes "invalid signature" message
      || includes "already known" message
      || includes "replacement transaction underpriced" message
  | NonError _ => false
  end.

Section Backoff.
Context {T : Type}.
(** [fn k]: how the [k]-th invocation of the operation settles. *)
Variable fn : nat -> T + thrown.
(** [random k]: what [Math.random()] returns after the [k]-th invocation. *)
Variable random : nat -> Q.
Variable maxRetries : Z.
Variable baseDelay : Q.

(** [baseDelay * Math.pow(2, attempt)] *)
Definition backoff (attempt : Z) : Q := (baseDelay * inject_Z (2 ^ attempt))%Q.

(** [Math.random() * 1000] *)
Definition jitter (k : nat) : Q := (random k * 1000)%Q.

(** The [for] loop from [attempt] on; [calls] counts the invocations made
    so far and [lastError] is [None] while the variable is unassigned. *)
Fixpoint retryLoop (fuel : nat) (attempt : Z) (lastError : option thrown)
    (calls : nat) (slept : list Q) : option (retryRun T) :=
  match fuel with
  | O => None
  | S fuel' =>
      if (attempt <=? maxRetries)%Z then
        match fn calls with
        | inl v =>
            Some {| outcome := inl v; invocations := S calls; delays := slept |}
        | inr error =>
            if isFatal error then
              Some {| outcome := inr error; invocations := S calls;
                      delays := slept |}
            else if (attempt =? maxRetries)%Z then
              Some {| outcome := inr error; invocations := S calls;
                      delays := slept |}
            else
              let delay := (backoff attempt + jitter calls)%Q in
              retryLoop fuel' (attempt + 1) (Some error) (S calls)
                        (slept ++ [delay])%list
        end
      else
        Some {| outcome := inr (match lastError with
                                | Some e => e
                                | None => NonError None
                                end);
                invocations := calls; delays := slept |}
  end.

Definition retryWithBackoff : option (retryRun T) :=
  retryLoop (S (Z.to_nat (maxRetries + 1))) 0 None 0 [].
End Backoff.

End Retry.
Export Retry.

(** ** Nonce manager: [AsyncMutex], [NonceState], [NonceManager] *)

Module Nonce.

(** The mutex's queue holds the resolvers of the waiting callers; a caller
    is named by the number of its call. *)
Record AsyncMutex : Type := { queue : list nat; locked : bool }.

Record NonceState : Type := {
  currentNonce : option Z;
  lastSyncMs : Z;
  mutex : AsyncMutex
}.

(** [lock()], run by call [waiter]: the new mutex, and whether the promise
    is resolved at once. *)
Definition lock (waiter : nat) (m : AsyncMutex) : AsyncMutex * bool :=
  if locked m
  then ({| queue := (queue m ++ [waiter])%list; locked := true |}, false)
  else ({| queue := queue m; locked := true |}, true).

(** [unlock()]: the new mutex, and the waiter whose promise it resolves. *)
Definition unlock (m : AsyncMutex) : AsyncMutex * option nat :=
  match queue m with
  | next :: rest => ({| queue := rest; locked := locked m |}, Some next)
  | [] => ({| queue := []; locked := false |}, None)
  end.

Definition freshState : NonceState :=
  {| currentNonce := None; lastSyncMs := 0;
     mutex := {| queue := []; locked := false |} |}.

(** [getOrCreateState]: the state of the address and the map after the
    call.  A state is never removed or replaced, so the reference the
    caller holds is the entry under the lowercased address. *)
Definition getOrCreateState (address : string)
    (ADDRESS_STATE : gmap string NonceState)
  : NonceState * gmap string NonceState :=
  let lower := toLowerCase address in
  match ADDRESS_STATE !! lower with
  | Some state => (state, ADDRESS_STATE)
  | None => (freshState, <[lower := freshState]> ADDRESS_STATE)
  end.

(** [forceResync || state.currentNonce === undefined
     || now - state.lastSyncMs > 10_000] *)
Definition needsSync (forceResync : bool) (state : NonceState) (now : Z) : bool :=
  forceResync
  || match currentNonce state with None => true | Some _ => false end
  || (10000 <? now - lastSyncMs state)%Z.

(** [state.currentNonce = chainPending; state.lastSyncMs = now] *)
Definition resynced (chainPending now : Z) (state : NonceState) : NonceState :=
  {| currentNonce := Some chainPending; lastSyncMs := now;
     mutex := mutex state |}.

(** [const next = state.currentNonce!; state.currentNonce = next + 1] *)
Definition reserve (state : NonceState) : option (Z * NonceState) :=
  match currentNonce state with
  | Some next =>
      Some (next, {| currentNonce := Some (next + 1);
                     lastSyncMs := lastSyncMs state;
                     mutex := mutex state |})
  | None => None
  end.

(** The two entry points: [NonceManager.getNextNonce(address, forceResync)]
    and [NonceManager.resync(address)]. *)
Inductive operation : Type :=
| GetNextNonce (forceResync : bool)
| Resync.

(** How a call's promise settles: [getNextNonce] fulfils with a nonce,
    [resync] with nothing, and either may reject. *)
Inductive result : Type :=
| Nonce (n : Z)
| Void
| Rejected (e : thrown).

(** Where a call of [getNextNonce] or [resync] stands: in the queue of the
    mutex; granted the lock, its continuation not yet run; waiting for the
    count it requested ([now] is the clock [getNextNonce] read before the
    request); or settled. *)
Inductive pc : Type :=
| AwaitLock
| LockGranted
| AwaitCount (now : Z)
| Settled (r : result).

Record call : Type := { address : string; op : operation; at_ : pc }.

Definition moveTo (p : pc) (c : call) : call :=
  {| address := address c; op := op c; at_ := p |}.

(** The module state [ADDRESS_STATE] and the calls made so far; a call's
    number is its position in [calls]. *)
Record world : Type := {
  ADDRESS_STATE : gmap string NonceState;
  calls : list call
}.

Definition emptyWorld : world := {| ADDRESS_STATE := ∅; calls := [] |}.

(** The points at which the event loop runs code of the manager: a caller
    invokes an entry point; the continuation of call [id] runs after
    [await state.mutex.lock()], [Date.now()] reading [now]; the count that
    call [id] requested settles with [r], [Date.now()] then reading [now]. *)
Inductive event : Type :=
| Invoke (address : string) (op : operation)
| Resume (id : nat) (now : Z)
| CountSettles (id : nat) (r : thrown + Z) (now : Z).

(** What the environment sees: a [getTransactionCount] request going out,
    and a call's promise settling. *)
Inductive obs : Type :=
| Fetch (id : nat) (address : string)
| Settle (id : nat) (key : string) (r : result).

(** The [finally] block: [unlock()] on the state stored under [key], the
    call [id] settling with [r]. *)
Definition release (id : nat) (key : string) (state : NonceState) (r : result)
    (w : world) : world * list obs :=
  let '(m, woken) := unlock (mutex state) in
  let state' := {| currentNonce := currentNonce state;
                   lastSyncMs := lastSyncMs state; mutex := m |} in
  let cs := alter (moveTo (Settled r)) id (calls w) in
  ({| ADDRESS_STATE := <[key := state']> (ADDRESS_STATE w);
      calls := match woken with
               | Some next => alter (moveTo LockGranted) next cs
               | None => cs
               end |},
   [Settle id key r]).

(** The call suspends at [await publicClient.getTransactionCount(...)]:
    the request goes out. *)
Definition requestCount (id : nat) (c : call) (now : Z) (w : world)
  : world * list obs :=
  ({| ADDRESS_STATE := ADDRESS_STATE w;
      calls := alter (moveTo (AwaitCount now)) id (calls w) |},
   [Fetch id (address c)]).

(** [getNextNonce] and [resync] up to [await state.mutex.lock()]. *)
Definition invoke (address : string) (op : operation) (w : world)
  : world * list obs :=
  let '(state, states) := getOrCreateState address (ADDRESS_STATE w) in
  let id := length (calls w) in
  let '(m, granted) := lock id (mutex state) in
  ({| ADDRESS_STATE :=
        <[toLowerCase address :=
            {| currentNonce := currentNonce state;
               lastSyncMs := lastSyncMs state; mutex := m |}]> states;
      calls := (calls w
                ++ [{| address := address; op := op;
                       at_ := if granted then LockGranted else AwaitLock |}])%list |},
   []).

(** [getNextNonce] once it holds the lock, [now] being [Date.now()]: up
    to the request of the count, or to the [return]. *)
Definition getNextNonce_locked (id : nat) (c : call) (forceResync : bool)
    (state : NonceState) (now : Z) (w : world) : option (world * list obs) :=
  if needsSync forceResync state now then Some (requestCount id c now w)
  else
    match reserve state with
    | Some (next, state') =>
        Some (release id (toLowerCase (address c)) state' (Nonce next) w)
    | None => None
    end.

(** [getNextNonce] once the request has settled with [r]: a failure falls
    through to [finally], a count is stored with the [now] read before the
    request and the nonce is reserved. *)
Definition getNextNonce_counted (id : nat) (c : call) (state : NonceState)
    (now : Z) (r : thrown + Z) (w : world) : option (world * list obs) :=
  match r with
  | inl error =>
      Some (release id (toLowerCase (address c)) state (Rejected error) w)
  | inr chainPending =>
      match reserve (resynced chainPending now state) with
      | Some (next, state') =>
          Some (release id (toLowerCase (address c)) state' (Nonce next) w)
      | None => None
      end
  end.

(** [resync] once it holds the lock: it requests the count at once. *)
Definition resync_locked (id : nat) (c : call) (now : Z) (w : world)
  : option (world * list obs) :=
  Some (requestCount id c now w).

(** [resync] once the request has settled, [now'] being the [Date.now()]
    read after it. *)
Definition resync_counted (id : nat) (c : call) (state : NonceState)
    (r : thrown + Z) (now' : Z) (w : world) : option (world * list obs) :=
  match r with
  | inl error =>
      Some (release id (toLowerCase (address c)) state (Rejected error) w)
  | inr chainPending =>
      Some (release id (toLowerCase (address c))
                    (resynced chainPending now' state) Void w)
  end.

(** One event.  A continuation runs only for the call that stands at the
    matching [await]. *)
Definition step (ev : event) (w : world) : option (world * list obs) :=
  match ev with
  | Invoke address op => Some (invoke address op w)
  | Resume id now =>
      match calls w !! id with
      | Some c =>
          match at_ c, ADDRESS_STATE w !! toLowerCase (address c) with
          | LockGranted, Some state =>
              match op c with
              | GetNextNonce forceResync =>
                  getNextNonce_locked id c forceResync state now w
              | Resync => resync_locked id c now w
              end
          | _, _ => None
          end
      | None => None
      end
  | CountSettles id r now' =>
      match calls w !! id with
      | Some c =>
          match at_ c, ADDRESS_STATE w !! toLowerCase (address c) with
          | AwaitCount now, Some state =>
              match op c with
              | GetNextNonce _ => getNextNonce_counted id c state now r w
              | Resync => resync_counted id c state r now' w
              end
          | _, _ => None
          end
      | None => None
      end
  end.

(** A schedule run from [w]: the world reached and everything observed,
    or [None] when an event is not enabled where it stands. *)
Fixpoint run (schedule : list event) (w : world) : option (world * list obs) :=
  match schedule with
  | [] => Some (w, [])
  | ev :: rest =>
      match step ev w with
      | Some (w1, o1) =>
          match run rest w1 with
          | Some (w2, o2) => Some (w2, (o1 ++ o2)%list)
          | None => None
          end
      | None => None
      end
  end.

Definition nonceOf (key : string) (w : world) : option Z :=
  match ADDRESS_STATE w !! key with
  | Some state => currentNonce state
  | None => None
  end.

(** The [getTransactionCount] requests for the state under [key]. *)
Definition fetchesFor (key : string) (os : list obs) : list nat :=
  omap (fun o => match o with
                 | Fetch id address =>
                     if String.eqb (toLowerCase address) key then Some id else None
                 | Settle _ _ _ => None
                 end) os.

(** The results with which calls on the state under [key] settled. *)
Definition settledFor (key : string) (os : list obs) : list result :=
  omap (fun o => match o with
                 | Settle _ k r => if String.eqb k key then Some r else None
                 | Fetch _ _ => None
                 end) os.

End Nonce.
Export Nonce.

(** ** Observability: [getRpcMetricsSnapshot], [resetRpcMetrics] *)

Module Snapshot.

(** The figures [getRpcMetricsSnapshot] computes (the copies it makes of
    the tables of [metrics] are left out).  The average is [None] where the
    division is by zero. *)
Record rpcMetricsSnapshot : Type := {
  estCusTotal : Z;
  estCusPerSecAvg : option Q;
  estCusPerSecCurrent : Z
}.

(** [entries.reduce((s, e) => s + e.cus, 0)] *)
Definition sumCus (entries : list timelineEntry) : Z :=
  fold_left (fun s e => s + cus e) entries 0.

(** [getRpcMetricsSnapshot(windowMs)], [now] being [Date.now()]. *)
Definition getRpcMetricsSnapshot (now windowMs : Z) (m : metrics)
  : rpcMetricsSnapshot :=
  let since := now - windowMs in
  let inWindow := List.filter (fun e => (since <=? ts e)%Z) (estCusTimeline m) in
  let total := sumCus inWindow in
  let currentSecond := now - 1000 in
  let currentCus :=
    sumCus (List.filter (fun e => (currentSecond <=? ts e)%Z) (estCusTimeline m)) in
  {| estCusTotal := total;
     estCusPerSecAvg :=
       if (windowMs =? 0)%Z then None
       else Some (inject_Z total / (inject_Z windowMs / 1000))%Q;
     estCusPerSecCurrent := currentCus |}.

(** [resetRpcMetrics()] *)
Definition resetRpcMetrics (m : metrics) : metrics := emptyMetrics.

End Snapshot.
Export Snapshot.

(** ** The calls wrapped in [retryWithBackoff] *)

Module Service.

(** A JavaScript number: a finite double, which is a rational, one of the
    two infinities, or [NaN]. *)
Inductive double : Type :=
| Finite (x : Q)
| PosInfinity
| NegInfinity
| NaN.

(** [config.trading], as [getCurrentGasPrice] reads it: the prices are the
    numbers [parseFloat] yields, in gwei; [fixedGasPrice] is [None] when the
    setting is absent or empty. *)
Record tradingConfig : Type := {
  gasPriceMode : option string;
  fixedGasPrice : option double;
  minGasPrice : double;
  maxGasPrice : double;
  gasPriceMultiplier : double
}.

(** [Math.max] and [Math.min] round nothing: they return one of their
    arguments, or [NaN] when either is [NaN]. *)
Definition Math_max (x y : double) : double :=
  match x, y with
  | NaN, _ | _, NaN => NaN
  | PosInfinity, _ | _, PosInfinity => PosInfinity
  | NegInfinity, z | z, NegInfinity => z
  | Finite a, Finite b => Finite (Qmax a b)
  end.

Definition Math_min (x y : double) : double :=
  match x, y with
  | NaN, _ | _, NaN => NaN
  | NegInfinity, _ | _, NegInfinity => NegInfinity
  | PosInfinity, z | z, PosInfinity => z
  | Finite a, Finite b => Finite (Qmin a b)
  end.

(** The [RangeError] of [BigInt] on a number that is no integer. *)
Definition rangeError (x : double) : thrown :=
  ErrorInst ("The number "
             ++ match x with
                | PosInfinity => "Infinity"
                | NegInfinity => "-Infinity"
                | _ => "NaN"
                end
             ++ " cannot be converted to a BigInt because it is not an integer").

(** [BigInt(Math.floor(x))] *)
Definition bigIntOfFloor (x : double) : Z + thrown :=
  match x with
  | Finite a => inl (Qfloor a)
  | _ => inr (rangeError x)
  end.

(** [Math.max(Math.min(fixed, maxGasPrice), minGasPrice)] *)
Definition clampFixed (cfg : tradingConfig) (fixed : double) : double :=
  Math_max (Math_min fixed (maxGasPrice cfg)) (minGasPrice cfg).

(** [config.trading.gasPriceMode || 'network'] *)
Definition modeOf (cfg : tradingConfig) : string :=
  match gasPriceMode cfg with
  | Some mode => if String.eqb mode "" then "network" else mode
  | None => "network"
  end.

(** Whether the fixed price is used: [mode === 'fixed' &&
    config.trading.fixedGasPrice]. *)
Definition usesFixedPrice (cfg : tradingConfig) : bool :=
  String.eqb (modeOf cfg) "fixed"
  && match fixedGasPrice cfg with Some _ => true | None => false end.

Section Arithmetic.
(** The arithmetic of the run time, which rounds: [mul x y] is what
    [x * y] evaluates to, [div x y] what [x / y] does, and [number n] what
    [Number(n)] does on the bigint [n]. *)
Variable mul : double -> double -> double.
Variable div : double -> double -> double.
Variable number : Z -> double.

(** [BigInt(Math.floor(gwei * 1e9))] *)
Definition toWei (gwei : double) : Z + thrown :=
  bigIntOfFloor (mul gwei (Finite 1000000000)).

(** [Math.min(Math.max(gwei * multiplier, minGasPrice), maxGasPrice)] *)
Definition adjust (cfg : tradingConfig) (gwei : double) : double :=
  Math_min (Math_max (mul gwei (gasPriceMultiplier cfg)) (minGasPrice cfg))
           (maxGasPrice cfg).

(** The operation [getCurrentGasPrice] retries; [getGasPrice] is how the
    request to the network settles, should the operation make it. *)
Definition gasPriceOnce (cfg : tradingConfig) (getGasPrice : Z + thrown)
  : Z + thrown :=
  match String.eqb (modeOf cfg) "fixed", fixedGasPrice cfg with
  | true, Some fixed => toWei (clampFixed cfg fixed)
  | _, _ =>
      match getGasPrice with
      | inl gasPrice =>
          toWei (adjust cfg (div (number gasPrice) (Finite 1000000000)))
      | inr error => inr error
      end
  end.

Definition getCurrentGasPrice (random : nat -> Q) (cfg : tradingConfig)
    (getGasPrice : nat -> Z + thrown) : option (retryRun Z) :=
  retryWithBackoff (fun k => gasPriceOnce cfg (getGasPrice k)) random 3 1000.
End Arithmetic.

Section Calls.
Variable random : nat -> Q.

(** [isContract]: the operation has a [try]/[catch] of its own around
    [getCode]. *)
Definition isContract (getCode : nat -> jsval + thrown) : option (retryRun bool) :=
  retryWithBackoff
    (fun k => match getCode k with
              | inl code => inl (negb (strictEqStr code "0x"))
              | inr _ => inl false
              end)
    random 3 1000.
End Calls.

End Service.
Export Service.

(** ** The endpoint list: [BSC_RPC_ENDPOINTS] *)

Module Endpoints.

(** [s.split(',')] *)
Fixpoint split (s : string) : list string :=
  match s with
  | EmptyString => [EmptyString]
  | String c rest =>
      if Ascii.eqb c ","%char then EmptyString :: split rest
      else match split rest with
           | piece :: pieces => String c piece :: pieces
           | [] => [String c EmptyString]
           end
  end.

(** [xs.filter(Boolean)] on strings that may be [undefined] *)
Definition filterBoolean (xs : list (option string)) : list string :=
  omap (fun x => match x with
                 | Some s => if String.eqb s "" then None else Some s
                 | None => None
                 end) xs.

(** [Array.from(new Set(xs))]: a set keeps the order of first insertion;
    [seen] holds the elements inserted so far. *)
Fixpoint arrayFromSet (seen xs : list string) : list string :=
  match xs with
  | [] => []
  | x :: rest =>
      if existsb (String.eqb x) seen then arrayFromSet seen rest
      else x :: arrayFromSet (x :: seen) rest
  end.

(** The public endpoints that come first among the defaults. *)
Definition publicEndpoints : list string :=
  ["https://bsc-rpc.publicnode.com"; "https://bsc.publicnode.com";
   "https://bsc.meowrpc.com"].

Section Configured.
(** [String.prototype.trim], the runtime's. *)
Variable trim : string -> string.
(** The fallback and paid endpoints that end the defaults; their URLs carry
    API keys and are not repeated here. *)
Variable keyedEndpoints : list string.

(** [(process.env.BSC_RPC_URLS || '').split(',').map((s) => s.trim()).filter(Boolean)] *)
Definition fromEnv (BSC_RPC_URLS : option string) : list string :=
  filterBoolean (map (fun s => Some (trim s)) (split (default "" BSC_RPC_URLS))).

Definition defaults (BSC_RPC_URL : option string) : list string :=
  filterBoolean (map Some publicEndpoints ++ [BSC_RPC_URL] ++ map Some keyedEndpoints).

Definition BSC_RPC_ENDPOINTS (BSC_RPC_URLS BSC_RPC_URL : option string) : list string :=
  match fromEnv BSC_RPC_URLS with
  | [] => arrayFromSet [] (defaults BSC_RPC_URL)
  | urls => urls
  end.
End Configured.

End Endpoints.
Export Endpoints.

(** ** Vocabulary of the statements *)

(** [needle] occurs in [hay]. *)
Definition contains (needle hay : string) : Prop :=
  exists pre post, hay = (pre ++ needle ++ post)%string.

(** The message carries one of the markers the retry policy treats as
    fatal. *)
Definition fatalMessage (message : string) : Prop :=
  contains "insufficient funds" message
  \/ contains "nonce" (toLowerCase message)
  \/ contains "invalid signature" message
  \/ contains "already known" message
  \/ contains "replacement transaction underpriced" message.

(** The tokens the bucket would hold at time [t] were it not capped. *)
Definition potential (cap : Z) (b : bucket) (t : Z) : Q :=
  (cuTokens b + inject_Z (t - lastRefill b) / 1000 * inject_Z cap)%Q.



(** A stand-in for [JSON.parse] on one request body. *)
Definition doubleQuote : string := String (ascii_of_nat 34) EmptyString.

(** The text [[{"id":1}]]: a batch whose only element has no method. *)
Definition methodlessBatchText : string :=
  ("[{" ++ doubleQuote ++ "id" ++ doubleQuote ++ ":1}]")%string.

(** What [JSON.parse] makes of it. *)
Definition methodlessBatch : json := JArr [JObj [("id", JNum 1)]].

Definition parseMethodlessBatch (s : string) : option json :=
  if String.eqb s methodlessBatchText then Some methodlessBatch else None.






(** Conditions on the worlds and schedules of the nonce manager. *)

Local Open Scope list_scope.

(** No call on the state under [key] has a [getTransactionCount] request
    in flight. *)
Definition idleCalls (key : string) (cs : list call) : Prop :=
  forall id c now,
    cs !! id = Some c -> toLowerCase (address c) = key -> at_ c <> AwaitCount now.

Definition idle (key : string) (w : world) : Prop := idleCalls key (calls w).

(** Every call pending on the state under [key] is a [getNextNonce]
    without [forceResync] that has no request in flight. *)
Definition calm (key : string) (w : world) : Prop :=
  forall id c,
    calls w !! id = Some c -> toLowerCase (address c) = key ->
    op c = GetNextNonce false /\ forall now, at_ c <> AwaitCount now.

(** The event invokes nothing but [getNextNonce(address, false)]. *)
Definition unforced (ev : event) : Prop :=
  match ev with
  | Invoke _ (GetNextNonce false) => True
  | Invoke _ _ => False
  | _ => True
  end.

(** Every call on the state under [key] that has not settled yet is a
    [getNextNonce] without [forceResync] that has no request in flight;
    the calls that have settled may be of any kind. *)
Definition tameCalls (key : string) (cs : list call) : Prop :=
  forall id c,
    cs !! id = Some c -> toLowerCase (address c) = key ->
    (exists r, at_ c = Settled r)
    \/ (op c = GetNextNonce false /\ forall now, at_ c <> AwaitCount now).

Definition tame (key : string) (w : world) : Prop := tameCalls key (calls w).

(** The event invokes, on the state under [key], nothing but
    [getNextNonce(address, false)]; on the other addresses it may invoke
    anything. *)
Definition unforcedOn (key : string) (ev : event) : bool :=
  match ev with
  | Invoke _ (GetNextNonce false) => true
  | Invoke address _ => negb (String.eqb (toLowerCase address) key)
  | _ => true
  end.

(** When the event is the continuation of a call on the state under [key],
    it reads the clock no later than 10 s after [lastSync]. *)
Definition inWindow (key : string) (lastSync : Z) (w : world) (ev : event) : bool :=
  match ev with
  | Resume id now =>
      match calls w !! id with
      | Some c =>
          if String.eqb (toLowerCase (address c)) key
          then (now - lastSync <=? 10000)%Z
          else true
      | None => true
      end
  | _ => true
  end.

(** The same of every event of a schedule, each taken in the world in
    which it runs. *)
Fixpoint withinWindowOn (key : string) (lastSync : Z) (schedule : list event)
    (w : world) : bool :=
  match schedule with
  | [] => true
  | ev :: rest =>
      inWindow key lastSync w ev
      && match step ev w with
         | Some (w1, _) => withinWindowOn key lastSync rest w1
         | None => true
         end
  end.

(** Sample worlds and schedules. *)

Definition unlockedMutex : AsyncMutex := {| queue := []; locked := false |}.

(** The world after one call on ["0xA"] fetched the count 5 at time 20000. *)
Definition syncedWorld : world :=
  {| ADDRESS_STATE :=
       {[ "0xa" := {| currentNonce := Some 6%Z; lastSyncMs := 20000;
                      mutex := unlockedMutex |} ]};
     calls := [{| address := "0xA"; op := GetNextNonce false;
                  at_ := Settled (Nonce 5) |}] |}.

(** Three calls made back to back, then run in turn. *)
Definition burst : list event :=
  [Invoke "0xA" (GetNextNonce false); Invoke "0xa" (GetNextNonce false);
   Invoke "0xA" (GetNextNonce false);
   Resume 1 20001; Resume 2 20002; Resume 3 20003].

(** The world after one [resync] on ["0xA"] stored the count 5 at time
    20000, and a schedule on it: two calls on that address within the
    window, and in between a forced call on another address, run late. *)
Definition resyncedWorld : world :=
  {| ADDRESS_STATE :=
       {[ "0xa" := {| currentNonce := Some 5%Z; lastSyncMs := 20000;
                      mutex := unlockedMutex |} ]};
     calls := [{| address := "0xA"; op := Resync; at_ := Settled Void |}] |}.

Definition mixedBurst : list event :=
  [Invoke "0xA" (GetNextNonce false); Invoke "0xB" (GetNextNonce true);
   Resume 1 20001; Resume 2 90000; CountSettles 2 (inr 0%Z) 90001;
   Invoke "0xa" (GetNextNonce false); Resume 3 20003].

(** One call on a fresh address that holds the lock, before and after its
    request went out. *)
Definition heldWorld : world :=
  {| ADDRESS_STATE :=
       {[ "0xa" := {| currentNonce := None; lastSyncMs := 0;
                      mutex := {| queue := []; locked := true |} |} ]};
     calls := [{| address := "0xA"; op := GetNextNonce false; at_ := LockGranted |}] |}.

Definition fetchingWorld : world :=
  {| ADDRESS_STATE := ADDRESS_STATE heldWorld;
     calls := [{| address := "0xA"; op := GetNextNonce false;
                  at_ := AwaitCount 20000 |}] |}.

(** The invariant of the mutex. *)

(** The call holds the lock: it has been granted and has not released it. *)
Definition holds (p : pc) : bool :=
  match p with LockGranted | AwaitCount _ => true | _ => false end.

(** How a mutex [m] relates to the calls on its state, [v i] being where
    call [i] stands when it is a call on that state. *)
Record LockInv (m : AsyncMutex) (v : nat -> option pc) : Prop := {
  inv_nodup : NoDup (queue m);
  inv_queue : forall i, i ∈ queue m <-> v i = Some AwaitLock;
  inv_single : forall i j p q,
      v i = Some p -> v j = Some q -> holds p = true -> holds q = true -> i = j;
  inv_locked : locked m = true <-> exists i p, v i = Some p /\ holds p = true;
  inv_free : locked m = false -> queue m = []
}.

Definition keyOf (c : call) : string := toLowerCase (address c).

(** Where call [i] stands, when it is a call on the state under [key]. *)
Definition view (key : string) (cs : list call) (i : nat) : option pc :=
  match cs !! i with
  | Some c => if decide (keyOf c = key) then Some (at_ c) else None
  | None => None
  end.

(** Every call has its state in the map, and every state's mutex agrees
    with the calls on it. *)
Definition wellFormed (w : world) : Prop :=
  (forall i c, calls w !! i = Some c -> is_Some (ADDRESS_STATE w !! keyOf c))
  /\ (forall key st, ADDRESS_STATE w !! key = Some st ->
                     LockInv (mutex st) (view key (calls w))).

(** The call is one on the state under [key] that has settled. *)
Definition settledOn (key : string) (c : call) : bool :=
  String.eqb (keyOf c) key
  && match at_ c with Settled _ => true | _ => false end.

(** How many calls on the state under [key] have settled. *)
Definition settledCount (key : string) (w : world) : nat :=
  length (List.filter (settledOn key) (calls w)).

(** Conditions on retries, admission checks and recorded usage. *)

(** The attempt fails with an error that the policy retries. *)
Definition transient {T : Type} (r : T + thrown) : bool :=
  match r with
  | inl _ => false
  | inr error => negb (isFatal error)
  end.

(** The delay taken after the failure of invocation [i]. *)
Definition delayAfter (random : nat -> Q) (baseDelay : Q) (i : nat) : Q :=
  (backoff baseDelay (Z.of_nat i) + jitter random i)%Q.

(** The time slept in all. *)
Definition total (delays : list Q) : Q := fold_right Qplus 0%Q delays.

(** The mean of finitely many equally likely values. *)
Definition mean (xs : list Q) : Q :=
  (total xs / inject_Z (Z.of_nat (length xs)))%Q.

(** The delay a call took before its retry [N] (counted from 1); 0 when it
    took none. *)
Definition delayBefore {T : Type} (N : nat) (run : option (retryRun T)) : Q :=
  match run with
  | Some r => default 0%Q (delays r !! (N - 1)%nat)
  | None => 0%Q
  end.

(** The order of the numbers; [NaN] compares with nothing. *)
Definition leDouble (x y : double) : Prop :=
  match x, y with
  | NaN, _ | _, NaN => False
  | NegInfinity, _ | _, PosInfinity => True
  | Finite a, Finite b => (a <= b)%Q
  | _, _ => False
  end.

(** Arithmetic on operands where no rounding occurs. *)
Definition exactMul (x y : double) : double :=
  match x, y with
  | Finite a, Finite b => Finite (a * b)
  | NaN, _ | _, NaN => NaN
  | Finite a, other | other, Finite a =>
      if Qeq_bool a 0 then NaN
      else if Qle_bool 0 a then other
      else match other with PosInfinity => NegInfinity | _ => PosInfinity end
  | PosInfinity, PosInfinity | NegInfinity, NegInfinity => PosInfinity
  | _, _ => NegInfinity
  end.

Definition exactDiv (x y : double) : double :=
  match x, y with
  | Finite a, Finite b => if Qeq_bool b 0 then NaN else Finite (a / b)
  | _, _ => NaN
  end.

Definition exactNumber (n : Z) : double := Finite (inject_Z n).

(** The admission checks that the calls of [enforceBudget] in flight make
    on the one module-level bucket, in the order in which the event loop
    runs them: each is a turn of some call's loop, asking for [needed] at
    clock reading [now].  A check runs to its [return] or to its [await]
    without interruption.  The result is the bucket at the end and the
    units granted in all. *)
Fixpoint admissions (cap : Z) (checks : list (Q * Z)) (b : bucket) : bucket * Q :=
  match checks with
  | [] => (b, 0%Q)
  | (needed, now) :: rest =>
      let '(b1, outcome) := admissionCheck (Some cap) cap needed now b in
      let '(b2, granted) := admissions cap rest b1 in
      (b2, ((match outcome with None => needed | Some _ => 0 end) + granted)%Q)
  end.

(** The requests that were answered, as [recordUsage] sees them: the clock
    reading, the endpoint and the calls with their weights. *)
Record usage : Type := {
  recordedAt : Z;
  host : string;
  charged : list methodWeight
}.

(** [recordUsage] run for each of them in turn. *)
Definition recordAll (uses : list usage) (m : metrics) : metrics :=
  fold_left (fun m u => recordUsage (recordedAt u) (host u) (charged u) m) uses m.

(** The timeline entry that [recordUsage] pushes for a request. *)
Definition entryOf (u : usage) : timelineEntry :=
  {| ts := recordedAt u; cus := reqCuOf (charged u); endpoint := host u |}.

(** The sum of the values of a table keyed by method. *)
Definition sumValues (table : list (jsval * Z)) : Z :=
  fold_right (fun kv s => snd kv + s) 0 table.

(** The sum of a field over the endpoints. *)
Definition sumEndpoints (field : endpointTotals -> Z)
    (table : gmap string endpointTotals) : Z :=
  map_fold (fun _ e s => field e + s) 0 table.

(** Further conditions on the worlds and runs of the nonce manager. *)

(** Every mutex's queue is in the order of the calls, and names only calls
    already made. *)
Definition queuesOrdered (w : world) : Prop :=
  forall key st,
    ADDRESS_STATE w !! key = Some st ->
    StronglySorted lt (queue (mutex st))
    /\ Forall (fun i => (i < length (calls w))%nat) (queue (mutex st)).

(** The event runs a continuation of call [id]. *)
Definition eventOf (id : nat) (ev : event) : Prop :=
  match ev with
  | Invoke _ _ => False
  | Resume i _ | CountSettles i _ _ => i = id
  end.

(** A [resync] on ["0xA"] whose request is in flight, after a call that was
    handed the nonce 5. *)
Definition resyncingWorld : world :=
  {| ADDRESS_STATE :=
       {[ "0xa" := {| currentNonce := Some 6%Z; lastSyncMs := 20000;
                      mutex := {| queue := []; locked := true |} |} ]};
     calls := [{| address := "0xA"; op := GetNextNonce false;
                  at_ := Settled (Nonce 5) |};
               {| address := "0xA"; op := Resync; at_ := AwaitCount 24000 |}] |}.

(** The event is a continuation of a call already made, and a count that
    settles does so with the answer [answer id] of the network. *)
Definition served (answer : nat -> thrown + Z) (ev : event) : Prop :=
  match ev with
  | Invoke _ _ => False
  | Resume _ _ => True
  | CountSettles id r _ => r = answer id
  end.

(** The calls whose request went out, and the calls that settled, in the
    order of the observations. *)
Definition fetched (os : list obs) : list nat :=
  omap (fun o => match o with Fetch id _ => Some id | Settle _ _ _ => None end) os.

Definition settled (os : list obs) : list nat :=
  omap (fun o => match o with Settle id _ _ => Some id | Fetch _ _ => None end) os.

(** How far a call has come. *)
Definition progress (p : pc) : nat :=
  match p with
  | AwaitLock => 0
  | LockGranted => 1
  | AwaitCount _ => 2
  | Settled _ => 3
  end.

(** What has been observed of each call agrees with where it stands: a call
    whose request went out is past the grant of the lock, a call that
    settled stands settled with that result, and neither happened twice. *)
Definition consistent (w : world) (os : list obs) : Prop :=
  NoDup (fetched os) /\ NoDup (settled os)
  /\ (forall id, id ∈ fetched os ->
                 exists c, calls w !! id = Some c /\ (2 <= progress (at_ c))%nat)
  /\ (forall id key r, Settle id key r ∈ os ->
                       exists c, calls w !! id = Some c /\ at_ c = Settled r
                                 /\ keyOf c = key).

(** The nonces among the results of calls. *)
Definition noncesOf (rs : list result) : list Z :=
  omap (fun r => match r with Nonce n => Some n | _ => None end) rs.

(** The count that arrives for a call on the state under [key] is not
    below the nonce stored there. *)
Definition notBehind (key : string) (ev : event) (w : world) : Prop :=
  match ev with
  | CountSettles id (inr chainPending) _ =>
      forall c stored,
        calls w !! id = Some c -> keyOf c = key ->
        nonceOf key w = Some stored -> (stored <= chainPending)%Z
  | _ => True
  end.

(** Along the schedule, the network never reports for the address a count
    below the nonce the manager holds. *)
Fixpoint chainKeepsUp (key : string) (schedule : list event) (w : world) : Prop :=
  match schedule with
  | [] => True
  | ev :: rest =>
      notBehind key ev w
      /\ match step ev w with
         | Some (w1, _) => chainKeepsUp key rest w1
         | None => True
         end
  end.

(** [a] is unset, or both are set and [a <= b]. *)
Definition atMost (a b : option Z) : Prop :=
  match a, b with
  | None, _ => True
  | Some x, Some y => (x <= y)%Z
  | Some _, None => False
  end.

(** Each number is at least [lo] (when set) and above all those before it. *)
Fixpoint ascendingFrom (lo : option Z) (ns : list Z) : Prop :=
  match ns with
  | [] => True
  | n :: rest => atMost lo (Some n) /\ ascendingFrom (Some (n + 1)%Z) rest
  end.

(** Opens the continuations of the manager in a goal about [step]. *)
Ltac open_calls :=
  unfold invoke, getNextNonce_locked, getNextNonce_counted, resync_locked,
    resync_counted, requestCount in *.

(** * Properties *)

(** ** Strings *)

Lemma append_nil (s : string) : (EmptyString ++ s)%string = s.
Proof. reflexivity. Qed.

Lemma append_cons (c : ascii) (s t : string) :
  (String c s ++ t)%string = String c (s ++ t)%string.
Proof. reflexivity. Qed.

Lemma prefix_iff (p s : string) :
  String.prefix p s = true <-> exists post, s = (p ++ post)%string.
Proof.
  revert s. induction p as [|a p IH]; intros s.
  - split; [intros _; exists s; reflexivity | intros _; destruct s; reflexivity].
  - destruct s as [|b s]; cbn [String.prefix].
    + split; [discriminate | intros [post H]; rewrite append_cons in H; discriminate].
    + destruct (ascii_dec a b) as [->|Hne].
      * rewrite IH. split; intros [post H]; exists post;
          rewrite append_cons in *; congruence.
      * split; [discriminate |].
        intros [post H]. rewrite append_cons in H. congruence.
Qed.

Lemma includes_iff (needle hay : string) :
  includes needle hay = true <-> contains needle hay.
Proof.
  induction hay as [|c hay IH]; cbn [includes].
  - destruct (String.prefix needle EmptyString) eqn:Hp.
    + split; [intros _ | reflexivity].
      apply prefix_iff in Hp as [post Hp]. exists EmptyString, post. exact Hp.
    + split; [discriminate |].
      intros (pre & post & H). destruct pre.
      * rewrite append_nil in H.
        assert (String.prefix needle EmptyString = true) as Hq
          by (apply prefix_iff; exists post; exact H).
        congruence.
      * rewrite append_cons in H. discriminate.
  - destruct (String.prefix needle (String c hay)) eqn:Hp.
    + split; [intros _ | reflexivity].
      apply prefix_iff in Hp as [post Hp]. exists EmptyString, post. exact Hp.
    + rewrite IH. split.
      * intros (pre & post & H). exists (String c pre), post.
        rewrite append_cons. congruence.
      * intros (pre & post & H). destruct pre as [|c' pre].
        -- rewrite append_nil in H.
           assert (String.prefix needle (String c hay) = true) as Hq
             by (apply prefix_iff; exists post; exact H).
           congruence.
        -- rewrite append_cons in H. exists pre, post. congruence.
Qed.

Lemma isFatal_iff (message : string) :
  isFatal (ErrorInst message) = true <-> fatalMessage message.
Proof.
  unfold isFatal, fatalMessage.
  rewrite !orb_true_iff, !includes_iff. tauto.
Qed.

(** ** Retry policy *)

Section RetryFacts.
Context {T : Type}.
Variable fn : nat -> T + thrown.
Variable random : nat -> Q.
Variable maxRetries : Z.
Variable baseDelay : Q.

Lemma retryLoop_total (fuel : nat) (attempt : Z) lastError calls slept :
  (Z.max 0 (maxRetries + 1 - attempt) < Z.of_nat fuel)%Z ->
  exists r, retryLoop fn random maxRetries baseDelay fuel attempt lastError calls slept
            = Some r.
Proof.
  revert attempt lastError calls slept.
  induction fuel as [|fuel IH]; intros attempt lastError calls slept Hfuel; [lia|].
  cbn [retryLoop].
  destruct (attempt <=? maxRetries)%Z eqn:Hle; [|eauto].
  destruct (fn calls) as [v|error]; [eauto|].
  destruct (isFatal error); [eauto|].
  destruct (attempt =? maxRetries)%Z eqn:Heq; [eauto|].
  apply IH. lia.
Qed.

Lemma retryLoop_invocations (fuel : nat) (attempt : Z) lastError calls slept r :
  retryLoop fn random maxRetries baseDelay fuel attempt lastError calls slept = Some r ->
  (Z.of_nat (invocations r) <= Z.of_nat calls + Z.max 0 (maxRetries + 1 - attempt))%Z.
Proof.
  revert attempt lastError calls slept.
  induction fuel as [|fuel IH]; intros attempt lastError calls slept; [discriminate|].
  cbn [retryLoop].
  destruct (attempt <=? maxRetries)%Z eqn:Hle.
  - apply Z.leb_le in Hle.
    destruct (fn calls) as [v|error]; [intros [= <-]; cbn; lia|].
    destruct (isFatal error); [intros [= <-]; cbn; lia|].
    destruct (attempt =? maxRetries)%Z eqn:Heq; [intros [= <-]; cbn; lia|].
    intros H. apply IH in H. lia.
  - intros [= <-]; cbn; lia.
Qed.

(** All of the first [M + 1] invocations fail with errors that are not
    fatal. *)
Lemma retryLoop_exhausts (errs : nat -> thrown) (M : nat) :
  maxRetries = Z.of_nat M ->
  (forall k, (k <= M)%nat -> fn k = inr (errs k) /\ isFatal (errs k) = false) ->
  forall (n k fuel : nat) lastError slept,
    (k + n = M)%nat -> (n < fuel)%nat ->
    retryLoop fn random maxRetries baseDelay fuel (Z.of_nat k) lastError k slept
    = Some {| outcome := inr (errs M); invocations := S M;
              delays := (slept ++ map (fun i => (backoff baseDelay (Z.of_nat i)
                                                 + jitter random i)%Q)
                                      (seq k n))%list |}.
Proof.
  intros HM Hfail n.
  induction n as [|n IH]; intros k fuel lastError slept Hk Hfuel;
    (destruct fuel as [|fuel]; [lia|]); cbn [retryLoop];
    destruct (Hfail k ltac:(lia)) as [Hfn Hnf]; rewrite Hfn, Hnf.
  - assert (k = M) as -> by lia.
    rewrite (proj2 (Z.leb_le _ _)) by lia.
    rewrite (proj2 (Z.eqb_eq _ _)) by lia.
    cbn. rewrite app_nil_r. reflexivity.
  - rewrite (proj2 (Z.leb_le _ _)) by lia.
    rewrite (proj2 (Z.eqb_neq _ _)) by lia.
    replace (Z.of_nat k + 1)%Z with (Z.of_nat (S k)) by lia.
    rewrite IH by lia. cbn [seq map]. rewrite <- app_assoc. reflexivity.
Qed.
End RetryFacts.

(** [retryWithBackoff] always settles: the loop is bounded by [maxRetries]. *)
Lemma retryWithBackoff_total {T : Type} (fn : nat -> T + thrown)
    (random : nat -> Q) (maxRetries : Z) (baseDelay : Q) :
  exists r, retryWithBackoff fn random maxRetries baseDelay = Some r.
Proof. apply retryLoop_total. lia. Qed.

(** It never invokes the operation more than [maxRetries + 1] times. *)
Lemma retryWithBackoff_at_most {T : Type} (fn : nat -> T + thrown)
    (random : nat -> Q) (maxRetries : Z) (baseDelay : Q) (r : retryRun T) :
  retryWithBackoff fn random maxRetries baseDelay = Some r ->
  (Z.of_nat (invocations r) <= Z.max 0 (maxRetries + 1))%Z.
Proof.
  intros H. apply retryLoop_invocations in H.
  replace (maxRetries + 1 - 0)%Z with (maxRetries + 1)%Z in H by lia. lia.
Qed.

(** C2. An operation whose failure is an [Error] whose message carries a
    fatal marker ("insufficient funds", "invalid signature", "nonce" in any
    letter case, "already known", "replacement transaction underpriced") is
    invoked exactly once: [retryWithBackoff] rethrows that very error, and
    no delay is taken. *)
Theorem retry_fatal_invoked_once {T : Type} (fn : nat -> T + thrown)
    (random : nat -> Q) (maxRetries : Z) (baseDelay : Q) (message : string) :
  (0 <= maxRetries)%Z ->
  fn 0%nat = inr (ErrorInst message) ->
  fatalMessage message ->
  retryWithBackoff fn random maxRetries baseDelay
  = Some {| outcome := inr (ErrorInst message); invocations := 1; delays := [] |}.
Proof.
  intros Hmax Hfn Hfatal. apply isFatal_iff in Hfatal.
  unfold retryWithBackoff. cbn [retryLoop].
  rewrite (proj2 (Z.leb_le 0 maxRetries) Hmax), Hfn, Hfatal. reflexivity.
Qed.

Lemma retry_fatal_invoked_once_witness :
  retryWithBackoff (T := Z)
    (fun _ => inr (ErrorInst "insufficient funds for gas * price + value"))
    (fun _ => 1 # 2) 3 1000
  = Some {| outcome := inr (ErrorInst "insufficient funds for gas * price + value");
            invocations := 1; delays := [] |}.
Proof.
  apply retry_fatal_invoked_once.
  - lia.
  - reflexivity.
  - apply isFatal_iff. vm_compute. reflexivity.
Defined.

Lemma total_affine {A : Type} (f : A -> Q) (c : Q) (xs : list A) :
  (total (map (fun x => c + f x * 1000) xs)
   == c * inject_Z (Z.of_nat (length xs)) + total (map f xs) * 1000)%Q.
Proof.
  induction xs as [|x xs IH].
  - cbn. ring.
  - cbn [map total fold_right length].
    fold (total (map (fun x => c + f x * 1000)%Q xs)). fold (total (map f xs)).
    rewrite IH, Nat2Z.inj_succ. unfold Z.succ.
    rewrite inject_Z_plus. change (inject_Z 1) with 1%Q. ring.
Qed.

(** The mean of [c + 1000 * u] over equally likely draws [u] is [c] plus
    1000 times the mean of the draws. *)
Lemma mean_affine {A : Type} (f : A -> Q) (c : Q) (xs : list A) :
  xs <> [] ->
  (mean (map (fun x => c + f x * 1000) xs) == c + mean (map f xs) * 1000)%Q.
Proof.
  intros Hne. unfold mean. rewrite total_affine, !length_map.
  assert (~ inject_Z (Z.of_nat (length xs)) == 0)%Q as Hlen.
  { destruct xs as [|x xs]; [contradiction|].
    intros H. unfold Qeq in H. cbn in H. lia. }
  field. split; exact Hlen.
Qed.

(** C4. When every invocation fails with an error that is not fatal, the
    operation is invoked [maxRetries + 1] times (the first attempt and
    [maxRetries] retries) and the last error is thrown.  The delays taken
    are, in order, [baseDelay * 2^i + Math.random() * 1000] for
    [i = 0 .. maxRetries - 1]: the delay before retry [N] (counted from 1)
    is [baseDelay * 2^(N-1)] plus a jitter that is 1000 times the value of
    [Math.random()] drawn at that failure.  The jitter lies in [0, 1000) and
    is spread as [Math.random()] is spread on [0, 1): it falls in [a, b)
    exactly when the draw falls in [a/1000, b/1000).  The backoff term
    doubles from one retry to the next; so over any equally likely runs
    whose draws at consecutive retries have the same mean, the mean delay
    before retry [N + 1] is larger than the mean delay before retry [N]. *)
Theorem retry_backoff_schedule {T : Type} (fn : nat -> T + thrown)
    (random : nat -> Q) (maxRetries : Z) (baseDelay : Q) (errs : nat -> thrown) :
  (0 <= maxRetries)%Z ->
  (0 < baseDelay)%Q ->
  (forall k, 0 <= random k /\ random k < 1)%Q ->
  (forall k, (Z.of_nat k <= maxRetries)%Z ->
             fn k = inr (errs k) /\ isFatal (errs k) = false) ->
  (exists r,
      retryWithBackoff fn random maxRetries baseDelay = Some r
      /\ Z.of_nat (invocations r) = (maxRetries + 1)%Z
      /\ outcome r = inr (errs (Z.to_nat maxRetries))
      /\ Z.of_nat (length (delays r)) = maxRetries
      /\ delays r
         = map (fun i => baseDelay * inject_Z (2 ^ Z.of_nat i) + random i * 1000)%Q
               (seq 0 (Z.to_nat maxRetries))
      /\ forall N : nat,
           (1 <= Z.of_nat N <= maxRetries)%Z ->
           delays r !! (N - 1)%nat
           = Some (baseDelay * inject_Z (2 ^ (Z.of_nat N - 1))
                   + random (N - 1)%nat * 1000)%Q
           /\ (0 <= random (N - 1)%nat * 1000)%Q
           /\ (random (N - 1)%nat * 1000 < 1000)%Q
           /\ (forall a b : Q,
                  (a <= random (N - 1)%nat * 1000 /\ random (N - 1)%nat * 1000 < b
                   <-> a / 1000 <= random (N - 1)%nat
                       /\ random (N - 1)%nat < b / 1000)%Q)
           /\ (inject_Z (2 ^ Z.of_nat N) == 2 * inject_Z (2 ^ (Z.of_nat N - 1)))%Q
           /\ (baseDelay * inject_Z (2 ^ (Z.of_nat N - 1))
               < baseDelay * inject_Z (2 ^ Z.of_nat N))%Q)
  /\ (forall (draws : list (nat -> Q)) (N : nat),
         draws <> [] ->
         (1 <= Z.of_nat N < maxRetries)%Z ->
         (mean (map (fun draw => draw (N - 1)%nat) draws)
          == mean (map (fun draw => draw N) draws))%Q ->
         (mean (map (fun draw =>
                       delayBefore N (retryWithBackoff fn draw maxRetries baseDelay))
                    draws)
          < mean (map (fun draw =>
                         delayBefore (S N)
                                     (retryWithBackoff fn draw maxRetries baseDelay))
                      draws))%Q).
Proof.
  intros Hmax Hbase Hrand Hfail.
  set (M := Z.to_nat maxRetries).
  assert (maxRetries = Z.of_nat M) as HM by (subst M; lia).
  assert (forall draw : nat -> Q,
             retryWithBackoff fn draw maxRetries baseDelay
             = Some {| outcome := inr (errs M); invocations := S M;
                       delays := map (fun i => baseDelay * inject_Z (2 ^ Z.of_nat i)
                                               + draw i * 1000)%Q
                                     (seq 0 M) |}) as Hrun.
  { intros draw. unfold retryWithBackoff.
    rewrite (retryLoop_exhausts fn draw maxRetries baseDelay errs M HM) with (n := M) (k := 0%nat);
      [reflexivity | | lia | lia].
    intros k Hk. apply Hfail. lia. }
  assert (forall N : nat,
             (1 <= Z.of_nat N)%Z ->
             (baseDelay * inject_Z (2 ^ (Z.of_nat N - 1))
              < baseDelay * inject_Z (2 ^ Z.of_nat N))%Q) as Hdouble.
  { intros N HN. apply Qmult_lt_l; [exact Hbase|].
    rewrite <- Zlt_Qlt. apply Z.pow_lt_mono_r; lia. }
  assert (forall (draw : nat -> Q) (N : nat),
             (1 <= Z.of_nat N <= maxRetries)%Z ->
             delayBefore N (retryWithBackoff fn draw maxRetries baseDelay)
             = (baseDelay * inject_Z (2 ^ (Z.of_nat N - 1))
                + draw (N - 1)%nat * 1000)%Q) as Hdelay.
  { intros draw N HN. rewrite Hrun. unfold delayBefore. cbn [delays].
    rewrite list_lookup_fmap, lookup_seq_lt by lia. cbn.
    replace (Z.of_nat (N - 1)) with (Z.of_nat N - 1)%Z by lia. reflexivity. }
  split.
  - eexists. split; [apply Hrun|].
    cbn [invocations outcome delays].
    rewrite length_map, length_seq.
    split; [lia|]. split; [reflexivity|]. split; [lia|]. split; [reflexivity|].
    intros N [HN1 HN2]. destruct (Hrand (N - 1)%nat) as [Hr0 Hr1].
    split; [|split; [|split; [|split; [|split]]]].
    + rewrite list_lookup_fmap, lookup_seq_lt by lia. cbn.
      replace (Z.of_nat (N - 1)) with (Z.of_nat N - 1)%Z by lia. reflexivity.
    + lra.
    + lra.
    + intros a b.
      assert (a == a / 1000 * 1000)%Q as Ea by (field; discriminate).
      assert (b == b / 1000 * 1000)%Q as Eb by (field; discriminate).
      split; intros [Ha Hb]; split; lra.
    + replace (Z.of_nat N) with ((Z.of_nat N - 1) + 1)%Z at 1 by lia.
      rewrite Z.pow_add_r, Z.pow_1_r, inject_Z_mult by lia.
      change (inject_Z 2) with 2%Q. ring.
    + apply Hdouble. lia.
  - intros draws N Hne HN Hsame.
    rewrite (map_ext _ (fun draw => baseDelay * inject_Z (2 ^ (Z.of_nat N - 1))
                                    + draw (N - 1)%nat * 1000)%Q)
      by (intros draw; apply Hdelay; lia).
    rewrite (map_ext (fun draw => delayBefore (S N) _)
                     (fun draw => baseDelay * inject_Z (2 ^ Z.of_nat N)
                                  + draw N * 1000)%Q).
    2:{ intros draw. rewrite Hdelay by lia.
        replace (Z.of_nat (S N) - 1)%Z with (Z.of_nat N) by lia.
        replace (S N - 1)%nat with N by lia. reflexivity. }
    rewrite (mean_affine (fun draw => draw (N - 1)%nat)) by exact Hne.
    rewrite (mean_affine (fun draw => draw N)) by exact Hne.
    rewrite Hsame. pose proof (Hdouble N ltac:(lia)). lra.
Qed.

Lemma retry_backoff_schedule_witness :
  exists r,
    retryWithBackoff (T := Z) (fun _ => inr (ErrorInst "rate limit exceeded"))
                     (fun _ => 1 # 2) 3 1000 = Some r
    /\ Z.of_nat (invocations r) = 4%Z
    /\ outcome r = inr (ErrorInst "rate limit exceeded")
    /\ delays r = [(1000 * 1 + (1 # 2) * 1000)%Q; (1000 * 2 + (1 # 2) * 1000)%Q;
                   (1000 * 4 + (1 # 2) * 1000)%Q]
    /\ Forall2 Qeq (delays r) [1500%Q; 2500%Q; 4500%Q].
Proof.
  destruct (retry_backoff_schedule (T := Z)
              (fun _ => inr (ErrorInst "rate limit exceeded"))
              (fun _ => 1 # 2) 3 1000
              (fun _ => ErrorInst "rate limit exceeded"))
    as [(r & Hr & Hn & Ho & _ & Hd & _) _].
  - lia.
  - reflexivity.
  - intros k. split; [discriminate | reflexivity].
  - intros k _. split; [reflexivity | vm_compute; reflexivity].
  - exists r. split; [exact Hr|]. split; [exact Hn|]. split; [exact Ho|].
    split; [exact Hd|]. rewrite Hd. repeat constructor.
Defined.

(** From a base delay of one second on (the default), each delay is longer
    than the one before it whatever the jitter. *)
Lemma retry_delays_increase (random : nat -> Q) (baseDelay : Q) (k : nat) :
  (1000 <= baseDelay)%Q ->
  (forall i, 0 <= random i /\ random i < 1)%Q ->
  (backoff baseDelay (Z.of_nat k) + jitter random k
   < backoff baseDelay (Z.of_nat (S k)) + jitter random (S k))%Q.
Proof.
  intros Hbase Hrand. unfold backoff, jitter.
  destruct (Hrand k) as [_ Hk]. destruct (Hrand (S k)) as [HSk _].
  replace (Z.of_nat (S k)) with (Z.of_nat k + 1)%Z by lia.
  rewrite Z.pow_add_r, Z.pow_1_r, inject_Z_mult by lia.
  assert (1 <= inject_Z (2 ^ Z.of_nat k))%Q as Hpow.
  { change 1%Q with (inject_Z 1). rewrite <- Zle_Qle.
    pose proof (Z.pow_pos_nonneg 2 (Z.of_nat k)). lia. }
  change (inject_Z 2) with 2%Q.
  assert (1000 <= baseDelay * inject_Z (2 ^ Z.of_nat k))%Q as Hprod.
  { apply Qle_trans with (baseDelay * 1)%Q; [lra|].
    apply Qmult_le_l; lra. }
  lra.
Qed.

(** A value that is not an [Error] is never taken for fatal: thrown at
    every attempt, it is retried until the attempts run out. *)
Example retry_non_error_retried :
  option_map invocations
    (retryWithBackoff (T := Z) (fun _ => inr (NonError (Some (JStr "insufficient funds"))))
                      (fun _ => 1 # 2) 2 400)
  = Some 3%nat.
Proof. vm_compute. reflexivity. Qed.

(** ** Token-bucket limiter *)

Lemma elapsed_nonneg (now last : Z) :
  (last <= now)%Z -> (0 <= inject_Z (now - last) / 1000)%Q.
Proof.
  intros H. apply Qle_shift_div_l; [reflexivity|].
  rewrite Qmult_0_l. change 0%Q with (inject_Z 0). rewrite <- Zle_Qle. lia.
Qed.

Lemma refillTokens_nonneg (cap now : Z) (b : bucket) :
  (1 <= cap)%Z -> (0 <= cuTokens b)%Q ->
  (0 <= cuTokens (refillTokens (Some cap) now b))%Q.
Proof.
  intros Hcap H0. unfold refillTokens.
  assert (0 < inject_Z cap)%Q as Hc
    by (change 0%Q with (inject_Z 0); rewrite <- Zlt_Qlt; lia).
  destruct (Qlt_le_dec 0 (inject_Z (now - lastRefill b) / 1000)) as [He|He];
    cbn [cuTokens]; [|assumption].
  apply Q.min_glb; [lra|].
  assert (0 <= inject_Z (now - lastRefill b) / 1000 * inject_Z cap)%Q
    by (apply Qmult_le_0_compat; lra).
  lra.
Qed.

Lemma refillTokens_le_cap (cap now : Z) (b : bucket) :
  (cuTokens b <= inject_Z cap)%Q ->
  (cuTokens (refillTokens (Some cap) now b) <= inject_Z cap)%Q.
Proof.
  intros H1. unfold refillTokens.
  destruct (Qlt_le_dec 0 (inject_Z (now - lastRefill b) / 1000)) as [He|He];
    cbn [cuTokens]; [apply Q.le_min_l | exact H1].
Qed.


(** One admission check keeps the token count within the bucket. *)
Lemma admissionCheck_bounds (cap now : Z) (needed : Q) (b : bucket) :
  (1 <= cap)%Z -> (0 <= needed)%Q ->
  (0 <= cuTokens b)%Q -> (cuTokens b <= inject_Z cap)%Q ->
  (0 <= cuTokens (fst (admissionCheck (Some cap) cap needed now b)))%Q
  /\ (cuTokens (fst (admissionCheck (Some cap) cap needed now b)) <= inject_Z cap)%Q.
Proof.
  intros Hcap Hn H0 H1. unfold admissionCheck.
  pose proof (refillTokens_nonneg cap now b Hcap H0) as R0.
  pose proof (refillTokens_le_cap cap now b H1) as R1.
  destruct (Qle_bool needed (cuTokens (refillTokens (Some cap) now b))) eqn:Hle;
    cbn [fst cuTokens]; [|split; assumption].
  apply Qle_bool_iff in Hle. split; lra.
Qed.

Lemma enforceLoop_bounds (cap : Z) (needed : Q) (clock : nat -> Z) (fuel : nat) :
  (1 <= cap)%Z -> (0 <= needed)%Q ->
  forall (i : nat) (b : bucket) (slept : list Z),
    (0 <= cuTokens b)%Q -> (cuTokens b <= inject_Z cap)%Q ->
    (0 <= cuTokens (bucketOf (enforceLoop (Some cap) cap needed clock fuel i b slept)))%Q
    /\ (cuTokens (bucketOf (enforceLoop (Some cap) cap needed clock fuel i b slept))
        <= inject_Z cap)%Q.
Proof.
  intros Hcap Hn. induction fuel as [|fuel IH]; intros i b slept H0 H1;
    cbn [enforceLoop bucketOf]; [split; assumption|].
  pose proof (admissionCheck_bounds cap (clock i) needed b Hcap Hn H0 H1) as Hb.
  destruct (admissionCheck (Some cap) cap needed (clock i) b) as [b' [ms|]];
    cbn [fst] in Hb; [apply IH; tauto | exact Hb].
Qed.

Lemma sleep_bounds (x : Z) : (5 <= Z.min (Z.max 5 x) 200 <= 200)%Z.
Proof. lia. Qed.

(** A request dearer than the bucket's capacity is never granted. *)
Lemma enforceLoop_starves (cap : Z) (needed : Q) (clock : nat -> Z) (fuel : nat) :
  (inject_Z cap < needed)%Q ->
  forall (i : nat) (b : bucket) (slept : list Z),
    (cuTokens b <= inject_Z cap)%Q ->
    exists b' slept',
      enforceLoop (Some cap) cap needed clock fuel i b slept = Waiting b' slept'
      /\ length slept' = (length slept + fuel)%nat.
Proof.
  intros Hbig. induction fuel as [|fuel IH]; intros i b slept H1; cbn [enforceLoop].
  - exists b, slept. split; [reflexivity | lia].
  - unfold admissionCheck.
    pose proof (refillTokens_le_cap cap (clock i) b H1) as R1.
    destruct (Qle_bool needed (cuTokens (refillTokens (Some cap) (clock i) b))) eqn:Hle.
    + apply Qle_bool_iff in Hle. lra.
    + destruct (IH (S i) (refillTokens (Some cap) (clock i) b)
                   (slept ++ [Z.min (Z.max 5 (Qceiling ((needed - cuTokens (refillTokens (Some cap) (clock i) b)) / inject_Z cap * 1000))) 200])%list R1)
        as (b' & s' & E & L).
      exists b', s'. split; [exact E|]. rewrite L, length_app. cbn. lia.
Qed.

Lemma inject_Z_sub (a b : Z) : (inject_Z (a - b) == inject_Z a - inject_Z b)%Q.
Proof. unfold Z.sub. rewrite inject_Z_plus, inject_Z_opp. reflexivity. Qed.

Lemma refillTokens_potential (cap now t : Z) (needed : Q) (b : bucket) :
  (1 <= cap)%Z -> (lastRefill b <= now)%Z -> (now <= t)%Z ->
  (needed <= inject_Z cap)%Q ->
  (needed <= potential cap b t)%Q ->
  (needed <= potential cap (refillTokens (Some cap) now b) t)%Q
  /\ (lastRefill (refillTokens (Some cap) now b) <= t)%Z.
Proof.
  intros Hcap Hlast Ht Hn Hp. unfold refillTokens.
  destruct (Qlt_le_dec 0 (inject_Z (now - lastRefill b) / 1000)) as [He|He];
    [|split; [exact Hp | lia]].
  split; [|cbn; lia].
  unfold potential in *. cbn [cuTokens lastRefill].
  assert (0 < inject_Z cap)%Q as Hc
    by (change 0%Q with (inject_Z 0); rewrite <- Zlt_Qlt; lia).
  assert (0 <= inject_Z (t - now) / 1000 * inject_Z cap)%Q as Hrest.
  { apply Qmult_le_0_compat; [apply elapsed_nonneg; exact Ht | lra]. }
  assert (inject_Z (t - lastRefill b) / 1000 * inject_Z cap
          == inject_Z (now - lastRefill b) / 1000 * inject_Z cap
             + inject_Z (t - now) / 1000 * inject_Z cap)%Q as Hsplit.
  { rewrite !inject_Z_sub. field. repeat split; discriminate. }
  destruct (Q.min_spec (inject_Z cap)
              (cuTokens b + inject_Z (now - lastRefill b) / 1000 * inject_Z cap))
    as [[_ E]|[_ E]]; rewrite E; lra.
Qed.

Lemma refillTokens_at_now (cap now : Z) (needed : Q) (b : bucket) :
  (lastRefill b <= now)%Z ->
  (needed <= inject_Z cap)%Q ->
  (needed <= potential cap b now)%Q ->
  (needed <= cuTokens (refillTokens (Some cap) now b))%Q.
Proof.
  intros Hlast Hn Hp. unfold refillTokens, potential in *.
  destruct (Qlt_le_dec 0 (inject_Z (now - lastRefill b) / 1000)) as [He|He];
    cbn [cuTokens].
  - apply Q.min_glb; assumption.
  - pose proof (elapsed_nonneg now (lastRefill b) Hlast) as Hge.
    assert (inject_Z (now - lastRefill b) / 1000 == 0)%Q as E by lra.
    rewrite E, Qmult_0_l, Qplus_0_r in Hp. exact Hp.
Qed.

Lemma clock_mono (clock : nat -> Z) :
  (forall i, clock i <= clock (S i))%Z ->
  forall i k, (clock i <= clock (i + k)%nat)%Z.
Proof.
  intros Hstep i k. induction k as [|k IH].
  - rewrite Nat.add_0_r. lia.
  - rewrite Nat.add_succ_r. specialize (Hstep (i + k)%nat). lia.
Qed.

Lemma enforceLoop_grants (cap : Z) (needed : Q) (clock : nat -> Z) :
  (1 <= cap)%Z -> (needed <= inject_Z cap)%Q ->
  (forall i, clock i <= clock (S i))%Z ->
  forall (f i : nat) (b : bucket) (slept : list Z),
    (lastRefill b <= clock i)%Z ->
    (needed <= potential cap b (clock (i + f)%nat))%Q ->
    exists b' slept',
      enforceLoop (Some cap) cap needed clock (S f) i b slept = Granted b' slept'.
Proof.
  intros Hcap Hn Hstep f.
  induction f as [|f IH]; intros i b slept Hlast Hp; cbn [enforceLoop];
    unfold admissionCheck;
    destruct (Qle_bool needed (cuTokens (refillTokens (Some cap) (clock i) b))) eqn:Hle;
    try (eexists; eexists; reflexivity).
  - rewrite Nat.add_0_r in Hp.
    pose proof (refillTokens_at_now cap (clock i) needed b Hlast Hn Hp) as H.
    apply Qle_bool_iff in H. congruence.
  - destruct (refillTokens_potential cap (clock i) (clock (i + S f)%nat) needed b)
      as [Hp' Hlast']; try assumption.
    { apply clock_mono. exact Hstep. }
    apply IH.
    + unfold refillTokens.
      destruct (Qlt_le_dec 0 (inject_Z (clock i - lastRefill b) / 1000));
        cbn [lastRefill]; specialize (Hstep i); lia.
    + replace (S i + f)%nat with (i + S f)%nat by lia. exact Hp'.
Qed.

Lemma clock_advance (clock : nat -> Z) :
  (forall i, clock i + 5 <= clock (S i))%Z ->
  forall k, (clock 0%nat + 5 * Z.of_nat k <= clock k)%Z.
Proof.
  intros Hstep k. induction k as [|k IH]; [lia|].
  specialize (Hstep k). lia.
Qed.

(** Within the bucket's capacity the call returns: when every sleep lasts
    at least the 5 ms the loop asks for, 201 admission checks suffice. *)
Lemma enforceBudget_returns (cap : Z) (needed : Q) (clock : nat -> Z) (b : bucket) :
  (1 <= cap)%Z -> (needed <= inject_Z cap)%Q ->
  (0 <= cuTokens b)%Q -> (lastRefill b <= clock 0%nat)%Z ->
  (forall i, clock i + 5 <= clock (S i))%Z ->
  exists b' slept,
    enforceBudget (Some cap) needed clock 201 b = Granted b' slept.
Proof.
  intros Hcap Hn H0 Hlast Hstep. unfold enforceBudget.
  apply (enforceLoop_grants cap needed clock Hcap Hn) with (f := 200%nat) (i := 0%nat).
  - intros i. specialize (Hstep i). lia.
  - exact Hlast.
  - cbn [Nat.add]. unfold potential.
    pose proof (clock_advance clock Hstep 200) as Hadv.
    assert (0 < inject_Z cap)%Q as Hc
      by (change 0%Q with (inject_Z 0); rewrite <- Zlt_Qlt; lia).
    assert (1 <= inject_Z (clock 200%nat - lastRefill b) / 1000)%Q as Hone.
    { apply Qle_shift_div_l; [reflexivity|].
      change (1 * 1000)%Q with (inject_Z 1000). rewrite <- Zle_Qle. lia. }
    assert (inject_Z cap <= inject_Z (clock 200%nat - lastRefill b) / 1000 * inject_Z cap)%Q.
    { rewrite <- (Qmult_1_l (inject_Z cap)) at 1.
      apply Qmult_le_compat_r; lra. }
    lra.
Qed.







(** C8, at a request dearer than the capacity.  With a budget of 10 units
    per second the bucket never holds more than 10 tokens, so a request of
    20 units (one [eth_getLogs]) is never granted: whatever the clock reads
    and however many admission checks are observed, the call is still
    asleep in its loop. *)
Theorem enforceBudget_starves_above_capacity (clock : nat -> Z) (fuel : nat)
    (start : Z) :
  exists b slept,
    enforceBudget (budgetPerSec (Some 10%Z)) 20 clock fuel
                  (initialBucket (budgetPerSec (Some 10%Z)) start)
    = Waiting b slept
    /\ length slept = fuel.
Proof.
  change (budgetPerSec (Some 10%Z)) with (Some 10%Z). unfold enforceBudget.
  destruct (enforceLoop_starves 10 20 clock fuel ltac:(reflexivity) 0%nat
              (initialBucket (Some 10%Z) start) [])
    as (b & s & E & L).
  - cbn. apply Qle_refl.
  - exists b, s. split; [exact E | exact L].
Qed.

(** ** Cost model *)






Example weightFor_known (nts : Q -> string) :
  weightFor nts ∅ (Some (JStr "eth_getLogs")) (Some (JArr [])) = Units 20.
Proof. vm_compute. reflexivity. Qed.

Example weightFor_unknown (nts : Q -> string) :
  weightFor nts ∅ (Some (JStr "debug_traceTransaction")) None = Units 5.
Proof. vm_compute. reflexivity. Qed.

Example weightFor_override (nts : Q -> string) :
  weightFor nts {[ "eth_call" := 9 ]} (Some (JStr "eth_call")) (Some (JArr [])) = Units 9.
Proof. vm_compute. reflexivity. Qed.

Example weightFor_full_block (nts : Q -> string) :
  weightFor nts ∅ (Some (JStr "eth_getBlockByNumber"))
            (Some (JArr [JStr "latest"; JBool true])) = Units 32.
Proof. vm_compute. reflexivity. Qed.

Example weightFor_header_only (nts : Q -> string) :
  weightFor nts ∅ (Some (JStr "eth_getBlockByHash"))
            (Some (JArr [JStr "0xabc"; JBool false])) = Units 8.
Proof. vm_compute. reflexivity. Qed.

(** ** Request inspection and metering *)

Lemma mapM_callOf_total (js : list json) :
  Forall (fun j => j <> JNull) js ->
  mapM callOf js
  = Some (map (fun j => {| method := default None (getProp j "method");
                           params := default None (getProp j "params") |}) js).
Proof.
  induction 1 as [|j js Hj _ IH]; [reflexivity|].
  cbn [mapM map]. rewrite IH. unfold callOf.
  destruct j; try contradiction; reflexivity.
Qed.

Lemma mapM_callOf_null (js : list json) : In JNull js -> mapM callOf js = None.
Proof.
  induction js as [|j js IH]; intros Hin; [destruct Hin|].
  cbn [mapM]. destruct Hin as [->|Hin]; [reflexivity|].
  rewrite (IH Hin). destruct (callOf j); reflexivity.
Qed.

Section PayloadFacts.
Variable Number_toString : Q -> string.
Variable USER_CU_WEIGHTS : gmap string Z.
Variable JSON_parse : string -> option json.

Lemma parsePayload_absent : parsePayload JSON_parse None = [].
Proof. reflexivity. Qed.






End PayloadFacts.




(** ** Nonce manager *)

(** *** Runs without a request *)

Lemma idleCalls_alter (key : string) (p : pc) (i : nat) (cs : list call) :
  (forall now, p <> AwaitCount now) ->
  idleCalls key cs -> idleCalls key (alter (moveTo p) i cs).
Proof.
  intros Hp Hidle id c now Hc Hkey.
  destruct (decide (i = id)) as [->|Hne].
  - rewrite list_lookup_alter_eq in Hc.
    destruct (cs !! id) as [c0|] eqn:E; [|discriminate].
    injection Hc as <-. cbn. apply Hp.
  - rewrite list_lookup_alter_ne in Hc by exact Hne. eapply Hidle; eassumption.
Qed.

Lemma idleCalls_alter_other (key : string) (p : pc) (i : nat) (cs : list call) (c0 : call) :
  cs !! i = Some c0 -> toLowerCase (address c0) <> key ->
  idleCalls key cs -> idleCalls key (alter (moveTo p) i cs).
Proof.
  intros Hi Hother Hidle id c now Hc Hkey.
  destruct (decide (i = id)) as [->|Hne].
  - rewrite list_lookup_alter_eq, Hi in Hc. injection Hc as <-.
    cbn in Hkey. contradiction.
  - rewrite list_lookup_alter_ne in Hc by exact Hne. eapply Hidle; eassumption.
Qed.

Lemma idleCalls_snoc (key : string) (cs : list call) (c0 : call) :
  (forall now, at_ c0 <> AwaitCount now) ->
  idleCalls key cs -> idleCalls key (cs ++ [c0]).
Proof.
  intros Hc0 Hidle id c now Hc Hkey.
  apply lookup_snoc_Some in Hc as [[_ Hc]|[_ ->]]; [eapply Hidle; eassumption | apply Hc0].
Qed.

(** What [release] leaves behind. *)
Lemma release_spec (id : nat) (key : string) (state : NonceState) (r : result)
    (w w' : world) (os : list obs) :
  release id key state r w = (w', os) ->
  os = [Settle id key r]
  /\ ADDRESS_STATE w'
     = <[key := {| currentNonce := currentNonce state;
                   lastSyncMs := lastSyncMs state;
                   mutex := fst (unlock (mutex state)) |}]> (ADDRESS_STATE w)
  /\ calls w'
     = match snd (unlock (mutex state)) with
       | Some next =>
           alter (moveTo LockGranted) next (alter (moveTo (Settled r)) id (calls w))
       | None => alter (moveTo (Settled r)) id (calls w)
       end.
Proof.
  unfold release. destruct (unlock (mutex state)) as [m woken].
  intros [= <- <-]. repeat split.
Qed.

Lemma release_idle (id : nat) (key key' : string) (state : NonceState) (r : result)
    (w : world) :
  idle key' w -> idle key' (fst (release id key state r w)).
Proof.
  intros Hidle. destruct (release id key state r w) as [w' os] eqn:E.
  apply release_spec in E as (_ & _ & Hcalls). unfold idle. cbn [fst]. rewrite Hcalls.
  destruct (snd (unlock (mutex state)));
    repeat (apply idleCalls_alter; [discriminate|]); exact Hidle.
Qed.

Lemma settledFor_one (key k : string) (id : nat) (r : result) :
  settledFor key [Settle id k r] = if String.eqb k key then [r] else [].
Proof. unfold settledFor. cbn. destruct (String.eqb k key); reflexivity. Qed.

Lemma fetchesFor_one (key address : string) (id : nat) :
  fetchesFor key [Fetch id address]
  = if String.eqb (toLowerCase address) key then [id] else [].
Proof.
  unfold fetchesFor. cbn. destruct (String.eqb (toLowerCase address) key); reflexivity.
Qed.

(** A release on another state leaves the state under [key] alone. *)
Lemma release_other (id : nat) (key key' : string) (state st : NonceState)
    (r : result) (w : world) :
  key' <> key ->
  ADDRESS_STATE w !! key = Some st -> idle key w ->
  ADDRESS_STATE (fst (release id key' state r w)) !! key = Some st
  /\ idle key (fst (release id key' state r w))
  /\ settledFor key (snd (release id key' state r w)) = [].
Proof.
  intros Hne Hst Hidle. split; [|split].
  - destruct (release id key' state r w) as [w' os] eqn:E.
    apply release_spec in E as (_ & Hmap & _). cbn [fst]. rewrite Hmap.
    rewrite lookup_insert_ne by exact Hne. exact Hst.
  - apply release_idle. exact Hidle.
  - destruct (release id key' state r w) as [w' os] eqn:E.
    apply release_spec in E as (Hos & _ & _). cbn [snd]. rewrite Hos.
    rewrite settledFor_one. apply String.eqb_neq in Hne. rewrite Hne. reflexivity.
Qed.

(** One step during which no request goes out for the state under [key]:
    either nothing settles on it, or one call takes the stored nonce and
    leaves its successor. *)
Lemma quiet_step (key : string) (ev : event) (w w' : world) (os : list obs)
    (st : NonceState) (c : Z) :
  step ev w = Some (w', os) ->
  ADDRESS_STATE w !! key = Some st -> currentNonce st = Some c ->
  idle key w ->
  fetchesFor key os = [] ->
  exists st',
    ADDRESS_STATE w' !! key = Some st'
    /\ lastSyncMs st' = lastSyncMs st
    /\ idle key w'
    /\ ((settledFor key os = [] /\ currentNonce st' = Some c)
        \/ (settledFor key os = [Nonce c] /\ currentNonce st' = Some (c + 1)%Z)).
Proof.
  intros Hstep Hst Hc Hidle Hquiet.
  destruct ev as [address0 op0|id now|id r now']; cbn [step] in Hstep; open_calls.
  - (* Invoke *)
    unfold getOrCreateState in Hstep.
    destruct (ADDRESS_STATE w !! toLowerCase address0) as [s0|] eqn:E0;
      destruct (lock (length (calls w)) (mutex _)) as [m granted] eqn:El;
      injection Hstep as <- <-; cbn [ADDRESS_STATE calls].
    + destruct (decide (toLowerCase address0 = key)) as [Hk|Hk].
      * subst key. rewrite lookup_insert_eq. rewrite Hst in E0. injection E0 as <-.
        eexists. split; [reflexivity|]. split; [reflexivity|]. split.
        -- apply idleCalls_snoc; [|exact Hidle]. cbn. destruct granted; discriminate.
        -- left. split; [reflexivity | exact Hc].
      * rewrite lookup_insert_ne by exact Hk.
        exists st. split; [exact Hst|]. split; [reflexivity|]. split.
        -- apply idleCalls_snoc; [|exact Hidle]. cbn. destruct granted; discriminate.
        -- left. split; [reflexivity | exact Hc].
    + assert (toLowerCase address0 <> key) as Hk by congruence.
      rewrite !lookup_insert_ne by exact Hk.
      exists st. split; [exact Hst|]. split; [reflexivity|]. split.
      * apply idleCalls_snoc; [|exact Hidle]. cbn. destruct granted; discriminate.
      * left. split; [reflexivity | exact Hc].
  - (* Resume *)
    destruct (calls w !! id) as [c0|] eqn:Ec; [|discriminate].
    destruct (at_ c0) eqn:Eat; try discriminate.
    destruct (ADDRESS_STATE w !! toLowerCase (address c0)) as [s0|] eqn:E0;
      [|discriminate].
    assert (forall now0,
              os = [Fetch id (address c0)] ->
              w' = {| ADDRESS_STATE := ADDRESS_STATE w;
                      calls := alter (moveTo (AwaitCount now0)) id (calls w) |} ->
              exists st',
                ADDRESS_STATE w' !! key = Some st'
                /\ lastSyncMs st' = lastSyncMs st
                /\ idle key w'
                /\ ((settledFor key os = [] /\ currentNonce st' = Some c)
                    \/ (settledFor key os = [Nonce c]
                        /\ currentNonce st' = Some (c + 1)%Z))) as Hfetch.
    { intros now0 -> ->. rewrite fetchesFor_one in Hquiet.
      destruct (String.eqb_spec (toLowerCase (address c0)) key) as [|Hk];
        [discriminate|].
      exists st. split; [exact Hst|]. split; [reflexivity|]. split.
      - eapply idleCalls_alter_other; eassumption.
      - left. split; [reflexivity | exact Hc]. }
    destruct (op c0) as [force|] eqn:Eop.
    + destruct (needsSync force s0 now) eqn:Esync.
      * injection Hstep as <- <-. eapply Hfetch; reflexivity.
      * destruct (reserve s0) as [[next s1]|] eqn:Eres; [|discriminate].
        injection Hstep as Hrel.
        destruct (decide (toLowerCase (address c0) = key)) as [Hk|Hk].
        -- rewrite Hk in *. rewrite Hst in E0. injection E0 as <-.
           unfold reserve in Eres. rewrite Hc in Eres. injection Eres as <- <-.
           match type of Hrel with
           | release _ _ ?s1 _ _ = _ =>
               pose proof (release_idle id key key s1 (Nonce c) w Hidle) as Hidle'
           end.
           rewrite Hrel in Hidle'. cbn [fst] in Hidle'.
           apply release_spec in Hrel as (-> & Hmap & _).
           eexists. split; [rewrite Hmap; apply lookup_insert_eq|].
           split; [reflexivity|]. split; [exact Hidle'|].
           right. rewrite settledFor_one, String.eqb_refl. split; reflexivity.
        -- destruct (release_other id key _ s1 st (Nonce next) w Hk Hst Hidle)
             as (H1 & H2 & H3).
           rewrite Hrel in H1, H2, H3. cbn [fst snd] in *.
           exists st. split; [exact H1|]. split; [reflexivity|].
           split; [exact H2|]. left. split; [exact H3 | exact Hc].
    + injection Hstep as <- <-. eapply Hfetch; reflexivity.
  - (* CountSettles *)
    destruct (calls w !! id) as [c0|] eqn:Ec; [|discriminate].
    destruct (at_ c0) as [| |now0|] eqn:Eat; try discriminate.
    destruct (ADDRESS_STATE w !! toLowerCase (address c0)) as [s0|] eqn:E0;
      [|discriminate].
    assert (toLowerCase (address c0) <> key) as Hk.
    { intros Hk. exact (Hidle id c0 now0 Ec Hk Eat). }
    assert (forall s1 r1,
              release id (toLowerCase (address c0)) s1 r1 w = (w', os) ->
              exists st',
                ADDRESS_STATE w' !! key = Some st'
                /\ lastSyncMs st' = lastSyncMs st
                /\ idle key w'
                /\ ((settledFor key os = [] /\ currentNonce st' = Some c)
                    \/ (settledFor key os = [Nonce c]
                        /\ currentNonce st' = Some (c + 1)%Z))) as Hrel.
    { intros s1 r1 E.
      destruct (release_other id key _ s1 st r1 w Hk Hst Hidle) as (H1 & H2 & H3).
      rewrite E in H1, H2, H3. cbn [fst snd] in *.
      exists st. split; [exact H1|]. split; [reflexivity|].
      split; [exact H2|]. left. split; [exact H3 | exact Hc]. }
    destruct (op c0); destruct r as [error|chainPending];
      try (destruct (reserve _) as [[next s1]|]; [|discriminate]);
      injection Hstep as Hstep; eapply Hrel; exact Hstep.
Qed.

Lemma quiet_run (key : string) (schedule : list event) :
  forall (w w' : world) (os : list obs) (st : NonceState) (c : Z),
    run schedule w = Some (w', os) ->
    ADDRESS_STATE w !! key = Some st -> currentNonce st = Some c ->
    idle key w ->
    fetchesFor key os = [] ->
    exists (st' : NonceState) (N : nat),
      ADDRESS_STATE w' !! key = Some st'
      /\ lastSyncMs st' = lastSyncMs st
      /\ idle key w'
      /\ settledFor key os = map Nonce (seqZ c (Z.of_nat N))
      /\ currentNonce st' = Some (c + Z.of_nat N)%Z.
Proof.
  induction schedule as [|ev rest IH]; intros w w' os st c Hrun Hst Hc Hidle Hquiet;
    cbn [run] in Hrun.
  - injection Hrun as <- <-. exists st, 0%nat.
    rewrite Z.add_0_r. repeat split; assumption.
  - destruct (step ev w) as [[w1 o1]|] eqn:Estep; [|discriminate].
    destruct (run rest w1) as [[w2 o2]|] eqn:Erest; [|discriminate].
    injection Hrun as <- <-.
    unfold fetchesFor in Hquiet. rewrite omap_app in Hquiet.
    apply app_eq_nil in Hquiet as [Hq1 Hq2].
    destruct (quiet_step key ev w w1 o1 st c Estep Hst Hc Hidle Hq1)
      as (st1 & Hst1 & Hsync1 & Hidle1 & Hcase).
    unfold settledFor. rewrite omap_app. fold (settledFor key o1) (settledFor key o2).
    destruct Hcase as [[Hs1 Hc1]|[Hs1 Hc1]].
    + destruct (IH w1 w2 o2 st1 c Erest Hst1 Hc1 Hidle1 Hq2)
        as (st2 & N & Hst2 & Hsync2 & Hidle2 & Hs2 & Hc2).
      exists st2, N. rewrite Hs1. repeat split; try assumption. congruence.
    + destruct (IH w1 w2 o2 st1 (c + 1)%Z Erest Hst1 Hc1 Hidle1 Hq2)
        as (st2 & N & Hst2 & Hsync2 & Hidle2 & Hs2 & Hc2).
      exists st2, (S N). rewrite Hs1, Hs2.
      split; [exact Hst2|]. split; [congruence|]. split; [exact Hidle2|]. split.
      * rewrite (seqZ_cons c (Z.of_nat (S N))) by lia. cbn [map app].
        replace (Z.pred (Z.of_nat (S N))) with (Z.of_nat N) by lia. reflexivity.
      * rewrite Hc2. f_equal. lia.
Qed.

(** A call that holds the lock within the staleness window takes the
    stored nonce and stores its successor in the step that releases the
    lock. *)
Lemma resume_within_window (w : world) (id : nat) (c0 : call) (state : NonceState)
    (c now : Z) :
  calls w !! id = Some c0 -> at_ c0 = LockGranted -> op c0 = GetNextNonce false ->
  ADDRESS_STATE w !! toLowerCase (address c0) = Some state ->
  currentNonce state = Some c ->
  (now - lastSyncMs state <= 10000)%Z ->
  step (Resume id now) w
  = Some (release id (toLowerCase (address c0))
                  {| currentNonce := Some (c + 1)%Z;
                     lastSyncMs := lastSyncMs state; mutex := mutex state |}
                  (Nonce c) w).
Proof.
  intros Hc0 Hat Hop Hst Hc Hnow. cbn [step]; open_calls. rewrite Hc0, Hat, Hst, Hop.
  unfold needsSync, reserve. rewrite Hc. cbn [orb].
  rewrite (proj2 (Z.ltb_ge _ _)) by lia. reflexivity.
Qed.

(** *** Runs of unforced calls within the staleness window *)

Lemma calm_idle (key : string) (w : world) : calm key w -> idle key w.
Proof. intros H id c now Hc Hk. apply (H id c Hc Hk). Qed.

(** The stored nonce is lowered only by the step in which a count fetched
    by a call on that state arrives. *)
Lemma lowering_step (key : string) (ev : event) (w w' : world) (os : list obs)
    (c c' : Z) :
  step ev w = Some (w', os) ->
  nonceOf key w = Some c -> nonceOf key w' = Some c' -> (c' < c)%Z ->
  exists id chainPending now c0 now0,
    ev = CountSettles id (inr chainPending) now
    /\ calls w !! id = Some c0
    /\ toLowerCase (address c0) = key
    /\ at_ c0 = AwaitCount now0
    /\ c' = match op c0 with
            | GetNextNonce _ => (chainPending + 1)%Z
            | Resync => chainPending
            end.
Proof.
  intros Hstep Hc Hc' Hlt. unfold nonceOf in *.
  destruct (ADDRESS_STATE w !! key) as [st|] eqn:Hst; [|discriminate].
  assert (forall id k s1 r1,
            release id k s1 r1 w = (w', os) ->
            (k = key -> currentNonce s1 = Some (c + 1)%Z \/ currentNonce s1 = Some c) ->
            False) as Hrel.
  { intros id k s1 r1 E Hk. apply release_spec in E as (_ & Hmap & _).
    rewrite Hmap in Hc'. destruct (decide (k = key)) as [->|Hne].
    - rewrite lookup_insert_eq in Hc'. cbn in Hc'.
      destruct (Hk eq_refl) as [H|H]; rewrite H in Hc'; injection Hc' as <-; lia.
    - rewrite lookup_insert_ne, Hst in Hc' by exact Hne.
      assert (c' = c) by congruence. lia. }
  assert (forall id k s1 r1 n,
            release id k s1 r1 w = (w', os) -> currentNonce s1 = Some n ->
            k = key /\ c' = n) as Hnew.
  { intros id k s1 r1 n E Hn. pose proof E as E'.
    apply release_spec in E as (_ & Hmap & _).
    rewrite Hmap in Hc'. destruct (decide (k = key)) as [->|Hne].
    - rewrite lookup_insert_eq in Hc'. cbn in Hc'. split; [reflexivity | congruence].
    - rewrite lookup_insert_ne, Hst in Hc' by exact Hne.
      assert (c' = c) by congruence. lia. }
  destruct ev as [address0 op0|id now|id r now']; cbn [step] in Hstep; open_calls.
  - exfalso. unfold getOrCreateState in Hstep.
    destruct (ADDRESS_STATE w !! toLowerCase address0) as [s0|] eqn:E0;
      destruct (lock (length (calls w)) (mutex _)) as [m granted];
      injection Hstep as <- <-; cbn [ADDRESS_STATE] in Hc'.
    + destruct (decide (toLowerCase address0 = key)) as [Hk|Hk].
      * rewrite Hk in *. rewrite lookup_insert_eq in Hc'. cbn in Hc'.
        rewrite Hst in E0. injection E0 as <-. assert (c' = c) by congruence. lia.
      * rewrite lookup_insert_ne, Hst in Hc' by exact Hk. assert (c' = c) by congruence. lia.
    + assert (toLowerCase address0 <> key) as Hk by congruence.
      rewrite !lookup_insert_ne, Hst in Hc' by exact Hk. assert (c' = c) by congruence. lia.
  - exfalso.
    destruct (calls w !! id) as [c0|] eqn:Ec; [|discriminate].
    destruct (at_ c0) eqn:Eat; try discriminate.
    destruct (ADDRESS_STATE w !! toLowerCase (address c0)) as [s0|] eqn:E0;
      [|discriminate].
    assert (w' = {| ADDRESS_STATE := ADDRESS_STATE w;
                    calls := alter (moveTo (AwaitCount now)) id (calls w) |} -> False)
      as Hsame.
    { intros ->. cbn [ADDRESS_STATE] in Hc'. rewrite Hst in Hc'.
      assert (c' = c) by congruence. lia. }
    destruct (op c0) as [force|].
    + destruct (needsSync force s0 now).
      * injection Hstep as <- _. apply Hsame. reflexivity.
      * destruct (reserve s0) as [[next s1]|] eqn:Eres; [|discriminate].
        injection Hstep as Hstep. eapply Hrel; [exact Hstep|].
        intros Hk. rewrite Hk, Hst in E0. injection E0 as <-.
        unfold reserve in Eres. rewrite Hc in Eres. injection Eres as _ <-.
        left. reflexivity.
    + injection Hstep as <- _. apply Hsame. reflexivity.
  - destruct (calls w !! id) as [c0|] eqn:Ec; [|discriminate].
    destruct (at_ c0) as [| |now0|] eqn:Eat; try discriminate.
    destruct (ADDRESS_STATE w !! toLowerCase (address c0)) as [s0|] eqn:E0;
      [|discriminate].
    destruct r as [error|chainPending].
    + exfalso.
      destruct (op c0);
        (injection Hstep as Hstep; eapply Hrel; [exact Hstep|];
         intros Hk; rewrite Hk, Hst in E0; injection E0 as <-; right; exact Hc).
    + exists id, chainPending, now', c0, now0.
      split; [reflexivity|]. split; [exact Ec|].
      destruct (op c0); cbn [reserve resynced currentNonce] in Hstep;
        injection Hstep as Hstep;
        (destruct (Hnew _ _ _ _ _ Hstep eq_refl) as [Hk ->];
         split; [exact Hk|]; split; [exact Eat | reflexivity]).
Qed.

(** *** The mutex invariant *)

Lemma LockInv_ext (m : AsyncMutex) (v v' : nat -> option pc) :
  (forall i, v' i = v i) -> LockInv m v -> LockInv m v'.
Proof.
  intros E [H1 H2 H3 H4 H5]. split; try assumption.
  - intros i. rewrite E. apply H2.
  - intros i j p q. rewrite !E. apply H3.
  - rewrite H4. split; intros (i & p & H & Hp); exists i, p; [rewrite E | rewrite <- E]; auto.
Qed.

Lemma LockInv_invoke (m : AsyncMutex) (v v' : nat -> option pc) (n : nat) :
  LockInv m v -> v n = None ->
  (forall i, v' i = if decide (i = n)
                    then Some (if locked m then AwaitLock else LockGranted)
                    else v i) ->
  LockInv (fst (lock n m)) v'.
Proof.
  intros [H1 H2 H3 H4 H5] Hn E. unfold lock.
  assert (n ∉ queue m) as Hfresh by (rewrite H2, Hn; discriminate).
  destruct (locked m) eqn:Hl; cbn [fst queue locked].
  - split; cbn [queue locked].
    + apply NoDup_app. split; [exact H1|]. split; [|apply NoDup_singleton].
      intros x Hx Hx'. apply list_elem_of_singleton in Hx'. subst x. contradiction.
    + intros i. rewrite elem_of_app, list_elem_of_singleton, E, H2.
      destruct (decide (i = n)) as [->|Hne]; [|intuition congruence].
      split; [reflexivity | intros _; right; reflexivity].
    + intros i j p q. rewrite !E.
      destruct (decide (i = n)); [intros [= <-] _ Hp; discriminate|].
      destruct (decide (j = n)); [intros _ [= <-] _ Hq; discriminate|]. apply H3.
    + split; [intros _ | reflexivity].
      destruct (proj1 H4 eq_refl) as (i & p & Hi & Hp). exists i, p. rewrite E.
      destruct (decide (i = n)) as [->|]; [congruence | auto].
    + discriminate.
  - assert (forall i p, v i = Some p -> holds p = true -> False) as Hnone.
    { intros i p Hi Hp. assert (false = true) by (apply H4; eauto). discriminate. }
    rewrite (H5 eq_refl) in *. split; cbn [queue locked].
    + constructor.
    + intros i. rewrite E.
      destruct (decide (i = n)); [split; [intros H; inversion H | discriminate]|].
      apply H2.
    + intros i j p q. rewrite !E.
      destruct (decide (i = n)) as [->|]; destruct (decide (j = n)) as [->|];
        try reflexivity.
      * intros _ Hj _ Hq. exfalso. eapply Hnone; eassumption.
      * intros Hi _ Hp _. exfalso. eapply Hnone; eassumption.
      * apply H3.
    + split; [intros _ | reflexivity]. exists n, LockGranted. rewrite E.
      rewrite decide_True by reflexivity. split; reflexivity.
    + discriminate.
Qed.

Lemma LockInv_move (m : AsyncMutex) (v v' : nat -> option pc) (id : nat) (p p' : pc) :
  LockInv m v -> v id = Some p -> holds p = true -> holds p' = true ->
  (forall i, v' i = if decide (i = id) then Some p' else v i) ->
  LockInv m v'.
Proof.
  intros [H1 H2 H3 H4 H5] Hid Hp Hp' E. split; try assumption.
  - intros i. rewrite E, H2. destruct (decide (i = id)) as [->|]; [|reflexivity].
    rewrite Hid. split; intros [= ->]; discriminate.
  - intros i j q q'. rewrite !E.
    destruct (decide (i = id)) as [->|]; destruct (decide (j = id)) as [->|];
      try reflexivity.
    + intros _ Hj _ Hq. symmetry. eapply H3; eassumption.
    + intros Hi _ Hq _. eapply H3; eassumption.
    + apply H3.
  - rewrite H4. split.
    + intros _. exists id, p'. rewrite E, decide_True by reflexivity. auto.
    + intros _. exists id, p. auto.
Qed.

Lemma LockInv_release (m : AsyncMutex) (v v' : nat -> option pc) (id : nat)
    (p : pc) (r : result) :
  LockInv m v -> v id = Some p -> holds p = true ->
  (forall i,
      v' i = match snd (unlock m) with
             | Some next =>
                 if decide (i = next)
                 then (fun _ => LockGranted)
                        <$> (if decide (next = id) then Some (Settled r) else v next)
                 else if decide (i = id) then Some (Settled r) else v i
             | None => if decide (i = id) then Some (Settled r) else v i
             end) ->
  LockInv (fst (unlock m)) v'.
Proof.
  intros [H1 H2 H3 H4 H5] Hid Hp E. unfold unlock in *.
  assert (forall i q, v i = Some q -> holds q = true -> i = id) as Honly.
  { intros i q Hi Hq. eapply H3; eassumption. }
  assert (id ∉ queue m) as Hnotq.
  { rewrite H2, Hid. intros [= ->]. discriminate. }
  destruct (queue m) as [|next rest] eqn:Hq; cbn [fst snd queue locked] in *.
  - split; cbn [queue locked].
    + constructor.
    + intros i. rewrite E. destruct (decide (i = id)) as [->|].
      * split; [intros H; inversion H | discriminate].
      * apply H2.
    + intros i j q q'. rewrite !E.
      destruct (decide (i = id)) as [?|Hnid]; [intros [= <-] _ Hq1; discriminate|].
      intros Hi _ Hq1 _. exfalso. apply Hnid. eapply Honly; eassumption.
    + split; [discriminate|]. intros (i & q & Hi & Hq1). rewrite E in Hi.
      destruct (decide (i = id)) as [?|Hnid]; [injection Hi as <-; discriminate|].
      exfalso. apply Hnid. eapply Honly; eassumption.
    + reflexivity.
  - assert (v next = Some AwaitLock) as Hnext by (apply H2; left).
    assert (next <> id) as Hne by (intros ->; apply Hnotq; left).
    apply NoDup_cons in H1 as [Hfresh Hrest].
    assert (forall i, v' i = if decide (i = next) then Some LockGranted
                             else if decide (i = id) then Some (Settled r) else v i)
      as E'.
    { intros i. rewrite E. destruct (decide (i = next)); [|reflexivity].
      rewrite decide_False by exact Hne. rewrite Hnext. reflexivity. }
    split; cbn [queue locked].
    + exact Hrest.
    + intros i. rewrite E'. destruct (decide (i = next)) as [->|Hn1].
      * split; [contradiction | discriminate].
      * destruct (decide (i = id)) as [->|Hn2].
        -- split; [|discriminate]. intros Hin. exfalso. apply Hnotq. right. exact Hin.
        -- rewrite <- H2. rewrite elem_of_cons. intuition congruence.
    + intros i j q q'. rewrite !E'.
      destruct (decide (i = next)) as [->|]; destruct (decide (j = next)) as [->|];
        try reflexivity.
      * destruct (decide (j = id)) as [?|Hnid]; [intros _ [= <-] _ Hq2; discriminate|].
        intros _ Hj _ Hq2. exfalso. apply Hnid. eapply Honly; eassumption.
      * destruct (decide (i = id)) as [?|Hnid]; [intros [= <-] _ Hq1; discriminate|].
        intros Hi _ Hq1 _. exfalso. apply Hnid. eapply Honly; eassumption.
      * destruct (decide (i = id)) as [?|Hnid]; [intros [= <-] _ Hq1; discriminate|].
        intros Hi _ Hq1 _. exfalso. apply Hnid. eapply Honly; eassumption.
    + assert (locked m = true) as -> by (apply H4; eauto).
      split; [intros _ | reflexivity]. exists next, LockGranted.
      rewrite E', decide_True by reflexivity. auto.
    + intros Hl. assert (locked m = true) as Hl' by (apply H4; eauto). congruence.
Qed.

Lemma view_Some (key : string) (cs : list call) (i : nat) (p : pc) :
  view key cs i = Some p
  <-> exists c, cs !! i = Some c /\ keyOf c = key /\ at_ c = p.
Proof.
  unfold view. destruct (cs !! i) as [c|].
  - destruct (decide (keyOf c = key)) as [Hk|Hk].
    + split; [intros [= <-]; eauto | intros (c' & [= <-] & _ & <-); reflexivity].
    + split; [discriminate | intros (c' & [= <-] & Hk' & _); contradiction].
  - split; [discriminate | intros (c' & H & _); discriminate].
Qed.

Lemma view_alter (key : string) (p : pc) (id : nat) (cs : list call) (i : nat) :
  view key (alter (moveTo p) id cs) i
  = if decide (i = id) then (fun _ => p) <$> view key cs id else view key cs i.
Proof.
  unfold view. destruct (decide (i = id)) as [->|Hne].
  - rewrite list_lookup_alter_eq. destruct (cs !! id) as [c|]; [|reflexivity].
    cbn. unfold keyOf. cbn. destruct (decide (toLowerCase (address c) = key)); reflexivity.
  - rewrite list_lookup_alter_ne by congruence. reflexivity.
Qed.

Lemma view_snoc (key : string) (cs : list call) (c : call) (i : nat) :
  view key (cs ++ [c]) i
  = if decide (i = length cs)
    then (if decide (keyOf c = key) then Some (at_ c) else None)
    else view key cs i.
Proof.
  unfold view. destruct (decide (i = length cs)) as [->|Hne].
  - rewrite lookup_app_r, Nat.sub_diag by lia. reflexivity.
  - destruct (decide (i < length cs)%nat) as [Hlt|Hge].
    + rewrite lookup_app_l by exact Hlt. reflexivity.
    + rewrite !(proj2 (lookup_ge_None _ _)); [reflexivity | lia |].
      rewrite length_app. cbn. lia.
Qed.

Lemma view_fresh (key : string) (cs : list call) : view key cs (length cs) = None.
Proof. unfold view. rewrite (proj2 (lookup_ge_None _ _)); [reflexivity | lia]. Qed.

Lemma wellFormed_empty : wellFormed emptyWorld.
Proof.
  split.
  - intros i c H. cbn in H. rewrite lookup_nil in H. discriminate.
  - intros key st H. cbn in H. rewrite lookup_empty in H. discriminate.
Qed.

(** [release] by the holder keeps the world well formed. *)
Lemma wellFormed_release (w : world) (id : nat) (c0 : call) (st s1 : NonceState)
    (r : result) :
  wellFormed w ->
  calls w !! id = Some c0 -> holds (at_ c0) = true ->
  ADDRESS_STATE w !! keyOf c0 = Some st -> mutex s1 = mutex st ->
  wellFormed (fst (release id (keyOf c0) s1 r w)).
Proof.
  intros [Hstates Hinv] Hc0 Hholds Hst Hmutex.
  destruct (release id (keyOf c0) s1 r w) as [w' os] eqn:E.
  apply release_spec in E as (_ & Hmap & Hcalls). cbn [fst].
  pose proof (Hinv _ _ Hst) as Hkey0.
  assert (view (keyOf c0) (calls w) id = Some (at_ c0)) as Hview.
  { apply view_Some. eauto. }
  assert (forall next, snd (unlock (mutex st)) = Some next ->
                       exists cn, calls w !! next = Some cn /\ keyOf cn = keyOf c0
                                  /\ next <> id) as Hwoken.
  { intros next Hn. unfold unlock in Hn.
    destruct (queue (mutex st)) as [|n0 rest] eqn:Hq; [discriminate|].
    injection Hn as ->.
    assert (view (keyOf c0) (calls w) next = Some AwaitLock) as Hv.
    { apply (inv_queue _ _ Hkey0). rewrite Hq. left. }
    apply view_Some in Hv as (cn & Hcn & Hk & Hat).
    exists cn. split; [exact Hcn|]. split; [exact Hk|].
    intros ->. rewrite Hc0 in Hcn. injection Hcn as <-. rewrite Hat in Hholds.
    discriminate. }
  assert (forall key i,
            view key (calls w') i
            = match snd (unlock (mutex st)) with
              | Some next =>
                  if decide (i = next)
                  then (fun _ => LockGranted)
                         <$> (if decide (next = id)
                              then (fun _ => Settled r) <$> view key (calls w) id
                              else view key (calls w) next)
                  else if decide (i = id)
                       then (fun _ => Settled r) <$> view key (calls w) id
                       else view key (calls w) i
              | None => if decide (i = id)
                        then (fun _ => Settled r) <$> view key (calls w) id
                        else view key (calls w) i
              end) as Hviews.
  { intros key i. rewrite Hcalls, Hmutex.
    destruct (snd (unlock (mutex st))) as [next|]; rewrite !view_alter; reflexivity. }
  split.
  - intros i c Hi.
    assert (exists c1, calls w !! i = Some c1 /\ keyOf c1 = keyOf c) as (c1 & Hc1 & Hk).
    { rewrite Hcalls in Hi.
      assert (forall p j (cs : list call) c', alter (moveTo p) j cs !! i = Some c' ->
                             exists c1, cs !! i = Some c1 /\ keyOf c1 = keyOf c') as Halt.
      { intros p j cs c' H. destruct (decide (j = i)) as [->|Hne].
        - rewrite list_lookup_alter_eq in H.
          destruct (cs !! i) as [c1|]; [|discriminate]. injection H as <-. eauto.
        - rewrite list_lookup_alter_ne in H by exact Hne. eauto. }
      destruct (snd (unlock (mutex s1))).
      - apply Halt in Hi as (c1 & Hi & Hk1). apply Halt in Hi as (c2 & Hi & Hk2).
        exists c2. split; [exact Hi | congruence].
      - apply Halt in Hi. exact Hi. }
    rewrite Hmap, <- Hk. destruct (decide (keyOf c0 = keyOf c1)) as [<-|Hne].
    + rewrite lookup_insert_eq. eauto.
    + rewrite lookup_insert_ne by exact Hne. eapply Hstates; eassumption.
  - intros key st' Hst'. rewrite Hmap in Hst'.
    destruct (decide (keyOf c0 = key)) as [<-|Hne].
    + rewrite lookup_insert_eq in Hst'. injection Hst' as <-. cbn [mutex].
      rewrite Hmutex.
      eapply (LockInv_release _ _ _ id (at_ c0) r Hkey0 Hview Hholds).
      intros i. rewrite Hviews, Hview. reflexivity.
    + rewrite lookup_insert_ne in Hst' by exact Hne.
      assert (view key (calls w) id = None) as Hnone.
      { unfold view. rewrite Hc0. rewrite decide_False by exact Hne. reflexivity. }
      apply (LockInv_ext _ (view key (calls w))); [|apply Hinv; exact Hst'].
      intros i. rewrite Hviews, Hnone.
      destruct (snd (unlock (mutex st))) as [next|] eqn:Hn.
      * destruct (Hwoken next eq_refl) as (cn & Hcn & Hk & Hneq).
        assert (view key (calls w) next = None) as Hnone'.
        { unfold view. rewrite Hcn. rewrite decide_False by congruence. reflexivity. }
        destruct (decide (i = next)) as [->|].
        -- rewrite decide_False by exact Hneq. rewrite Hnone'. reflexivity.
        -- destruct (decide (i = id)) as [->|]; [rewrite Hnone|]; reflexivity.
      * destruct (decide (i = id)) as [->|]; [rewrite Hnone|]; reflexivity.
Qed.

Lemma LockInv_none (v : nat -> option pc) :
  (forall i, v i = None) -> LockInv {| queue := []; locked := false |} v.
Proof.
  intros Hv. split; cbn.
  - constructor.
  - intros i. rewrite Hv. split; [intros H; inversion H | discriminate].
  - intros i j p q Hi. rewrite Hv in Hi. discriminate.
  - split; [discriminate|]. intros (i & p & Hi & _). rewrite Hv in Hi. discriminate.
  - reflexivity.
Qed.

(** The holder going from one holding point to another. *)
Lemma wellFormed_move (w : world) (id : nat) (c0 : call) (p' : pc) :
  wellFormed w ->
  calls w !! id = Some c0 -> holds (at_ c0) = true -> holds p' = true ->
  wellFormed {| ADDRESS_STATE := ADDRESS_STATE w;
                calls := alter (moveTo p') id (calls w) |}.
Proof.
  intros [Hstates Hinv] Hc0 Hholds Hp'. split; cbn [ADDRESS_STATE calls].
  - intros i c Hi. destruct (decide (id = i)) as [->|Hne].
    + rewrite list_lookup_alter_eq, Hc0 in Hi. injection Hi as <-.
      apply (Hstates i c0 Hc0).
    + rewrite list_lookup_alter_ne in Hi by exact Hne. apply (Hstates i c Hi).
  - intros key st Hst. pose proof (Hinv key st Hst) as Hk.
    destruct (decide (keyOf c0 = key)) as [<-|Hne].
    + assert (view (keyOf c0) (calls w) id = Some (at_ c0)) as Hview
        by (apply view_Some; eauto).
      apply (LockInv_move _ _ _ id (at_ c0) p' Hk Hview Hholds Hp').
      intros i. rewrite view_alter, Hview. reflexivity.
    + apply (LockInv_ext _ (view key (calls w))); [|exact Hk].
      intros i. rewrite view_alter.
      destruct (decide (i = id)) as [->|]; [|reflexivity].
      unfold view. rewrite Hc0, decide_False by exact Hne. reflexivity.
Qed.

Lemma wellFormed_step (ev : event) (w w' : world) (os : list obs) :
  wellFormed w -> step ev w = Some (w', os) -> wellFormed w'.
Proof.
  intros Hwf Hstep.
  destruct ev as [address0 op0|id now|id r now']; cbn [step] in Hstep; open_calls.
  - (* Invoke *)
    destruct Hwf as [Hstates Hinv].
    set (key0 := toLowerCase address0) in *.
    assert (exists s0,
              getOrCreateState address0 (ADDRESS_STATE w)
              = (s0, <[key0 := s0]> (ADDRESS_STATE w))
              /\ LockInv (mutex s0) (view key0 (calls w))) as (s0 & Eget & Hs0).
    { unfold getOrCreateState. fold key0.
      destruct (ADDRESS_STATE w !! key0) as [s0|] eqn:E0.
      - exists s0. split; [|apply Hinv; exact E0].
        rewrite insert_id by exact E0. reflexivity.
      - exists freshState. split; [reflexivity|]. apply LockInv_none.
        intros i. unfold view. destruct (calls w !! i) as [c|] eqn:Ec; [|reflexivity].
        destruct (decide (keyOf c = key0)) as [Hk|]; [|reflexivity].
        destruct (Hstates i c Ec) as [s Hs]. rewrite Hk in Hs. congruence. }
    rewrite Eget in Hstep.
    destruct (lock (length (calls w)) (mutex s0)) as [m granted] eqn:El.
    injection Hstep as <- _. rewrite insert_insert_eq.
    assert (granted = negb (locked (mutex s0))) as ->.
    { unfold lock in El. destruct (locked (mutex s0)); injection El as _ <-; reflexivity. }
    assert (m = fst (lock (length (calls w)) (mutex s0))) as -> by (rewrite El; reflexivity).
    split; cbn [ADDRESS_STATE calls].
    + intros i c Hi. apply lookup_snoc_Some in Hi as [[_ Hi]|[_ <-]].
      * destruct (decide (key0 = keyOf c)) as [<-|Hne];
          [rewrite lookup_insert_eq; eauto|].
        rewrite lookup_insert_ne by exact Hne. apply (Hstates i c Hi).
      * unfold keyOf. cbn [address]. fold key0. rewrite lookup_insert_eq. eauto.
    + intros key st Hst. destruct (decide (key0 = key)) as [<-|Hne].
      * rewrite lookup_insert_eq in Hst. injection Hst as <-. cbn [mutex].
        apply (LockInv_invoke _ (view key0 (calls w)) _ (length (calls w)) Hs0
                 (view_fresh _ _)).
        intros i. rewrite view_snoc. unfold keyOf. cbn [address at_]. fold key0.
        rewrite (decide_True (P := key0 = key0)) by reflexivity.
        destruct (locked (mutex s0)); reflexivity.
      * rewrite lookup_insert_ne in Hst by exact Hne.
        apply (LockInv_ext _ (view key (calls w))); [|apply Hinv; exact Hst].
        intros i. rewrite view_snoc. unfold keyOf at 1. cbn [address]. fold key0.
        rewrite (decide_False (P := key0 = key)) by exact Hne.
        destruct (decide (i = length (calls w))) as [->|]; [|reflexivity].
        symmetry. apply view_fresh.
  - (* Resume *)
    destruct (calls w !! id) as [c0|] eqn:Ec; [|discriminate].
    destruct (at_ c0) eqn:Eat; try discriminate.
    destruct (ADDRESS_STATE w !! toLowerCase (address c0)) as [s0|] eqn:E0;
      [|discriminate].
    assert (holds (at_ c0) = true) as Hholds by (rewrite Eat; reflexivity).
    destruct (op c0) as [force|].
    + destruct (needsSync force s0 now).
      * injection Hstep as <- _. eapply wellFormed_move; eauto.
      * destruct (reserve s0) as [[next s1]|] eqn:Eres; [|discriminate].
        injection Hstep as Hstep.
        assert (mutex s1 = mutex s0) as Hm.
        { unfold reserve in Eres. destruct (currentNonce s0); [|discriminate].
          injection Eres as _ <-. reflexivity. }
        pose proof (wellFormed_release w id c0 s0 s1 (Nonce next) Hwf Ec Hholds E0 Hm)
          as H.
        unfold keyOf in H. rewrite Hstep in H. exact H.
    + injection Hstep as <- _. eapply wellFormed_move; eauto.
  - (* CountSettles *)
    destruct (calls w !! id) as [c0|] eqn:Ec; [|discriminate].
    destruct (at_ c0) as [| |now0|] eqn:Eat; try discriminate.
    destruct (ADDRESS_STATE w !! toLowerCase (address c0)) as [s0|] eqn:E0;
      [|discriminate].
    assert (holds (at_ c0) = true) as Hholds by (rewrite Eat; reflexivity).
    assert (forall s1 r1,
              mutex s1 = mutex s0 ->
              release id (toLowerCase (address c0)) s1 r1 w = (w', os) ->
              wellFormed w') as Hrel.
    { intros s1 r1 Hm E.
      pose proof (wellFormed_release w id c0 s0 s1 r1 Hwf Ec Hholds E0 Hm) as H.
      unfold keyOf in H. rewrite E in H. exact H. }
    destruct (op c0); destruct r as [error|chainPending];
      cbn [reserve resynced currentNonce] in Hstep; injection Hstep as Hstep;
      (eapply Hrel; [|exact Hstep]); reflexivity.
Qed.

Lemma wellFormed_run (schedule : list event) :
  forall (w w' : world) (os : list obs),
    wellFormed w -> run schedule w = Some (w', os) -> wellFormed w'.
Proof.
  induction schedule as [|ev rest IH]; intros w w' os Hwf Hrun; cbn [run] in Hrun.
  - injection Hrun as <- _. exact Hwf.
  - destruct (step ev w) as [[w1 o1]|] eqn:Estep; [|discriminate].
    destruct (run rest w1) as [[w2 o2]|] eqn:Erest; [|discriminate].
    injection Hrun as <- _.
    eapply IH; [|exact Erest]. eapply wellFormed_step; eassumption.
Qed.

(** Every world the manager can reach is well formed. *)
Lemma reachable_wellFormed (schedule : list event) (w : world) (os : list obs) :
  run schedule emptyWorld = Some (w, os) -> wellFormed w.
Proof. apply wellFormed_run, wellFormed_empty. Qed.

(** Mutual exclusion: at most one call per address is between the grant of
    the lock and its release. *)
Lemma mutual_exclusion (w : world) (i j : nat) (ci cj : call) :
  wellFormed w ->
  calls w !! i = Some ci -> calls w !! j = Some cj ->
  keyOf ci = keyOf cj ->
  holds (at_ ci) = true -> holds (at_ cj) = true ->
  i = j.
Proof.
  intros [Hstates Hinv] Hi Hj Hk Hpi Hpj.
  destruct (Hstates i ci Hi) as [st Hst].
  apply (inv_single _ _ (Hinv _ _ Hst) i j (at_ ci) (at_ cj)); try assumption;
    apply view_Some; eauto.
Qed.

(** The call that holds the lock does not wait in the queue. *)
Lemma holder_not_queued (w : world) (id : nat) (c : call) (st : NonceState) :
  wellFormed w ->
  calls w !! id = Some c -> holds (at_ c) = true ->
  ADDRESS_STATE w !! keyOf c = Some st ->
  ~ In id (queue (mutex st)).
Proof.
  intros [_ Hinv] Hc Hp Hst Hin. apply list_elem_of_In in Hin.
  apply (inv_queue _ _ (Hinv _ _ Hst)) in Hin.
  apply view_Some in Hin as (c' & Hc' & _ & Hat).
  rewrite Hc in Hc'. injection Hc' as <-. rewrite Hat in Hp. discriminate.
Qed.

(** No lost wake-up: while a call waits for the lock of an address, some
    call holds it, and the holder's next event is enabled. *)
Lemma waiter_has_live_holder (w : world) (i : nat) (c : call) :
  wellFormed w ->
  calls w !! i = Some c -> at_ c = AwaitLock ->
  exists j cj,
    calls w !! j = Some cj /\ keyOf cj = keyOf c /\ holds (at_ cj) = true
    /\ (at_ cj = LockGranted -> forall now, is_Some (step (Resume j now) w))
    /\ (forall now0, at_ cj = AwaitCount now0 ->
                     forall r now, is_Some (step (CountSettles j r now) w)).
Proof.
  intros [Hstates Hinv] Hc Hat.
  destruct (Hstates i c Hc) as [st Hst]. pose proof (Hinv _ _ Hst) as Hk.
  assert (i ∈ queue (mutex st)) as Hin by (apply (inv_queue _ _ Hk), view_Some; eauto).
  assert (locked (mutex st) = true) as Hl.
  { destruct (locked (mutex st)) eqn:E; [reflexivity|].
    rewrite (inv_free _ _ Hk E) in Hin. inversion Hin. }
  apply (inv_locked _ _ Hk) in Hl as (j & p & Hj & Hp).
  apply view_Some in Hj as (cj & Hcj & Hkj & <-).
  exists j, cj. split; [exact Hcj|]. split; [exact Hkj|]. split; [exact Hp|].
  unfold keyOf in Hkj. split.
  - intros Hg now. cbn [step]; open_calls. rewrite Hcj, Hg, Hkj. fold (keyOf c). rewrite Hst.
    destruct (op cj) as [force|]; [|eauto].
    destruct (needsSync force st now) eqn:Esync; [eauto|].
    unfold needsSync in Esync. unfold reserve.
    destruct (currentNonce st); [eauto|]. rewrite orb_true_r in Esync. discriminate.
  - intros now0 Hf r now. cbn [step]; open_calls. rewrite Hcj, Hf, Hkj. fold (keyOf c). rewrite Hst.
    destruct (op cj); destruct r as [error|chainPending]; cbn; eauto.
Qed.

(** *** Counting the calls that settled *)

Lemma filter_alter_length {A : Type} (P : A -> bool) (f : A -> A) (l : list A) :
  forall i x,
    l !! i = Some x ->
    (length (List.filter P (alter f i l)) + (if P x then 1 else 0)
     = length (List.filter P l) + (if P (f x) then 1 else 0))%nat.
Proof.
  induction l as [|y l IH]; intros [|i] x Hx; try discriminate.
  - injection Hx as ->. cbn. destruct (P x), (P (f x)); cbn; lia.
  - cbn in Hx. specialize (IH i x Hx). cbn. fold (alter f i l).
    destruct (P y); cbn; lia.
Qed.

Lemma settledCount_release (key : string) (w : world) (id : nat) (c0 : call)
    (st s1 : NonceState) (r : result) :
  wellFormed w ->
  calls w !! id = Some c0 -> holds (at_ c0) = true ->
  ADDRESS_STATE w !! keyOf c0 = Some st -> mutex s1 = mutex st ->
  settledCount key (fst (release id (keyOf c0) s1 r w))
  = (settledCount key w
     + length (settledFor key (snd (release id (keyOf c0) s1 r w))))%nat.
Proof.
  intros Hwf Hc0 Hholds Hst Hm.
  destruct (release id (keyOf c0) s1 r w) as [w' os] eqn:E.
  apply release_spec in E as (-> & _ & Hcalls). cbn [fst snd].
  unfold settledCount. rewrite Hcalls, Hm, settledFor_one.
  assert (settledOn key c0 = false) as Hbefore.
  { unfold settledOn. destruct (at_ c0); try discriminate; apply andb_false_r. }
  assert (settledOn key (moveTo (Settled r) c0) = String.eqb (keyOf c0) key) as Hafter.
  { unfold settledOn, keyOf. cbn. apply andb_true_r. }
  pose proof (filter_alter_length (settledOn key) (moveTo (Settled r)) (calls w) id c0 Hc0)
    as Hfirst.
  rewrite Hbefore, Hafter in Hfirst.
  assert (length (List.filter (settledOn key) (alter (moveTo (Settled r)) id (calls w)))
          = length (List.filter (settledOn key) (calls w))
            + length (if String.eqb (keyOf c0) key then [r] else []))%nat as Hone.
  { destruct (String.eqb (keyOf c0) key); cbn [length]; lia. }
  unfold unlock. destruct (queue (mutex st)) as [|next rest] eqn:Hq; cbn [snd];
    [exact Hone|].
  destruct Hwf as [_ Hinv].
  assert (view (keyOf c0) (calls w) next = Some AwaitLock) as Hv.
  { apply (inv_queue _ _ (Hinv _ _ Hst)). rewrite Hq. left. }
  apply view_Some in Hv as (cn & Hcn & _ & Hat).
  assert (next <> id) as Hne.
  { intros ->. rewrite Hc0 in Hcn. injection Hcn as <-. rewrite Hat in Hholds.
    discriminate. }
  assert (alter (moveTo (Settled r)) id (calls w) !! next = Some cn) as Hcn'.
  { rewrite list_lookup_alter_ne by congruence. exact Hcn. }
  pose proof (filter_alter_length (settledOn key) (moveTo LockGranted) _ next cn Hcn')
    as Hsecond.
  assert (settledOn key cn = false) as H1.
  { unfold settledOn. rewrite Hat. apply andb_false_r. }
  assert (settledOn key (moveTo LockGranted cn) = false) as H2.
  { unfold settledOn. cbn. apply andb_false_r. }
  rewrite H1, H2 in Hsecond. lia.
Qed.

(** In a well-formed world, the calls on an address that have settled grow
    by one with each [Settle] observed on it. *)
Lemma settledCount_step (key : string) (ev : event) (w w' : world) (os : list obs) :
  wellFormed w -> step ev w = Some (w', os) ->
  settledCount key w' = (settledCount key w + length (settledFor key os))%nat.
Proof.
  intros Hwf Hstep.
  destruct ev as [address0 op0|id now|id r now']; cbn [step] in Hstep; open_calls.
  - destruct (getOrCreateState address0 (ADDRESS_STATE w)) as [s0 states].
    destruct (lock (length (calls w)) (mutex s0)) as [m granted].
    injection Hstep as <- <-. unfold settledCount. cbn [calls settledFor omap].
    rewrite List.filter_app, length_app. cbn [List.filter].
    unfold settledOn at 2. cbn [at_]. destruct granted; rewrite andb_false_r; cbn; lia.
  - destruct (calls w !! id) as [c0|] eqn:Ec; [|discriminate].
    destruct (at_ c0) eqn:Eat; try discriminate.
    destruct (ADDRESS_STATE w !! toLowerCase (address c0)) as [s0|] eqn:E0;
      [|discriminate].
    assert (holds (at_ c0) = true) as Hholds by (rewrite Eat; reflexivity).
    assert (settledCount key
              {| ADDRESS_STATE := ADDRESS_STATE w;
                 calls := alter (moveTo (AwaitCount now)) id (calls w) |}
            = (settledCount key w + 0)%nat) as Hmove.
    { unfold settledCount. cbn [calls].
      pose proof (filter_alter_length (settledOn key) (moveTo (AwaitCount now))
                    (calls w) id c0 Ec) as H.
      unfold settledOn at 2 4 in H. cbn [at_ moveTo] in H. rewrite Eat in H.
      rewrite !andb_false_r in H. lia. }
    destruct (op c0) as [force|].
    + destruct (needsSync force s0 now).
      * injection Hstep as <- <-. exact Hmove.
      * destruct (reserve s0) as [[next s1]|] eqn:Eres; [|discriminate].
        injection Hstep as Hstep.
        assert (mutex s1 = mutex s0) as Hm.
        { unfold reserve in Eres. destruct (currentNonce s0); [|discriminate].
          injection Eres as _ <-. reflexivity. }
        pose proof (settledCount_release key w id c0 s0 s1 (Nonce next) Hwf Ec Hholds
                      E0 Hm) as H.
        unfold keyOf in H. rewrite Hstep in H. exact H.
    + injection Hstep as <- <-. exact Hmove.
  - destruct (calls w !! id) as [c0|] eqn:Ec; [|discriminate].
    destruct (at_ c0) as [| |now0|] eqn:Eat; try discriminate.
    destruct (ADDRESS_STATE w !! toLowerCase (address c0)) as [s0|] eqn:E0;
      [|discriminate].
    assert (holds (at_ c0) = true) as Hholds by (rewrite Eat; reflexivity).
    assert (forall s1 r1,
              mutex s1 = mutex s0 ->
              release id (toLowerCase (address c0)) s1 r1 w = (w', os) ->
              settledCount key w'
              = (settledCount key w + length (settledFor key os))%nat) as Hrel.
    { intros s1 r1 Hm E.
      pose proof (settledCount_release key w id c0 s0 s1 r1 Hwf Ec Hholds E0 Hm) as H.
      unfold keyOf in H. rewrite E in H. exact H. }
    destruct (op c0); destruct r as [error|chainPending];
      cbn [reserve resynced currentNonce] in Hstep; injection Hstep as Hstep;
      (eapply Hrel; [|exact Hstep]); reflexivity.
Qed.

Lemma settledCount_run (key : string) (schedule : list event) :
  forall (w w' : world) (os : list obs),
    wellFormed w -> run schedule w = Some (w', os) ->
    settledCount key w' = (settledCount key w + length (settledFor key os))%nat.
Proof.
  induction schedule as [|ev rest IH]; intros w w' os Hwf Hrun; cbn [run] in Hrun.
  - injection Hrun as <- <-. cbn. lia.
  - destruct (step ev w) as [[w1 o1]|] eqn:Estep; [|discriminate].
    destruct (run rest w1) as [[w2 o2]|] eqn:Erest; [|discriminate].
    injection Hrun as <- <-.
    rewrite (IH w1 w2 o2 (wellFormed_step _ _ _ _ Hwf Estep) Erest).
    rewrite (settledCount_step key ev w w1 o1 Hwf Estep).
    unfold settledFor. rewrite omap_app, length_app. lia.
Qed.

(** *** Sample worlds *)

Example syncedWorld_reached :
  run [Invoke "0xA" (GetNextNonce false); Resume 0 20000; CountSettles 0 (inr 5%Z) 20000]
      emptyWorld
  = Some (syncedWorld, [Fetch 0 "0xA"; Settle 0 "0xa" (Nonce 5)]).
Proof. vm_compute. reflexivity. Qed.

Example heldWorld_reached :
  run [Invoke "0xA" (GetNextNonce false)] emptyWorld = Some (heldWorld, []).
Proof. vm_compute. reflexivity. Qed.

Example fetchingWorld_reached :
  run [Invoke "0xA" (GetNextNonce false); Resume 0 20000] emptyWorld
  = Some (fetchingWorld, [Fetch 0 "0xA"]).
Proof. vm_compute. reflexivity. Qed.

Lemma syncedWorld_calm : calm "0xa" syncedWorld.
Proof.
  intros [|id] c Hc _; cbn in Hc; [|discriminate].
  injection Hc as <-. split; [reflexivity | discriminate].
Qed.

(** *** The claims *)

(** C1. Take any run of the manager during which no count is requested for
    the state of an address (no resync is triggered), starting where that
    state holds the nonce [c] and none of its calls has a request in
    flight.  The calls on the address that settle during the run return, in
    the order in which they settle, [c, c+1, ..., c+N-1]: [N] distinct
    integers in a contiguous ascending run; the state then holds [c + N],
    and in a well-formed world (every reachable world is one) [N] more
    calls on the address have settled than before the run.
    A call that runs next within the staleness window returns the stored
    nonce and leaves its successor stored in the very step that unlocks the
    mutex. *)
Theorem getNextNonce_contiguous_run (key : string) (schedule : list event)
    (w w' : world) (os : list obs) (state : NonceState) (c : Z) :
  run schedule w = Some (w', os) ->
  ADDRESS_STATE w !! key = Some state -> currentNonce state = Some c ->
  idle key w ->
  fetchesFor key os = [] ->
  exists N : nat,
    settledFor key os = map Nonce (seqZ c (Z.of_nat N))
    /\ NoDup (seqZ c (Z.of_nat N))
    /\ (forall i : nat, (i < N)%nat -> seqZ c (Z.of_nat N) !! i = Some (c + Z.of_nat i)%Z)
    /\ nonceOf key w' = Some (c + Z.of_nat N)%Z
    /\ (wellFormed w -> settledCount key w' = (settledCount key w + N)%nat)
    /\ forall (id : nat) (c0 : call) (state' : NonceState) (now : Z),
         calls w' !! id = Some c0 -> at_ c0 = LockGranted ->
         op c0 = GetNextNonce false -> toLowerCase (address c0) = key ->
         ADDRESS_STATE w' !! key = Some state' ->
         (now - lastSyncMs state' <= 10000)%Z ->
         exists w'',
           step (Resume id now) w' = Some (w'', [Settle id key (Nonce (c + Z.of_nat N))])
           /\ ADDRESS_STATE w'' !! key
              = Some {| currentNonce := Some (c + Z.of_nat N + 1)%Z;
                        lastSyncMs := lastSyncMs state';
                        mutex := fst (unlock (mutex state')) |}.
Proof.
  intros Hrun Hst Hc Hidle Hquiet.
  destruct (quiet_run key schedule w w' os state c Hrun Hst Hc Hidle Hquiet)
    as (st' & N & Hst' & Hsync & Hidle' & Hsettled & Hc').
  exists N. split; [exact Hsettled|]. split; [apply NoDup_seqZ|].
  split; [intros i Hi; apply lookup_seqZ_lt; lia|].
  split; [unfold nonceOf; rewrite Hst'; exact Hc'|].
  split.
  { intros Hwf. rewrite (settledCount_run key schedule w w' os Hwf Hrun).
    rewrite Hsettled, length_map, length_seqZ, Nat2Z.id. reflexivity. }
  intros id c0 state' now Hc0 Hat Hop Hkey Hstate' Hnow.
  rewrite Hst' in Hstate'. injection Hstate' as <-. subst key.
  rewrite (resume_within_window w' id c0 st' (c + Z.of_nat N) now) by assumption.
  destruct (release id _ _ _ w') as [w'' os''] eqn:E.
  apply release_spec in E as (-> & Hmap & _).
  exists w''. split; [reflexivity|]. rewrite Hmap. apply lookup_insert_eq.
Qed.

Lemma getNextNonce_contiguous_run_witness :
  exists w' os (N : nat),
    run burst syncedWorld = Some (w', os)
    /\ settledFor "0xa" os = map Nonce (seqZ 6 (Z.of_nat N))
    /\ nonceOf "0xa" w' = Some (6 + Z.of_nat N)%Z.
Proof.
  destruct (run burst syncedWorld) as [[w' os]|] eqn:E;
    [|vm_compute in E; discriminate].
  assert (fetchesFor "0xa" os = []) as Hquiet.
  { vm_compute in E. injection E as _ <-. reflexivity. }
  destruct (getNextNonce_contiguous_run "0xa" burst syncedWorld w' os
              {| currentNonce := Some 6%Z; lastSyncMs := 20000; mutex := unlockedMutex |}
              6 E eq_refl eq_refl (calm_idle _ _ syncedWorld_calm) Hquiet)
    as (N & Hs & _ & _ & Hn & _).
  exists w', os, N. repeat split; assumption.
Defined.

(** C3. When a call of [getNextNonce] runs with the lock at clock reading
    [now], it requests the pending-inclusive count if and only if
    [forceResync] is true, or [currentNonce] is unset, or
    [now - lastSyncMs > 10000].  When it does, the count that arrives is
    returned, its successor is stored and [lastSyncMs] becomes [now]; when
    it does not, the stored nonce is returned and [lastSyncMs] stays. *)
Theorem getNextNonce_resync_iff (w : world) (id : nat) (c0 : call)
    (forceResync : bool) (state : NonceState) (now : Z) :
  calls w !! id = Some c0 -> at_ c0 = LockGranted ->
  op c0 = GetNextNonce forceResync ->
  ADDRESS_STATE w !! toLowerCase (address c0) = Some state ->
  exists w' os,
    step (Resume id now) w = Some (w', os)
    /\ (In (Fetch id (address c0)) os
        <-> forceResync = true \/ currentNonce state = None
            \/ (10000 < now - lastSyncMs state)%Z)
    /\ (In (Fetch id (address c0)) os ->
        os = [Fetch id (address c0)]
        /\ ADDRESS_STATE w' = ADDRESS_STATE w
        /\ forall chainPending now',
             exists w'',
               step (CountSettles id (inr chainPending) now') w'
               = Some (w'', [Settle id (toLowerCase (address c0)) (Nonce chainPending)])
               /\ ADDRESS_STATE w'' !! toLowerCase (address c0)
                  = Some {| currentNonce := Some (chainPending + 1)%Z;
                            lastSyncMs := now;
                            mutex := fst (unlock (mutex state)) |})
    /\ (~ In (Fetch id (address c0)) os ->
        exists n,
          currentNonce state = Some n
          /\ os = [Settle id (toLowerCase (address c0)) (Nonce n)]
          /\ ADDRESS_STATE w' !! toLowerCase (address c0)
             = Some {| currentNonce := Some (n + 1)%Z;
                       lastSyncMs := lastSyncMs state;
                       mutex := fst (unlock (mutex state)) |}).
Proof.
  intros Hc0 Hat Hop Hst. cbn [step]; open_calls. rewrite Hc0, Hat, Hst, Hop.
  assert (needsSync forceResync state now = true
          <-> forceResync = true \/ currentNonce state = None
              \/ (10000 < now - lastSyncMs state)%Z) as Hiff.
  { unfold needsSync. rewrite !orb_true_iff, Z.ltb_lt.
    destruct (currentNonce state); intuition congruence. }
  destruct (needsSync forceResync state now) eqn:Esync.
  - eexists _, _. split; [reflexivity|]. split.
    { split; [intros _; apply Hiff; reflexivity | intros _; left; reflexivity]. }
    split; [|intros Hn; exfalso; apply Hn; left; reflexivity].
    intros _. split; [reflexivity|]. split; [reflexivity|].
    intros chainPending now'. cbn [step calls ADDRESS_STATE]; open_calls.
    rewrite list_lookup_alter_eq, Hc0. cbn [fmap option_fmap option_map moveTo at_ address op].
    rewrite Hst, Hop. cbn [reserve resynced currentNonce lastSyncMs mutex].
    destruct (release id _ _ _ _) as [w'' os''] eqn:E.
    apply release_spec in E as (-> & Hmap & _).
    exists w''. split; [reflexivity|]. rewrite Hmap. cbn. apply lookup_insert_eq.
  - assert (exists n, currentNonce state = Some n) as [n Hn].
    { unfold needsSync in Esync. destruct (currentNonce state) as [n|]; [eauto|].
      rewrite orb_true_r in Esync. discriminate. }
    unfold reserve. rewrite Hn. rewrite Hn in Hiff.
    destruct (release id _ _ _ w) as [w' os] eqn:E.
    apply release_spec in E as (-> & Hmap & _).
    exists w', [Settle id (toLowerCase (address c0)) (Nonce n)].
    split; [reflexivity|]. split.
    { split; [intros [H|[]]; discriminate|].
      intros H. apply Hiff in H. discriminate. }
    split; [intros [H|[]]; discriminate|].
    intros _. exists n. split; [reflexivity|]. split; [reflexivity|].
    rewrite Hmap. apply lookup_insert_eq.
Qed.

Lemma getNextNonce_resync_iff_witness :
  exists w' os,
    step (Resume 0 20000) heldWorld = Some (w', os)
    /\ In (Fetch 0 "0xA") os.
Proof.
  destruct (getNextNonce_resync_iff heldWorld 0
              {| address := "0xA"; op := GetNextNonce false; at_ := LockGranted |}
              false
              {| currentNonce := None; lastSyncMs := 0;
                 mutex := {| queue := []; locked := true |} |}
              20000 eq_refl eq_refl eq_refl eq_refl)
    as (w' & os & Hstep & Hiff & _).
  exists w', os. split; [exact Hstep|].
  apply Hiff. right. left. reflexivity.
Defined.

(** C5. In a well-formed world (every reachable world is one), when the
    count requested by [getNextNonce] or [resync] fails with [error], the
    call rejects with that same [error] and nothing else is
    observed (no second request); [currentNonce] and [lastSyncMs] of the
    address keep their values, the other addresses are untouched, and the
    mutex is unlocked: free when nobody waits, else handed to the first
    waiter.  The call itself is finished: no further event of it is
    enabled. *)
Theorem resync_failure_propagates (w : world) (id : nat) (c0 : call)
    (state : NonceState) (now0 now' : Z) (error : thrown) :
  wellFormed w ->
  calls w !! id = Some c0 -> at_ c0 = AwaitCount now0 ->
  ADDRESS_STATE w !! toLowerCase (address c0) = Some state ->
  exists w',
    step (CountSettles id (inl error) now') w
    = Some (w', [Settle id (toLowerCase (address c0)) (Rejected error)])
    /\ ADDRESS_STATE w' !! toLowerCase (address c0)
       = Some {| currentNonce := currentNonce state;
                 lastSyncMs := lastSyncMs state;
                 mutex := fst (unlock (mutex state)) |}
    /\ (forall key, key <> toLowerCase (address c0) ->
                    ADDRESS_STATE w' !! key = ADDRESS_STATE w !! key)
    /\ (queue (mutex state) = [] -> locked (fst (unlock (mutex state))) = false)
    /\ (forall next rest,
          queue (mutex state) = next :: rest ->
          queue (fst (unlock (mutex state))) = rest
          /\ (at_ <$> calls w' !! next) = ((fun _ => LockGranted) <$> calls w !! next))
    /\ calls w' !! id = Some (moveTo (Settled (Rejected error)) c0)
    /\ (forall ev, (exists now, ev = Resume id now)
                   \/ (exists r now, ev = CountSettles id r now) ->
                   step ev w' = None).
Proof.
  intros Hwf Hc0 Hat Hst.
  assert (~ In id (queue (mutex state))) as Hnot.
  { apply (holder_not_queued w id c0 state Hwf Hc0); [rewrite Hat; reflexivity|].
    exact Hst. }
  assert (step (CountSettles id (inl error) now') w
          = Some (release id (toLowerCase (address c0)) state (Rejected error) w))
    as Estep.
  { cbn [step]; open_calls. rewrite Hc0, Hat, Hst. destruct (op c0); reflexivity. }
  rewrite Estep.
  destruct (release id _ state (Rejected error) w) as [w' os] eqn:E.
  apply release_spec in E as (-> & Hmap & Hcalls).
  exists w'. split; [reflexivity|].
  split; [rewrite Hmap; apply lookup_insert_eq|].
  split; [intros key Hk; rewrite Hmap; apply lookup_insert_ne; congruence|].
  split; [intros Hq; unfold unlock; rewrite Hq; reflexivity|].
  split.
  - intros next rest Hq. unfold unlock in *. rewrite Hq in *. cbn [fst snd] in *.
    split; [reflexivity|]. rewrite Hcalls, list_lookup_alter_eq.
    destruct (alter (moveTo (Settled (Rejected error))) id (calls w) !! next) eqn:E1;
      destruct (calls w !! next) eqn:E2; cbn; try reflexivity.
    + apply lookup_lt_Some in E1. rewrite length_alter in E1.
      apply lookup_ge_None in E2. lia.
    + apply lookup_lt_Some in E2. apply lookup_ge_None in E1.
      rewrite length_alter in E1. lia.
  - assert (calls w' !! id = Some (moveTo (Settled (Rejected error)) c0)) as Hid.
    { rewrite Hcalls. unfold unlock.
      destruct (queue (mutex state)) as [|next rest] eqn:Hq; cbn [snd].
      - rewrite list_lookup_alter_eq, Hc0. reflexivity.
      - rewrite list_lookup_alter_ne by (intros ->; apply Hnot; left; reflexivity).
        rewrite list_lookup_alter_eq, Hc0. reflexivity. }
    split; [exact Hid|].
    intros ev [[now ->]|(r & now & ->)]; cbn [step]; rewrite Hid; reflexivity.
Qed.

Lemma resync_failure_propagates_witness :
  exists w',
    step (CountSettles 0 (inl (ErrorInst "request timed out")) 21500) fetchingWorld
    = Some (w', [Settle 0 "0xa" (Rejected (ErrorInst "request timed out"))])
    /\ ADDRESS_STATE w' !! "0xa"
       = Some {| currentNonce := None; lastSyncMs := 0; mutex := unlockedMutex |}.
Proof.
  destruct (resync_failure_propagates fetchingWorld 0
              {| address := "0xA"; op := GetNextNonce false; at_ := AwaitCount 20000 |}
              {| currentNonce := None; lastSyncMs := 0;
                 mutex := {| queue := []; locked := true |} |}
              20000 21500 (ErrorInst "request timed out")
              (reachable_wellFormed _ _ _ fetchingWorld_reached)
              eq_refl eq_refl eq_refl)
    as (w' & Hstep & Hstate & _).
  exists w'. split; [exact Hstep | exact Hstate].
Defined.

(** C6, counterexample.  Two calls without [forceResync], the second more
    than 10 s after the first: the first fetches 5 and leaves 6 stored; the
    second fetches again, the network answers 3, and 4 is stored. *)
Lemma staleness_resync_lowers_nonce :
  exists w2 os2,
    run [Invoke "0xA" (GetNextNonce false); Resume 1 40000;
         CountSettles 1 (inr 3%Z) 40000] syncedWorld
    = Some (w2, os2)
    /\ Forall unforced [Invoke "0xA" (GetNextNonce false); Resume 1 40000;
                        CountSettles 1 (inr 3%Z) 40000]
    /\ nonceOf "0xa" syncedWorld = Some 6%Z
    /\ nonceOf "0xa" w2 = Some 4%Z
    /\ settledFor "0xa" os2 = [Nonce 3].
Proof.
  eexists _, _. split; [vm_compute; reflexivity|].
  split; [repeat constructor|].
  split; [reflexivity|]. split; vm_compute; reflexivity.
Qed.

(** *** Runs of unforced calls within the staleness window *)

Example resyncedWorld_reached :
  run [Invoke "0xA" Resync; Resume 0 19990; CountSettles 0 (inr 5%Z) 20000] emptyWorld
  = Some (resyncedWorld, [Fetch 0 "0xA"; Settle 0 "0xa" Void]).
Proof. vm_compute. reflexivity. Qed.

Lemma tame_idle (key : string) (w : world) : tame key w -> idle key w.
Proof.
  intros H id c now Hc Hk Hat.
  destruct (H id c Hc Hk) as [[r Hr]|[_ Hno]]; [congruence | exact (Hno now Hat)].
Qed.

Lemma tameCalls_alter (key : string) (p : pc) (i : nat) (cs : list call) :
  (forall c, cs !! i = Some c -> toLowerCase (address c) = key ->
             (exists r, p = Settled r)
             \/ (op c = GetNextNonce false /\ forall now, p <> AwaitCount now)) ->
  tameCalls key cs -> tameCalls key (alter (moveTo p) i cs).
Proof.
  intros Hp H id c Hc Hk.
  destruct (decide (i = id)) as [->|Hne].
  - rewrite list_lookup_alter_eq in Hc.
    destruct (cs !! id) as [c1|] eqn:E; [|discriminate]. injection Hc as <-.
    cbn [moveTo at_ op address] in *. apply (Hp c1 eq_refl Hk).
  - rewrite list_lookup_alter_ne in Hc by exact Hne. apply (H id c Hc Hk).
Qed.

(** The [finally] block keeps the calls tame: the call it wakes was
    waiting in the queue, so it has not settled. *)
Lemma tame_release (key key' : string) (id : nat) (s s0 : NonceState) (r : result)
    (w : world) :
  wellFormed w ->
  ADDRESS_STATE w !! key' = Some s0 -> mutex s = mutex s0 ->
  tame key w -> tame key (fst (release id key' s r w)).
Proof.
  intros [_ Hinv] Hs0 Hmutex H.
  destruct (release id key' s r w) as [w' os] eqn:E.
  apply release_spec in E as (_ & _ & Hcalls). unfold tame. cbn [fst]. rewrite Hcalls.
  assert (tameCalls key (alter (moveTo (Settled r)) id (calls w))) as Hsettled.
  { apply tameCalls_alter; [|exact H]. intros c _ _. left. eexists. reflexivity. }
  destruct (snd (unlock (mutex s))) as [next|] eqn:Hwoken; [|exact Hsettled].
  apply tameCalls_alter; [|exact Hsettled].
  intros c Hc Hk. right. split; [|discriminate].
  assert (exists cn, calls w !! next = Some cn /\ at_ cn = AwaitLock
                     /\ op c = op cn /\ address c = address cn)
    as (cn & Hcn & Hat & Hop & Haddr).
  { rewrite Hmutex in Hwoken. unfold unlock in Hwoken.
    destruct (queue (mutex s0)) as [|n0 rest] eqn:Hq; [discriminate|].
    injection Hwoken as ->.
    assert (view key' (calls w) next = Some AwaitLock) as Hv.
    { apply (inv_queue _ _ (Hinv _ _ Hs0)). rewrite Hq. left. }
    apply view_Some in Hv as (cn & Hcn & _ & Hat).
    exists cn. split; [exact Hcn|]. split; [exact Hat|].
    destruct (decide (id = next)) as [->|Hne].
    - rewrite list_lookup_alter_eq, Hcn in Hc. injection Hc as <-. split; reflexivity.
    - rewrite list_lookup_alter_ne, Hcn in Hc by exact Hne. injection Hc as <-.
      split; reflexivity. }
  rewrite Haddr in Hk.
  destruct (H next cn Hcn Hk) as [[r0 Hr0]|[Hunforced _]]; [congruence|].
  rewrite Hop. exact Hunforced.
Qed.

Lemma tame_step (key : string) (ev : event) (w w' : world) (os : list obs)
    (st : NonceState) (c : Z) :
  wellFormed w ->
  step ev w = Some (w', os) ->
  ADDRESS_STATE w !! key = Some st -> currentNonce st = Some c ->
  tame key w -> unforcedOn key ev = true -> inWindow key (lastSyncMs st) w ev = true ->
  fetchesFor key os = [] /\ tame key w'.
Proof.
  intros Hwf Hstep Hst Hc Htame Hev Hwin.
  destruct ev as [address0 op0|id now|id r now']; cbn [step] in Hstep; open_calls.
  - destruct (getOrCreateState address0 (ADDRESS_STATE w)) as [s0 states].
    destruct (lock (length (calls w)) (mutex s0)) as [m granted].
    injection Hstep as <- <-. split; [reflexivity|].
    intros id c1 Hc1 Hk. cbn [calls] in Hc1.
    apply lookup_snoc_Some in Hc1 as [[_ Hc1]|[_ <-]]; [apply (Htame id c1 Hc1 Hk)|].
    cbn [address op at_] in *. right.
    split; [|destruct granted; discriminate].
    destruct op0 as [[|]|]; cbn in Hev; [| reflexivity |];
      apply negb_true_iff, String.eqb_neq in Hev; contradiction.
  - destruct (calls w !! id) as [c0|] eqn:Ec; [|discriminate].
    destruct (at_ c0) eqn:Eat; try discriminate.
    destruct (ADDRESS_STATE w !! toLowerCase (address c0)) as [s0|] eqn:E0;
      [|discriminate].
    destruct (decide (toLowerCase (address c0) = key)) as [Hk|Hk].
    + destruct (Htame id c0 Ec Hk) as [[r0 Hr0]|[Hop _]]; [congruence|].
      rewrite Hop in Hstep.
      cbn [inWindow] in Hwin. rewrite Ec, Hk, String.eqb_refl in Hwin.
      apply Z.leb_le in Hwin.
      pose proof E0 as E0'. rewrite Hk, Hst in E0. injection E0 as <-.
      unfold needsSync, reserve in Hstep. rewrite Hc in Hstep. cbn [orb] in Hstep.
      rewrite (proj2 (Z.ltb_ge _ _)) in Hstep by lia.
      injection Hstep as Hrel.
      pose proof (tame_release key (toLowerCase (address c0)) id
                    {| currentNonce := Some (c + 1)%Z; lastSyncMs := lastSyncMs st;
                       mutex := mutex st |} st (Nonce c) w Hwf E0' eq_refl Htame)
        as Htame'.
      rewrite Hrel in Htame'. apply release_spec in Hrel as (-> & _ & _).
      split; [reflexivity | exact Htame'].
    + assert (fetchesFor key [Fetch id (address c0)] = []) as Hnofetch.
      { rewrite fetchesFor_one. apply String.eqb_neq in Hk. rewrite Hk. reflexivity. }
      assert (tame key {| ADDRESS_STATE := ADDRESS_STATE w;
                          calls := alter (moveTo (AwaitCount now)) id (calls w) |})
        as Hmoved.
      { apply tameCalls_alter; [|exact Htame].
        intros c1 Hc1 Hk1. rewrite Ec in Hc1. injection Hc1 as <-. contradiction. }
      destruct (op c0) as [force|].
      * destruct (needsSync force s0 now).
        -- injection Hstep as <- <-. split; assumption.
        -- destruct (reserve s0) as [[next s1]|] eqn:Eres; [|discriminate].
           injection Hstep as Hrel.
           assert (mutex s1 = mutex s0) as Hmutex.
           { unfold reserve in Eres. destruct (currentNonce s0); [|discriminate].
             injection Eres as _ <-. reflexivity. }
           pose proof (tame_release key (toLowerCase (address c0)) id s1 s0 (Nonce next)
                         w Hwf E0 Hmutex Htame) as Htame'.
           rewrite Hrel in Htame'. apply release_spec in Hrel as (-> & _ & _).
           split; [reflexivity | exact Htame'].
      * injection Hstep as <- <-. split; assumption.
  - destruct (calls w !! id) as [c0|] eqn:Ec; [|discriminate].
    destruct (at_ c0) as [| |now0|] eqn:Eat; try discriminate.
    destruct (ADDRESS_STATE w !! toLowerCase (address c0)) as [s0|] eqn:E0;
      [|discriminate].
    assert (forall s1 r1,
              mutex s1 = mutex s0 ->
              release id (toLowerCase (address c0)) s1 r1 w = (w', os) ->
              fetchesFor key os = [] /\ tame key w') as Hrel.
    { intros s1 r1 Hmutex E.
      pose proof (tame_release key (toLowerCase (address c0)) id s1 s0 r1 w Hwf E0
                    Hmutex Htame) as H.
      rewrite E in H. apply release_spec in E as (-> & _ & _).
      split; [reflexivity | exact H]. }
    destruct (op c0); destruct r as [error|chainPending];
      cbn [reserve resynced currentNonce] in Hstep; injection Hstep as Hstep;
      (eapply Hrel; [|exact Hstep]); reflexivity.
Qed.

(** Along such a run no count is requested for the state, the calls stay
    tame, and the stored nonce only counts up: it is [c + k] at every point
    of the run, [k] growing. *)
Lemma tame_run (key : string) (schedule : list event) :
  forall (w w' : world) (os : list obs) (st : NonceState) (c : Z),
    wellFormed w ->
    run schedule w = Some (w', os) ->
    ADDRESS_STATE w !! key = Some st -> currentNonce st = Some c ->
    tame key w ->
    forallb (unforcedOn key) schedule = true ->
    withinWindowOn key (lastSyncMs st) schedule w = true ->
    fetchesFor key os = [] /\ tame key w'
    /\ exists N : nat,
         nonceOf key w' = Some (c + Z.of_nat N)%Z
         /\ forall (before after : list event) (wm : world) (om : list obs),
              schedule = before ++ after -> run before w = Some (wm, om) ->
              exists k : nat,
                (k <= N)%nat /\ nonceOf key wm = Some (c + Z.of_nat k)%Z.
Proof.
  induction schedule as [|ev rest IH];
    intros w w' os st c Hwf Hrun Hst Hc Htame Hun Hwin; cbn [run] in Hrun.
  - injection Hrun as <- <-. split; [reflexivity|]. split; [exact Htame|].
    exists 0%nat. rewrite Z.add_0_r.
    assert (nonceOf key w = Some c) as Hnonce by (unfold nonceOf; rewrite Hst; exact Hc).
    split; [exact Hnonce|].
    intros before after wm om Hsplit Hbefore. symmetry in Hsplit.
    apply app_eq_nil in Hsplit as [-> _]. cbn in Hbefore. injection Hbefore as <- _.
    exists 0%nat. rewrite Z.add_0_r. split; [lia | exact Hnonce].
  - destruct (step ev w) as [[w1 o1]|] eqn:Estep; [|discriminate].
    destruct (run rest w1) as [[w2 o2]|] eqn:Erest; [|discriminate].
    injection Hrun as <- <-.
    cbn [forallb] in Hun. apply andb_true_iff in Hun as [Hun1 Hun2].
    cbn [withinWindowOn] in Hwin. rewrite Estep in Hwin.
    apply andb_true_iff in Hwin as [Hwin1 Hwin2].
    destruct (tame_step key ev w w1 o1 st c Hwf Estep Hst Hc Htame Hun1 Hwin1)
      as [Hq1 Htame1].
    destruct (quiet_step key ev w w1 o1 st c Estep Hst Hc (tame_idle _ _ Htame) Hq1)
      as (st1 & Hst1 & Hsync1 & _ & Hcase).
    pose proof (wellFormed_step _ _ _ _ Hwf Estep) as Hwf1.
    rewrite <- Hsync1 in Hwin2.
    assert (exists d : nat, (d <= 1)%nat /\ currentNonce st1 = Some (c + Z.of_nat d)%Z)
      as (d & Hd & Hc1).
    { destruct Hcase as [[_ H]|[_ H]];
        [exists 0%nat; rewrite Z.add_0_r | exists 1%nat]; (split; [lia | exact H]). }
    destruct (IH w1 w2 o2 st1 _ Hwf1 Erest Hst1 Hc1 Htame1 Hun2 Hwin2)
      as (Hq2 & Htame2 & N & Hnonce & Hbetween).
    split.
    { unfold fetchesFor. rewrite omap_app. fold (fetchesFor key o1) (fetchesFor key o2).
      rewrite Hq1, Hq2. reflexivity. }
    split; [exact Htame2|].
    exists (d + N)%nat.
    split; [rewrite Hnonce; f_equal; lia|].
    intros before after wm om Hsplit Hbefore.
    destruct before as [|ev0 before].
    + cbn in Hbefore. injection Hbefore as <- _. exists 0%nat.
      rewrite Z.add_0_r. split; [lia|]. unfold nonceOf. rewrite Hst. exact Hc.
    + cbn [app] in Hsplit. injection Hsplit as <- ->.
      cbn [run] in Hbefore. rewrite Estep in Hbefore.
      destruct (run before w1) as [[wb ob]|] eqn:Eb; [|discriminate].
      injection Hbefore as <- _.
      destruct (Hbetween before after wb ob eq_refl Eb) as (k & Hk & Hwb).
      exists (d + k)%nat. split; [lia|]. rewrite Hwb. f_equal. lia.
Qed.

(** C6, amended.  Take a run from a well-formed world (every reachable
    world is one) in which the state of an address holds a nonce and every
    call on the address that has not settled yet is a [getNextNonce] without
    [forceResync] with no request in flight; whatever calls have settled on
    the address before, [resync] and forced ones included.  If the run
    invokes nothing but [getNextNonce] without [forceResync] on that
    address (anything on the others), and every call on the address reads
    the clock within 10 s of [lastSyncMs], then the stored nonce never
    decreases: no count is requested for the address, the calls that settle
    on it return [c, c+1, ...] in order, and the stored nonce is [c + k] at
    every point of the run, with [k] growing up to their number.  The
    condition on the calls holds again at the end, so runs compose.  In any
    run at all, the only step that lowers the stored nonce is the arrival of
    a count fetched by a call on that address, whether the fetch was forced
    or started because the state was stale: the count (plus one for
    [getNextNonce]) is what is stored. *)
Theorem nonce_monotone_within_window (key : string) (schedule : list event)
    (w w' : world) (os : list obs) (state : NonceState) (c : Z) :
  wellFormed w ->
  run schedule w = Some (w', os) ->
  ADDRESS_STATE w !! key = Some state -> currentNonce state = Some c ->
  tame key w ->
  forallb (unforcedOn key) schedule = true ->
  withinWindowOn key (lastSyncMs state) schedule w = true ->
  (exists c', nonceOf key w' = Some c' /\ (c <= c')%Z)
  /\ (exists N : nat,
         nonceOf key w' = Some (c + Z.of_nat N)%Z
         /\ settledFor key os = map Nonce (seqZ c (Z.of_nat N))
         /\ forall (before after : list event) (wm : world) (om : list obs),
              schedule = before ++ after -> run before w = Some (wm, om) ->
              exists k : nat,
                (k <= N)%nat /\ nonceOf key wm = Some (c + Z.of_nat k)%Z)
  /\ fetchesFor key os = []
  /\ tame key w'
  /\ forall ev w1 w2 o c1 c2,
       step ev w1 = Some (w2, o) ->
       nonceOf key w1 = Some c1 -> nonceOf key w2 = Some c2 -> (c2 < c1)%Z ->
       exists id chainPending now c0 now0,
         ev = CountSettles id (inr chainPending) now
         /\ calls w1 !! id = Some c0
         /\ toLowerCase (address c0) = key
         /\ at_ c0 = AwaitCount now0
         /\ c2 = match op c0 with
                 | GetNextNonce _ => (chainPending + 1)%Z
                 | Resync => chainPending
                 end.
Proof.
  intros Hwf Hrun Hst Hc Htame Hun Hwin.
  destruct (tame_run key schedule w w' os state c Hwf Hrun Hst Hc Htame Hun Hwin)
    as (Hquiet & Htame' & N & Hnonce & Hbetween).
  destruct (quiet_run key schedule w w' os state c Hrun Hst Hc
              (tame_idle _ _ Htame) Hquiet)
    as (st' & N' & Hst' & _ & _ & Hsettled & Hc').
  assert (N' = N) as ->.
  { unfold nonceOf in Hnonce. rewrite Hst', Hc' in Hnonce.
    injection Hnonce as Hnonce. lia. }
  split; [exists (c + Z.of_nat N)%Z; split; [exact Hnonce | lia]|].
  split; [exists N; split; [exact Hnonce|]; split; [exact Hsettled | exact Hbetween]|].
  split; [exact Hquiet|]. split; [exact Htame'|].
  intros ev w1 w2 o c1 c2. apply lowering_step.
Qed.

Lemma nonce_monotone_within_window_witness :
  exists w' os,
    run mixedBurst resyncedWorld = Some (w', os)
    /\ nonceOf "0xa" resyncedWorld = Some 5%Z
    /\ nonceOf "0xa" w' = Some 7%Z
    /\ settledFor "0xa" os = [Nonce 5; Nonce 6]
    /\ fetchesFor "0xb" os = [2%nat].
Proof.
  destruct (run mixedBurst resyncedWorld) as [[w' os]|] eqn:E;
    [|vm_compute in E; discriminate].
  assert (tame "0xa" resyncedWorld) as Htame.
  { intros [|id] c Hc _; cbn in Hc; [|discriminate].
    injection Hc as <-. left. eexists. reflexivity. }
  destruct (nonce_monotone_within_window "0xa" mixedBurst resyncedWorld w' os
              {| currentNonce := Some 5%Z; lastSyncMs := 20000; mutex := unlockedMutex |}
              5 (reachable_wellFormed _ _ _ resyncedWorld_reached) E eq_refl eq_refl
              Htame eq_refl eq_refl)
    as (_ & (N & Hnonce & Hsettled & _) & _).
  exists w', os. split; [reflexivity|]. split; [reflexivity|].
  assert (N = 2%nat) as ->.
  { vm_compute in E. injection E as <- <-.
    apply (f_equal (@length result)) in Hsettled.
    rewrite length_map, length_seqZ in Hsettled. cbn in Hsettled. lia. }
  split; [exact Hnonce|]. split; [exact Hsettled|].
  vm_compute in E. injection E as _ <-. reflexivity.
Defined.

(** * Further properties of the code *)

(** ** The endpoint list *)

Example split_pieces : split "a, b,,c" = ["a"; " b"; ""; "c"].
Proof. reflexivity. Qed.

Example fromEnv_blank : fromEnv (fun s => if String.eqb s " " then "" else s) (Some ", ") = [].
Proof. reflexivity. Qed.

Lemma existsb_eqb_iff (x : string) (xs : list string) :
  existsb (String.eqb x) xs = true <-> x ∈ xs.
Proof.
  rewrite existsb_exists, list_elem_of_In. split.
  - intros (y & Hin & Heq). apply String.eqb_eq in Heq. congruence.
  - intros Hin. exists x. split; [exact Hin | apply String.eqb_refl].
Qed.

Lemma arrayFromSet_spec (xs : list string) :
  forall seen : list string,
    NoDup (arrayFromSet seen xs)
    /\ (forall x, x ∈ arrayFromSet seen xs <-> x ∈ xs /\ x ∉ seen)
    /\ arrayFromSet seen xs `sublist_of` xs.
Proof.
  induction xs as [|x xs IH]; intros seen; cbn [arrayFromSet].
  - split; [constructor|]. split; [|constructor].
    intros y. split; [intros H; inversion H | intros [H _]; inversion H].
  - destruct (existsb (String.eqb x) seen) eqn:E.
    + apply existsb_eqb_iff in E. destruct (IH seen) as (Hnd & Hin & Hsub).
      split; [exact Hnd|]. split; [|apply sublist_cons, Hsub].
      intros y. rewrite Hin, elem_of_cons. split; [tauto|].
      intros [[->|Hy] Hn]; [contradiction | tauto].
    + assert (x ∉ seen) as Hx.
      { intros Hin. apply existsb_eqb_iff in Hin. congruence. }
      destruct (IH (x :: seen)) as (Hnd & Hin & Hsub).
      split; [|split; [|apply sublist_skip, Hsub]].
      * constructor; [|exact Hnd]. rewrite Hin, elem_of_cons. tauto.
      * intros y. rewrite !elem_of_cons, Hin, elem_of_cons.
        destruct (decide (y = x)) as [->|Hne]; tauto.
Qed.

Lemma filterBoolean_elem (xs : list (option string)) (url : string) :
  url ∈ filterBoolean xs <-> url <> "" /\ Some url ∈ xs.
Proof.
  unfold filterBoolean. rewrite list_elem_of_omap. split.
  - intros ([s|] & Hin & Hs); [|discriminate].
    destruct (String.eqb s "") eqn:E; [discriminate|].
    injection Hs as ->. apply String.eqb_neq in E. tauto.
  - intros [Hne Hin]. exists (Some url). split; [exact Hin|].
    rewrite (proj2 (String.eqb_neq _ _) Hne). reflexivity.
Qed.

Lemma defaults_shape (keyedEndpoints : list string) (BSC_RPC_URL : option string) :
  defaults keyedEndpoints BSC_RPC_URL
  = publicEndpoints
    ++ filterBoolean [BSC_RPC_URL] ++ filterBoolean (map Some keyedEndpoints).
Proof. unfold defaults, filterBoolean. rewrite !omap_app. reflexivity. Qed.

Lemma arrayFromSet_public (rest : list string) :
  arrayFromSet [] (publicEndpoints ++ rest)
  = publicEndpoints
    ++ arrayFromSet ["https://bsc.meowrpc.com"; "https://bsc.publicnode.com";
                     "https://bsc-rpc.publicnode.com"] rest.
Proof. reflexivity. Qed.

(** X1. The default endpoint list.  When [BSC_RPC_URLS] names no endpoint
    (it is unset, empty, or holds only commas and blanks), the endpoints
    are the defaults with the empty entries dropped and each URL kept once,
    at its first position: the list has no duplicate and no empty entry,
    its members are exactly the non-empty defaults, it starts with the
    three public endpoints in their order, and a configured [BSC_RPC_URL]
    that repeats one of them adds nothing.  When [BSC_RPC_URLS] names
    endpoints they are used as given, duplicates included. *)
Theorem default_endpoints_distinct (trim : string -> string)
    (keyedEndpoints : list string) (BSC_RPC_URLS BSC_RPC_URL : option string) :
  let endpoints := BSC_RPC_ENDPOINTS trim keyedEndpoints BSC_RPC_URLS BSC_RPC_URL in
  (fromEnv trim BSC_RPC_URLS <> [] -> endpoints = fromEnv trim BSC_RPC_URLS)
  /\ (fromEnv trim BSC_RPC_URLS = [] ->
      NoDup endpoints
      /\ (forall url, url ∈ endpoints
                      <-> url <> ""
                          /\ (url ∈ publicEndpoints \/ BSC_RPC_URL = Some url
                              \/ url ∈ keyedEndpoints))
      /\ take 3 endpoints = publicEndpoints
      /\ (forall url, BSC_RPC_URL = Some url -> url ∈ publicEndpoints ->
                      endpoints = BSC_RPC_ENDPOINTS trim keyedEndpoints BSC_RPC_URLS None)).
Proof.
  intros endpoints. subst endpoints. unfold BSC_RPC_ENDPOINTS. split.
  - destruct (fromEnv trim BSC_RPC_URLS); [contradiction | reflexivity].
  - intros ->.
    destruct (arrayFromSet_spec (defaults keyedEndpoints BSC_RPC_URL) [])
      as (Hnd & Hin & _).
    split; [exact Hnd|]. split; [|split].
    + intros url. rewrite Hin. unfold defaults. rewrite filterBoolean_elem.
      rewrite !elem_of_app, !list_elem_of_fmap, list_elem_of_singleton.
      split.
      * intros [[Hne [(y & [= <-] & Hy)|[Hc|(y & [= <-] & Hy)]]] _]; auto.
      * intros [Hne [Hp|[Hc|Hk]]]; (split; [split; [exact Hne|] | apply not_elem_of_nil]);
          [left | right; left | right; right]; eauto.
    + rewrite defaults_shape, arrayFromSet_public. reflexivity.
    + intros url -> Hurl. rewrite !defaults_shape, !arrayFromSet_public. f_equal.
      change (filterBoolean [None]) with (@nil string). cbn [app].
      assert (filterBoolean [Some url] = if String.eqb url "" then [] else [url]) as ->.
      { unfold filterBoolean. cbn. destruct (String.eqb url ""); reflexivity. }
      destruct (String.eqb url ""); [reflexivity|]. cbn [app arrayFromSet].
      assert (existsb (String.eqb url)
                ["https://bsc.meowrpc.com"; "https://bsc.publicnode.com";
                 "https://bsc-rpc.publicnode.com"] = true) as ->; [|reflexivity].
      apply existsb_eqb_iff. unfold publicEndpoints in Hurl.
      rewrite !elem_of_cons in *. tauto.
Qed.

Lemma default_endpoints_distinct_witness :
  BSC_RPC_ENDPOINTS (fun s => s) ["https://keyed.example/rpc"] None
                    (Some "https://bsc.publicnode.com")
  = BSC_RPC_ENDPOINTS (fun s => s) ["https://keyed.example/rpc"] None None.
Proof.
  destruct (default_endpoints_distinct (fun s => s) ["https://keyed.example/rpc"] None
              (Some "https://bsc.publicnode.com")) as [_ Hdefaults].
  destruct (Hdefaults eq_refl) as (_ & _ & _ & Hsame).
  apply (Hsame _ eq_refl).
  unfold publicEndpoints. rewrite !elem_of_cons. tauto.
Defined.

(** ** What a request is charged *)





Section BatchFacts.
Variable JSON_parse : string -> option json.

(** X2. A batch request (a body that parses to an array) is taken
    element by element: when no element is [null], the calls read are as
    many as the elements, in the same order, each with the [method] and
    [params] properties of its element, with no check that a method is
    there; when some element is [null], reading its property throws and
    the whole batch is read as no call at all. *)
Theorem parsePayload_batch (s : string) (js : list json) :
  s <> "" ->
  JSON_parse s = Some (JArr js) ->
  (Forall (fun j => j <> JNull) js ->
   parsePayload JSON_parse (Some (BodyString s))
   = map (fun j => {| method := default None (getProp j "method");
                      params := default None (getProp j "params") |}) js)
  /\ (In JNull js -> parsePayload JSON_parse (Some (BodyString s)) = []).
Proof.
  intros Hs Hparse. unfold parsePayload.
  rewrite (proj2 (String.eqb_neq _ _) Hs), Hparse. split.
  - intros Hall. rewrite (mapM_callOf_total js Hall). reflexivity.
  - intros Hin. rewrite (mapM_callOf_null js Hin). reflexivity.
Qed.
End BatchFacts.

Lemma parsePayload_batch_witness :
  parsePayload parseMethodlessBatch (Some (BodyString methodlessBatchText))
  = [{| method := None; params := None |}].
Proof.
  apply (parsePayload_batch parseMethodlessBatch methodlessBatchText
           [JObj [("id", JNum 1)]]).
  - discriminate.
  - reflexivity.
  - repeat constructor. discriminate.
Defined.

Lemma fold_left_weights (ws : list methodWeight) (s : Z) :
  fold_left (fun s c => s + weight c) ws s
  = s + fold_left (fun s c => s + weight c) ws 0.
Proof.
  revert s. induction ws as [|c ws IH]; intros s; cbn [fold_left]; [lia|].
  rewrite IH, (IH (0 + weight c)). lia.
Qed.

Lemma reqCuOf_cons (c : methodWeight) (ws : list methodWeight) :
  reqCuOf (c :: ws) = weight c + reqCuOf ws.
Proof. unfold reqCuOf. cbn [fold_left]. rewrite fold_left_weights. lia. Qed.

Lemma reqCuOf_range (lo hi : Z) (ws : list methodWeight) :
  Forall (fun c => lo <= weight c <= hi) ws ->
  lo * Z.of_nat (length ws) <= reqCuOf ws <= hi * Z.of_nat (length ws).
Proof.
  induction 1 as [|c ws Hc _ IH]; [cbn; lia|].
  rewrite reqCuOf_cons. cbn [length]. lia.
Qed.







(** ** The rate limiter under load *)

(** A refill adds no more than the budget of the time that passed since
    the last one. *)
Lemma refillTokens_adds (cap now : Z) (b : bucket) :
  (1 <= cap)%Z ->
  (cuTokens (refillTokens (Some cap) now b)
   <= cuTokens b
      + inject_Z (lastRefill (refillTokens (Some cap) now b) - lastRefill b) / 1000
        * inject_Z cap)%Q.
Proof.
  intros Hcap. unfold refillTokens.
  destruct (Qlt_le_dec 0 (inject_Z (now - lastRefill b) / 1000)) as [He|He];
    cbn [cuTokens lastRefill].
  - apply Q.le_min_r.
  - rewrite Z.sub_diag. change (inject_Z 0) with 0%Q.
    assert (0 / 1000 * inject_Z cap == 0)%Q as -> by (field; discriminate). lra.
Qed.

Lemma admissions_budget (cap : Z) (checks : list (Q * Z)) :
  (1 <= cap)%Z ->
  forall b : bucket,
    (0 <= cuTokens b)%Q ->
    (0 <= cuTokens (fst (admissions cap checks b)))%Q
    /\ (snd (admissions cap checks b) + cuTokens (fst (admissions cap checks b))
        <= cuTokens b
           + inject_Z (lastRefill (fst (admissions cap checks b)) - lastRefill b) / 1000
             * inject_Z cap)%Q.
Proof.
  intros Hcap. induction checks as [|[needed now] rest IH]; intros b H0;
    cbn [admissions].
  - cbn [fst snd]. rewrite Z.sub_diag. change (inject_Z 0) with 0%Q.
    split; [exact H0|]. assert (0 / 1000 * inject_Z cap == 0)%Q as -> by (field; discriminate).
    lra.
  - pose proof (refillTokens_adds cap now b Hcap) as Hadd.
    pose proof (refillTokens_nonneg cap now b Hcap H0) as Hpos.
    unfold admissionCheck.
    set (b1 := refillTokens (Some cap) now b) in *.
    assert (forall last1 last2 last3 : Z,
               (inject_Z (last3 - last1) / 1000 * inject_Z cap
                == inject_Z (last2 - last1) / 1000 * inject_Z cap
                   + inject_Z (last3 - last2) / 1000 * inject_Z cap)%Q) as Hsplit.
    { intros. rewrite !inject_Z_sub. field. repeat split; discriminate. }
    destruct (Qle_bool needed (cuTokens b1)) eqn:Hle.
    + apply Qle_bool_iff in Hle.
      destruct (IH {| cuTokens := (cuTokens b1 - needed)%Q; lastRefill := lastRefill b1 |})
        as [IH0 IH1]; [cbn [cuTokens]; lra|].
      destruct (admissions cap rest _) as [b2 granted]. cbn [fst snd cuTokens lastRefill] in *.
      split; [exact IH0|]. rewrite (Hsplit (lastRefill b) (lastRefill b1) (lastRefill b2)). lra.
    + destruct (IH b1 Hpos) as [IH0 IH1].
      destruct (admissions cap rest b1) as [b2 granted]. cbn [fst snd] in *.
      split; [exact IH0|]. rewrite (Hsplit (lastRefill b) (lastRefill b1) (lastRefill b2)). lra.
Qed.

Lemma admissions_lastRefill (cap : Z) (checks : list (Q * Z)) (t : Z) :
  Forall (fun c => (snd c <= t)%Z) checks ->
  forall b : bucket,
    (lastRefill b <= t)%Z -> (lastRefill (fst (admissions cap checks b)) <= t)%Z.
Proof.
  induction 1 as [|[needed now] rest Hnow _ IH]; intros b Hb; cbn [admissions];
    [exact Hb|].
  cbn [snd] in Hnow. unfold admissionCheck.
  assert (lastRefill (refillTokens (Some cap) now b) <= t)%Z as H1.
  { unfold refillTokens.
    destruct (Qlt_le_dec 0 (inject_Z (now - lastRefill b) / 1000));
      cbn [lastRefill]; lia. }
  destruct (Qle_bool needed (cuTokens (refillTokens (Some cap) now b))).
  - specialize (IH {| cuTokens := (cuTokens (refillTokens (Some cap) now b) - needed)%Q;
                      lastRefill := lastRefill (refillTokens (Some cap) now b) |} H1).
    destruct (admissions cap rest _) as [b2 granted]. exact IH.
  - specialize (IH _ H1). destruct (admissions cap rest _) as [b2 granted]. exact IH.
Qed.

(** X5. The rate the limiter enforces.  Take any admission checks made on
    the shared bucket by any number of concurrent requests, at any clock
    readings up to [t], whatever each asks for: the units granted in all
    are at most the tokens the bucket held at the start plus the budget of
    the time elapsed, [cap * (t - lastRefill) / 1000]; with a bucket that is
    not over-full that is at most [cap * (1 + seconds elapsed)]; and the
    token count never goes negative. *)
Theorem limiter_rate (cap : Z) (checks : list (Q * Z)) (b : bucket) (t : Z) :
  (1 <= cap)%Z ->
  (0 <= cuTokens b)%Q -> (cuTokens b <= inject_Z cap)%Q ->
  (lastRefill b <= t)%Z ->
  Forall (fun c => (snd c <= t)%Z) checks ->
  (snd (admissions cap checks b)
   <= cuTokens b + inject_Z (t - lastRefill b) / 1000 * inject_Z cap)%Q
  /\ (snd (admissions cap checks b)
      <= inject_Z cap * (1 + inject_Z (t - lastRefill b) / 1000))%Q
  /\ (0 <= cuTokens (fst (admissions cap checks b)))%Q
  /\ (forall n : nat,
        0 <= cuTokens (fst (admissions cap (firstn n checks) b)))%Q.
Proof.
  intros Hcap H0 H1 Hlast Hchecks.
  assert (forall n : nat,
             0 <= cuTokens (fst (admissions cap (firstn n checks) b)))%Q as Hprefix.
  { intros n. apply (admissions_budget cap (firstn n checks) Hcap b H0). }
  destruct (admissions_budget cap checks Hcap b H0) as [Hpos Hsum].
  pose proof (admissions_lastRefill cap checks t Hchecks b Hlast) as Hle.
  assert (0 < inject_Z cap)%Q as Hc
    by (change 0%Q with (inject_Z 0); rewrite <- Zlt_Qlt; lia).
  assert (inject_Z (lastRefill (fst (admissions cap checks b)) - lastRefill b) / 1000
          * inject_Z cap
          <= inject_Z (t - lastRefill b) / 1000 * inject_Z cap)%Q as Hmono.
  { apply Qmult_le_compat_r; [|lra].
    apply Qmult_le_compat_r; [|discriminate]. rewrite <- Zle_Qle. lia. }
  split; [lra|]. split; [|split; [exact Hpos | exact Hprefix]].
  assert (inject_Z cap * (1 + inject_Z (t - lastRefill b) / 1000)
          == inject_Z cap + inject_Z (t - lastRefill b) / 1000 * inject_Z cap)%Q as ->
    by (field; repeat split; discriminate).
  lra.
Qed.

Lemma limiter_rate_witness :
  (snd (admissions 10 [(6%Q, 1000%Z); (6%Q, 1000%Z); (6%Q, 1100%Z); (6%Q, 1200%Z)]
                   (initialBucket (Some 10%Z) 1000))
   <= 10 * (1 + inject_Z (1200 - 1000) / 1000))%Q
  /\ (0 <= cuTokens
             (fst (admissions 10 [(6%Q, 1000%Z); (6%Q, 1000%Z); (6%Q, 1100%Z);
                                  (6%Q, 1200%Z)]
                              (initialBucket (Some 10%Z) 1000))))%Q.
Proof.
  destruct (limiter_rate 10 [(6%Q, 1000%Z); (6%Q, 1000%Z); (6%Q, 1100%Z); (6%Q, 1200%Z)]
              (initialBucket (Some 10%Z) 1000) 1200) as (_ & Hrate & Hpos & _).
  - lia.
  - discriminate.
  - cbn. apply Qle_refl.
  - cbn. lia.
  - repeat constructor; cbn; lia.
  - split; [exact Hrate | exact Hpos].
Defined.

(** Once a call has returned, observing more turns of its loop changes
    nothing; the sleeps it took are each between 5 and 200 ms. *)
Lemma enforceLoop_granted (cap : Z) (needed : Q) (clock : nat -> Z) :
  forall (fuel i : nat) (b b' : bucket) (slept slept' : list Z),
    enforceLoop (Some cap) cap needed clock fuel i b slept = Granted b' slept' ->
    (forall more : nat,
        enforceLoop (Some cap) cap needed clock (fuel + more) i b slept
        = Granted b' slept')
    /\ exists new,
         slept' = slept ++ new /\ (length new < fuel)%nat
         /\ Forall (fun ms => 5 <= ms <= 200)%Z new.
Proof.
  induction fuel as [|fuel IH]; intros i b b' slept slept' Hrun; [discriminate|].
  cbn [enforceLoop Nat.add] in *.
  destruct (admissionCheck (Some cap) cap needed (clock i) b) as [b1 [ms|]] eqn:Hcheck.
  - destruct (IH _ _ _ _ _ Hrun) as [Hmore (new & -> & Hlen & Hall)].
    split; [exact Hmore|]. exists (ms :: new).
    split; [rewrite <- app_assoc; reflexivity|]. split; [cbn; lia|].
    constructor; [|exact Hall].
    unfold admissionCheck in Hcheck.
    destruct (Qle_bool needed _); [discriminate|].
    injection Hcheck as _ <-. apply sleep_bounds.
  - injection Hrun as <- <-. split; [reflexivity|].
    exists []. rewrite app_nil_r. split; [reflexivity|]. split; [cbn; lia | constructor].
Qed.

(** X6. A request within the capacity is served.  With a budget [cap], a
    request of at most [cap] units, alone on the bucket, returns from
    [enforceBudget] within 201 admission checks when every sleep lasts at
    least the 5 ms asked for; it slept at most 200 times, each time between
    5 and 200 ms, and it leaves between 0 and [cap] tokens. *)
Theorem enforceBudget_serves_within_capacity (cap : Z) (needed : Q)
    (clock : nat -> Z) (b : bucket) :
  (1 <= cap)%Z -> (0 <= needed)%Q -> (needed <= inject_Z cap)%Q ->
  (0 <= cuTokens b)%Q -> (cuTokens b <= inject_Z cap)%Q ->
  (lastRefill b <= clock 0%nat)%Z ->
  (forall i, clock i + 5 <= clock (S i))%Z ->
  exists b' slept,
    (forall more : nat,
        enforceBudget (Some cap) needed clock (201 + more) b = Granted b' slept)
    /\ (length slept <= 200)%nat
    /\ Forall (fun ms => 5 <= ms <= 200)%Z slept
    /\ (0 <= cuTokens b')%Q /\ (cuTokens b' <= inject_Z cap)%Q.
Proof.
  intros Hcap Hn0 Hn H0 H1 Hlast Hstep.
  destruct (enforceBudget_returns cap needed clock b Hcap Hn H0 Hlast Hstep)
    as (b' & slept & Hrun).
  pose proof (enforceLoop_bounds cap needed clock 201 Hcap Hn0 0 b [] H0 H1) as Hb.
  unfold enforceBudget in *. rewrite Hrun in Hb. cbn [bucketOf] in Hb.
  destruct (enforceLoop_granted cap needed clock _ _ _ _ _ _ Hrun)
    as [Hmore (new & Hnew & Hlen & Hall)].
  cbn [app] in Hnew. subst new.
  exists b', slept. split; [exact Hmore|]. split; [lia|]. split; [exact Hall | exact Hb].
Qed.

Lemma enforceBudget_serves_within_capacity_witness :
  exists b' slept,
    enforceBudget (Some 10%Z) 6 (fun i => 1000 + 200 * Z.of_nat i)%Z 201
                  {| cuTokens := 0; lastRefill := 1000 |}
    = Granted b' slept
    /\ (length slept <= 200)%nat.
Proof.
  destruct (enforceBudget_serves_within_capacity 10 6
              (fun i => 1000 + 200 * Z.of_nat i)%Z
              {| cuTokens := 0; lastRefill := 1000 |})
    as (b' & slept & Hrun & Hlen & _).
  - lia.
  - discriminate.
  - discriminate.
  - cbn. apply Qle_refl.
  - discriminate.
  - cbn. lia.
  - intros i. lia.
  - exists b', slept. split; [exact (Hrun 0%nat) | exact Hlen].
Defined.

(** ** The usage meter and its snapshot *)

Lemma sumCus_from (es : list timelineEntry) (s : Z) :
  fold_left (fun s e => s + cus e) es s = s + sumCus es.
Proof.
  unfold sumCus. revert s.
  induction es as [|e es IH]; intros s; cbn [fold_left]; [lia|].
  rewrite IH, (IH (0 + cus e)). lia.
Qed.

Lemma sumCus_cons (e : timelineEntry) (es : list timelineEntry) :
  sumCus (e :: es) = cus e + sumCus es.
Proof. unfold sumCus at 1. cbn [fold_left]. rewrite sumCus_from. lia. Qed.

Lemma filter_filter_since (cutoff since : Z) (es : list timelineEntry) :
  cutoff <= since ->
  List.filter (fun e => (since <=? ts e)%Z) (List.filter (fun e => (cutoff <=? ts e)%Z) es)
  = List.filter (fun e => (since <=? ts e)%Z) es.
Proof.
  intros Hle. induction es as [|e es IH]; [reflexivity|]. cbn [List.filter].
  destruct (cutoff <=? ts e)%Z eqn:Hc; cbn [List.filter]; rewrite IH; [reflexivity|].
  rewrite (proj2 (Z.leb_gt _ _)); [reflexivity|]. apply Z.leb_gt in Hc. lia.
Qed.

(** The trimming of the timeline keeps every entry of the last five
    minutes. *)
Lemma recordUsage_window (u : usage) (m : metrics) (since : Z) :
  recordedAt u - 300000 <= since ->
  List.filter (fun e => (since <=? ts e)%Z)
              (estCusTimeline (recordUsage (recordedAt u) (host u) (charged u) m))
  = List.filter (fun e => (since <=? ts e)%Z) (estCusTimeline m ++ [entryOf u]).
Proof.
  intros Hsince. unfold recordUsage. cbn [estCusTimeline]. fold (entryOf u).
  destruct (5000 <? _)%Z; [|reflexivity].
  apply filter_filter_since. lia.
Qed.

Lemma recordAll_window (uses : list usage) :
  forall (m : metrics) (log : list timelineEntry) (last since : Z),
    (forall s, last - 300000 <= s ->
               List.filter (fun e => (s <=? ts e)%Z) (estCusTimeline m)
               = List.filter (fun e => (s <=? ts e)%Z) log) ->
    StronglySorted Z.le (last :: map recordedAt uses) ->
    Forall (fun u => recordedAt u - 300000 <= since) uses ->
    last - 300000 <= since ->
    List.filter (fun e => (since <=? ts e)%Z) (estCusTimeline (recordAll uses m))
    = List.filter (fun e => (since <=? ts e)%Z) (log ++ map entryOf uses).
Proof.
  induction uses as [|u uses IH]; intros m log last since Hinv Hsorted Hall Hlast;
    cbn [recordAll fold_left map].
  - rewrite app_nil_r. apply Hinv. exact Hlast.
  - apply StronglySorted_inv in Hsorted as [Hsorted Hhead].
    apply Forall_cons_1 in Hall as [Hu Hall].
    apply List.Forall_cons_iff in Hhead as [Hlu _].
    change (fold_left _ uses ?x) with (recordAll uses x).
    rewrite (IH _ (log ++ [entryOf u]) (recordedAt u) since);
      [rewrite <- app_assoc; reflexivity | | exact Hsorted | exact Hall | exact Hu].
    intros s Hs. rewrite recordUsage_window by exact Hs.
    rewrite !List.filter_app. rewrite Hinv by lia. reflexivity.
Qed.

(** X8. The figures of [getRpcMetricsSnapshot] are exact over the last
    five minutes.  Let requests be recorded from empty metrics at clock
    readings that never go back, and take a snapshot no earlier than the
    last of them with a window of at most 300000 ms: the total it reports is
    the sum of the charges of all the requests recorded within the window,
    however many there were and however often the timeline was trimmed;
    the average is that total divided by the window in seconds; and with a
    window of at least one second the last second's figure is the sum of the
    charges recorded within the last 1000 ms. *)
Theorem snapshot_exact_within_retention (uses : list usage) (now windowMs : Z) :
  StronglySorted Z.le (map recordedAt uses) ->
  Forall (fun u => recordedAt u <= now) uses ->
  0 < windowMs <= 300000 ->
  let s := getRpcMetricsSnapshot now windowMs (recordAll uses emptyMetrics) in
  let within (w : Z) :=
    sumCus (List.filter (fun e => (now - w <=? ts e)%Z) (map entryOf uses)) in
  estCusTotal s = within windowMs
  /\ estCusPerSecAvg s = Some (inject_Z (within windowMs) / (inject_Z windowMs / 1000))%Q
  /\ estCusPerSecCurrent s = within 1000.
Proof.
  intros Hsorted Hnow Hwindow s within.
  assert (forall w, 0 < w <= 300000 ->
            List.filter (fun e => (now - w <=? ts e)%Z)
                        (estCusTimeline (recordAll uses emptyMetrics))
            = List.filter (fun e => (now - w <=? ts e)%Z) (map entryOf uses)) as Hexact.
  { intros w Hw.
    destruct uses as [|u uses]; [reflexivity|].
    apply (recordAll_window (u :: uses) emptyMetrics [] (recordedAt u)).
    - reflexivity.
    - constructor; [exact Hsorted|].
      cbn [map]. constructor; [lia|].
      apply StronglySorted_inv in Hsorted as [_ Hhead]. exact Hhead.
    - eapply Forall_impl; [exact Hnow|]. cbn. intros; lia.
    - apply Forall_cons_1 in Hnow as [Hu _]. lia. }
  subst s within. unfold getRpcMetricsSnapshot.
  cbn [estCusTotal estCusPerSecAvg estCusPerSecCurrent].
  rewrite (Hexact windowMs Hwindow), (Hexact 1000 ltac:(lia)).
  rewrite (proj2 (Z.eqb_neq _ _)) by lia. repeat split.
Qed.

Lemma snapshot_exact_within_retention_witness :
  estCusTotal
    (getRpcMetricsSnapshot 2500 60000
       (recordAll [{| recordedAt := 1000; host := "bsc.example";
                      charged := [{| wmethod := Some (JStr "eth_call"); weight := 6 |}] |};
                   {| recordedAt := 2000; host := "bsc.example";
                      charged := [{| wmethod := Some (JStr "eth_getLogs"); weight := 20 |}] |}]
                  emptyMetrics))
  = 26.
Proof.
  apply (snapshot_exact_within_retention
           [{| recordedAt := 1000; host := "bsc.example";
               charged := [{| wmethod := Some (JStr "eth_call"); weight := 6 |}] |};
            {| recordedAt := 2000; host := "bsc.example";
               charged := [{| wmethod := Some (JStr "eth_getLogs"); weight := 20 |}] |}]
           2500 60000).
  - repeat constructor; cbn; lia.
  - repeat constructor; cbn; lia.
  - lia.
Defined.

Lemma sumValues_mapSet (table : list (jsval * Z)) (k : jsval) (v : Z) :
  sumValues (mapSet table k v) = sumValues table - nullish (mapGet table k) 0 + v.
Proof.
  induction table as [|[k' v'] table IH]; cbn [mapSet mapGet sumValues fold_right snd nullish].
  - lia.
  - destruct (sameValueZero k' k); cbn [sumValues fold_right snd nullish].
    + lia.
    + fold (sumValues (mapSet table k v)). fold (sumValues table). rewrite IH. lia.
Qed.

Lemma sumValues_record (bump : methodWeight -> Z) (ws : list methodWeight) :
  forall table : list (jsval * Z),
    sumValues (fold_left (fun acc c =>
                            mapSet acc (wmethod c)
                                   (nullish (mapGet acc (wmethod c)) 0 + bump c))
                         ws table)
    = sumValues table + fold_right (fun c s => bump c + s) 0 ws.
Proof.
  induction ws as [|c ws IH]; intros table; cbn [fold_left fold_right]; [lia|].
  rewrite IH, sumValues_mapSet. lia.
Qed.

Lemma reqCuOf_sum (ws : list methodWeight) :
  reqCuOf ws = fold_right (fun c s => weight c + s) 0 ws.
Proof.
  induction ws as [|c ws IH]; [reflexivity|].
  rewrite reqCuOf_cons, IH. reflexivity.
Qed.

Lemma sumEndpoints_insert (field : endpointTotals -> Z)
    (table : gmap string endpointTotals) (k : string) (e : endpointTotals) :
  sumEndpoints field (<[k := e]> table)
  = sumEndpoints field table
    - match table !! k with Some old => field old | None => 0 end
    + field e.
Proof.
  unfold sumEndpoints.
  destruct (table !! k) as [old|] eqn:Hk.
  - rewrite <- insert_delete_eq.
    rewrite map_fold_insert_L; [|intros; lia | apply lookup_delete_eq].
    rewrite (map_fold_delete_L _ _ k old table); [lia | intros; lia | exact Hk].
  - rewrite map_fold_insert_L; [lia | intros; lia | exact Hk].
Qed.

Lemma recordUsage_totals (now : Z) (endpointUrl : string) (ws : list methodWeight)
    (m : metrics) :
  let m' := recordUsage now endpointUrl ws m in
  sumValues (estCusByMethod m') = sumValues (estCusByMethod m) + reqCuOf ws
  /\ sumEndpoints estCus (byEndpoint m') = sumEndpoints estCus (byEndpoint m) + reqCuOf ws
  /\ sumValues (callsByMethod m') = sumValues (callsByMethod m) + Z.of_nat (length ws)
  /\ sumEndpoints Meter.calls (byEndpoint m') = sumEndpoints Meter.calls (byEndpoint m) + 1.
Proof.
  unfold recordUsage. cbn [estCusByMethod callsByMethod byEndpoint].
  rewrite (sumValues_record weight), (sumValues_record (fun _ => 1)), <- reqCuOf_sum.
  rewrite !sumEndpoints_insert.
  assert (fold_right (fun (_ : methodWeight) s => 1 + s) 0 ws = Z.of_nat (length ws)) as ->.
  { induction ws as [|c ws IH]; [reflexivity|]. cbn [fold_right length]. lia. }
  destruct (byEndpoint m !! endpointUrl) as [old|]; cbn [nullish Meter.calls estCus];
    repeat split; lia.
Qed.

(** X9. The breakdowns of the meter add up.  After any requests recorded
    since the metrics were empty (at module load, or after
    [resetRpcMetrics], whatever they held before), the estimated units
    summed over the methods, and summed over the endpoints, both equal the
    sum of the charges of all the requests; the calls summed over the
    methods equal the number of calls of all the requests, and summed over
    the endpoints the number of requests.  Trimming the timeline never
    touches these totals. *)
Theorem meter_totals_agree (before : metrics) (uses : list usage) :
  let m := recordAll uses (resetRpcMetrics before) in
  sumValues (estCusByMethod m) = sumCus (map entryOf uses)
  /\ sumEndpoints estCus (byEndpoint m) = sumCus (map entryOf uses)
  /\ sumValues (callsByMethod m) = Z.of_nat (length (concat (map charged uses)))
  /\ sumEndpoints Meter.calls (byEndpoint m) = Z.of_nat (length uses).
Proof.
  assert (forall (m0 : metrics),
            let m := recordAll uses m0 in
            sumValues (estCusByMethod m)
            = sumValues (estCusByMethod m0) + sumCus (map entryOf uses)
            /\ sumEndpoints estCus (byEndpoint m)
               = sumEndpoints estCus (byEndpoint m0) + sumCus (map entryOf uses)
            /\ sumValues (callsByMethod m)
               = sumValues (callsByMethod m0)
                 + Z.of_nat (length (concat (map charged uses)))
            /\ sumEndpoints Meter.calls (byEndpoint m)
               = sumEndpoints Meter.calls (byEndpoint m0) + Z.of_nat (length uses)) as Hgen.
  { induction uses as [|u uses IH]; intros m0; cbn [recordAll fold_left map concat length].
    - change (sumCus []) with 0. cbn [length]. repeat split; lia.
    - change (fold_left _ uses ?x) with (recordAll uses x).
      destruct (IH (recordUsage (recordedAt u) (host u) (charged u) m0))
        as (H1 & H2 & H3 & H4).
      destruct (recordUsage_totals (recordedAt u) (host u) (charged u) m0)
        as (R1 & R2 & R3 & R4).
      cbn zeta in *. rewrite H1, H2, H3, H4, R1, R2, R3, R4.
      rewrite sumCus_cons, length_app. cbn [entryOf cus].
      repeat split; lia. }
  intros m. destruct (Hgen emptyMetrics) as (H1 & H2 & H3 & H4).
  subst m. unfold resetRpcMetrics. rewrite H1, H2, H3, H4. cbn [emptyMetrics estCusByMethod callsByMethod
    byEndpoint sumValues fold_right]. unfold sumEndpoints. rewrite map_fold_empty.
  repeat split; lia.
Qed.

(** ** The retry policy, for any operation *)

Section RetryShape.
Context {T : Type}.
Variable fn : nat -> T + thrown.
Variable random : nat -> Q.
Variable maxRetries : Z.
Variable baseDelay : Q.

(** The loop stops at the first attempt that succeeds, fails fatally or is
    the last one allowed. *)
Lemma retryLoop_decides (d : nat) :
  (Z.of_nat d <= maxRetries)%Z ->
  (transient (fn d) = false \/ Z.of_nat d = maxRetries) ->
  forall (n k fuel : nat) lastError slept,
    (k + n = d)%nat -> (n < fuel)%nat ->
    (forall i, (k <= i < d)%nat -> transient (fn i) = true) ->
    retryLoop fn random maxRetries baseDelay fuel (Z.of_nat k) lastError k slept
    = Some {| outcome := fn d; invocations := S d;
              delays := slept ++ map (delayAfter random baseDelay) (seq k n) |}.
Proof.
  intros Hd Hlast n.
  induction n as [|n IH]; intros k fuel lastError slept Hk Hfuel Htransient;
    (destruct fuel as [|fuel]; [lia|]); cbn [retryLoop].
  - assert (k = d) as -> by lia.
    rewrite (proj2 (Z.leb_le _ _)) by lia. cbn [seq map]. rewrite app_nil_r.
    destruct (fn d) as [v|error]; [reflexivity|].
    destruct (isFatal error) eqn:Hf; [reflexivity|].
    destruct Hlast as [Hdec|Hmax]; [cbn in Hdec; rewrite Hf in Hdec; discriminate|].
    rewrite (proj2 (Z.eqb_eq _ _) Hmax). reflexivity.
  - rewrite (proj2 (Z.leb_le _ _)) by lia.
    pose proof (Htransient k ltac:(lia)) as Hk0. unfold transient in Hk0.
    destruct (fn k) as [v|error]; [discriminate|].
    destruct (isFatal error); [discriminate|].
    rewrite (proj2 (Z.eqb_neq _ _)) by lia.
    replace (Z.of_nat k + 1)%Z with (Z.of_nat (S k)) by lia.
    rewrite IH by (try lia; intros i Hi; apply Htransient; lia).
    cbn [seq map]. rewrite <- app_assoc. reflexivity.
Qed.

(** Whatever the operation does, the delays taken are those after the
    invocations that failed before the last one. *)
Lemma retryLoop_shape :
  forall (fuel k : nat) lastError slept r,
    (Z.of_nat k <= maxRetries)%Z ->
    retryLoop fn random maxRetries baseDelay fuel (Z.of_nat k) lastError k slept = Some r ->
    exists n,
      (Z.of_nat (k + n) <= maxRetries)%Z
      /\ invocations r = S (k + n)
      /\ outcome r = fn (k + n)%nat
      /\ delays r = slept ++ map (delayAfter random baseDelay) (seq k n).
Proof.
  induction fuel as [|fuel IH]; intros k lastError slept r Hk; [discriminate|].
  cbn [retryLoop]. rewrite (proj2 (Z.leb_le _ _) Hk).
  assert (forall o, fn k = o ->
            Some {| outcome := o; invocations := S k; delays := slept |} = Some r ->
            exists n,
              (Z.of_nat (k + n) <= maxRetries)%Z
              /\ invocations r = S (k + n)
              /\ outcome r = fn (k + n)%nat
              /\ delays r = slept ++ map (delayAfter random baseDelay) (seq k n))
    as Hstop.
  { intros o Ho [= <-]. exists 0%nat. rewrite Nat.add_0_r. cbn [seq map].
    rewrite app_nil_r. cbn. auto. }
  destruct (fn k) as [v|error] eqn:Hfn; [apply Hstop; reflexivity|].
  destruct (isFatal error); [apply Hstop; reflexivity|].
  destruct (Z.eq_dec (Z.of_nat k) maxRetries) as [Hmax|Hmax].
  - rewrite (proj2 (Z.eqb_eq _ _) Hmax). apply Hstop. reflexivity.
  - rewrite (proj2 (Z.eqb_neq _ _) Hmax).
    replace (Z.of_nat k + 1)%Z with (Z.of_nat (S k)) by lia.
    intros Hr. apply IH in Hr as (n & Hn & Hinv & Hout & Hdel); [|lia].
    exists (S n). replace (k + S n)%nat with (S k + n)%nat by lia.
    split; [exact Hn|]. split; [exact Hinv|]. split; [exact Hout|].
    rewrite Hdel. cbn [seq map]. rewrite <- app_assoc. reflexivity.
Qed.
End RetryShape.

Lemma total_snoc (l : list Q) (x : Q) : (total (l ++ [x]) == total l + x)%Q.
Proof.
  induction l as [|y l IH]; cbn [app total fold_right].
  - ring.
  - fold (total (l ++ [x])). fold (total l). rewrite IH. ring.
Qed.

Lemma pow2_succ (n : nat) :
  (inject_Z (2 ^ Z.of_nat (S n)) == 2 * inject_Z (2 ^ Z.of_nat n))%Q.
Proof.
  replace (Z.of_nat (S n)) with (Z.of_nat n + 1)%Z by lia.
  rewrite Z.pow_add_r, Z.pow_1_r, inject_Z_mult by lia.
  change (inject_Z 2) with 2%Q. ring.
Qed.

(** The delays of [n] retries add up to at most
    [baseDelay * (2^n - 1) + 1000 * n]. *)
Lemma total_delays (random : nat -> Q) (baseDelay : Q) (n : nat) :
  (0 <= baseDelay)%Q ->
  (forall k, 0 <= random k /\ random k < 1)%Q ->
  (total (map (delayAfter random baseDelay) (seq 0 n))
   <= baseDelay * (inject_Z (2 ^ Z.of_nat n) - 1) + 1000 * inject_Z (Z.of_nat n))%Q.
Proof.
  intros Hbase Hrand. induction n as [|n IH].
  - cbn [seq map total fold_right]. change (Z.of_nat 0) with 0%Z.
    change (2 ^ 0)%Z with 1%Z.
    change (inject_Z 1) with 1%Q. change (inject_Z 0) with 0%Q. lra.
  - rewrite seq_S, map_app. cbn [map Nat.add]. rewrite total_snoc, pow2_succ.
    replace (Z.of_nat (S n)) with (Z.of_nat n + 1)%Z by lia.
    rewrite inject_Z_plus. change (inject_Z 1) with 1%Q.
    unfold delayAfter at 2. unfold backoff, jitter.
    destruct (Hrand n) as [_ Hn]. lra.
Qed.

(** X10. What [retryWithBackoff] does, for any operation: it stops at the
    first invocation that succeeds, fails with a fatal error, or is the
    last one allowed ([d = maxRetries]); it settles as that invocation did
    (its value, or the very error it threw), having invoked the operation
    [d + 1] times and slept [baseDelay * 2^i + Math.random() * 1000] after
    each earlier invocation [i], in that order. *)
Theorem retry_stops_at_first_decisive_attempt {T : Type} (fn : nat -> T + thrown)
    (random : nat -> Q) (maxRetries : Z) (baseDelay : Q) (d : nat) :
  (Z.of_nat d <= maxRetries)%Z ->
  (forall i, (i < d)%nat -> transient (fn i) = true) ->
  transient (fn d) = false \/ Z.of_nat d = maxRetries ->
  retryWithBackoff fn random maxRetries baseDelay
  = Some {| outcome := fn d; invocations := S d;
            delays := map (fun i => baseDelay * inject_Z (2 ^ Z.of_nat i)
                                    + random i * 1000)%Q
                          (seq 0 d) |}.
Proof.
  intros Hd Hbefore Hlast. unfold retryWithBackoff.
  apply (retryLoop_decides fn random maxRetries baseDelay d Hd Hlast d 0
                           _ None []); [lia | lia |].
  intros i Hi. apply Hbefore. lia.
Qed.

Lemma retry_stops_at_first_decisive_attempt_witness :
  retryWithBackoff (T := string)
    (fun k => match k with
              | O => inr (ErrorInst "request timed out")
              | S _ => inr (ErrorInst "already known")
              end)
    (fun _ => 1 # 2) 2 400
  = Some {| outcome := inr (ErrorInst "already known"); invocations := 2;
            delays := [(400 * 1 + (1 # 2) * 1000)%Q] |}
  /\ (400 * 1 + (1 # 2) * 1000 == 900)%Q.
Proof.
  split; [|reflexivity].
  apply (retry_stops_at_first_decisive_attempt (T := string)
           (fun k => match k with
                     | O => inr (ErrorInst "request timed out")
                     | S _ => inr (ErrorInst "already known")
                     end)
           (fun _ => 1 # 2) 2 400 1).
  - lia.
  - intros [|i] Hi; [vm_compute; reflexivity | lia].
  - left. vm_compute. reflexivity.
Defined.

(** X11. The cost of a call of [retryWithBackoff], for any operation, with
    [baseDelay >= 0] and [Math.random()] in [0, 1): it settles; it invokes
    the operation at most [maxRetries + 1] times; it sleeps once after each
    invocation but the last; and it sleeps at most
    [baseDelay * (2^maxRetries - 1) + 1000 * maxRetries] ms in all.  With a
    negative [maxRetries] the operation is never invoked and what is
    thrown is [undefined]. *)
Theorem retry_cost_bounds {T : Type} (fn : nat -> T + thrown)
    (random : nat -> Q) (maxRetries : Z) (baseDelay : Q) :
  (0 <= baseDelay)%Q ->
  (forall k, 0 <= random k /\ random k < 1)%Q ->
  exists r,
    retryWithBackoff fn random maxRetries baseDelay = Some r
    /\ (Z.of_nat (invocations r) <= Z.max 0 (maxRetries + 1))%Z
    /\ length (delays r) = pred (invocations r)
    /\ (total (delays r)
        <= baseDelay * (inject_Z (2 ^ Z.max 0 maxRetries) - 1)
           + 1000 * inject_Z (Z.max 0 maxRetries))%Q
    /\ ((maxRetries < 0)%Z ->
        invocations r = 0%nat /\ outcome r = inr (NonError None)).
Proof.
  intros Hbase Hrand.
  destruct (Z.lt_ge_cases maxRetries 0) as [Hneg|Hpos].
  - eexists. split.
    + unfold retryWithBackoff. cbn [retryLoop].
      rewrite (proj2 (Z.leb_gt _ _)) by lia. reflexivity.
    + cbn [invocations delays outcome length pred total fold_right].
      rewrite !Z.max_l by lia. change (2 ^ 0)%Z with 1%Z.
      change (inject_Z 1) with 1%Q. change (inject_Z 0) with 0%Q.
      split; [lia|]. split; [reflexivity|]. split; [lra|].
      intros _. split; reflexivity.
  - destruct (retryWithBackoff_total fn random maxRetries baseDelay) as [r Hr].
    exists r. split; [exact Hr|].
    unfold retryWithBackoff in Hr.
    apply (retryLoop_shape fn random maxRetries baseDelay _ 0) in Hr
      as (n & Hn & Hinv & _ & Hdel); [|exact Hpos].
    cbn [Nat.add app] in *. rewrite Hinv, Hdel, length_map, length_seq.
    split; [lia|]. split; [reflexivity|]. split; [|lia].
    rewrite Z.max_r by lia.
    eapply Qle_trans; [apply total_delays; assumption|].
    assert (inject_Z (2 ^ Z.of_nat n) <= inject_Z (2 ^ maxRetries))%Q as Hpow
      by (rewrite <- Zle_Qle; apply Z.pow_le_mono_r; lia).
    assert (inject_Z (Z.of_nat n) <= inject_Z maxRetries)%Q as Hle
      by (rewrite <- Zle_Qle; lia).
    assert (baseDelay * inject_Z (2 ^ Z.of_nat n)
            <= baseDelay * inject_Z (2 ^ maxRetries))%Q as Hmul
      by (apply Qmult_le_l_nonneg || nra).
    lra.
Qed.

Lemma retry_cost_bounds_witness :
  exists r,
    retryWithBackoff (T := Z) (fun _ => inr (ErrorInst "rate limit exceeded"))
                     (fun _ => 1 # 2) 2 400 = Some r
    /\ (Z.of_nat (invocations r) <= 3)%Z
    /\ (total (delays r) <= 3200)%Q.
Proof.
  destruct (retry_cost_bounds (T := Z) (fun _ => inr (ErrorInst "rate limit exceeded"))
              (fun _ => 1 # 2) 2 400)
    as (r & Hr & Hn & _ & Ht & _).
  - discriminate.
  - intros k. split; [discriminate | reflexivity].
  - exists r. split; [exact Hr|]. split; [exact Hn|].
    eapply Qle_trans; [exact Ht|]. vm_compute. discriminate.
Defined.

(** ** The calls wrapped in the retry policy *)

(** X12. [isContract] never retries and never rejects: its operation
    catches every failure of [getCode] and returns [false], so the
    surrounding [retryWithBackoff] sees a success at the first invocation.
    One request is made, no delay is taken, and a request that fails, for
    whatever reason, is reported as "not a contract"; a code that is
    [undefined] counts as a contract. *)
Theorem isContract_never_retries (random : nat -> Q) (getCode : nat -> jsval + thrown) :
  isContract random getCode
  = Some {| outcome := inl (match getCode 0%nat with
                            | inl code => negb (strictEqStr code "0x")
                            | inr _ => false
                            end);
            invocations := 1; delays := [] |}
  /\ (forall error, getCode 0%nat = inr error ->
                    option_map outcome (isContract random getCode) = Some (inl false))
  /\ (getCode 0%nat = inl None ->
      option_map outcome (isContract random getCode) = Some (inl true)).
Proof.
  assert (isContract random getCode
          = Some {| outcome := inl (match getCode 0%nat with
                                    | inl code => negb (strictEqStr code "0x")
                                    | inr _ => false
                                    end);
                    invocations := 1; delays := [] |}) as Hrun.
  { unfold isContract, retryWithBackoff. cbn [retryLoop].
    change (0 <=? 3)%Z with true. cbn iota.
    destruct (getCode 0%nat); reflexivity. }
  split; [exact Hrun|]. rewrite Hrun. cbn [option_map outcome].
  split; [intros error ->; reflexivity | intros ->; reflexivity].
Qed.

Lemma leDouble_refl (x : double) : x <> NaN -> leDouble x x.
Proof. destruct x as [a| | |]; cbn; try tauto. intros _. apply Qle_refl. Qed.

Lemma leDouble_trans (x y z : double) :
  leDouble x y -> leDouble y z -> leDouble x z.
Proof.
  destruct x as [a| | |], y as [b| | |], z as [c| | |]; cbn; try tauto.
  apply Qle_trans.
Qed.

Lemma leDouble_left (x y : double) : leDouble x y -> x <> NaN.
Proof. destruct x, y; cbn; try tauto; discriminate. Qed.

Lemma leDouble_right (x y : double) : leDouble x y -> y <> NaN.
Proof. destruct x, y; cbn; try tauto; discriminate. Qed.

Lemma Math_min_operands (x y : double) : Math_min x y <> NaN -> x <> NaN /\ y <> NaN.
Proof. destruct x, y; cbn; intros H; split; try discriminate; congruence. Qed.

Lemma Math_max_operands (x y : double) : Math_max x y <> NaN -> x <> NaN /\ y <> NaN.
Proof. destruct x, y; cbn; intros H; split; try discriminate; congruence. Qed.

Lemma leDouble_min_r (x y : double) :
  Math_min x y <> NaN -> leDouble (Math_min x y) y.
Proof.
  destruct x as [a| | |], y as [b| | |]; cbn; try tauto; try congruence.
  - intros _. apply Q.le_min_r.
  - intros _. apply Qle_refl.
Qed.

Lemma leDouble_max_r (x y : double) :
  Math_max x y <> NaN -> leDouble y (Math_max x y).
Proof.
  destruct x as [a| | |], y as [b| | |]; cbn; try tauto; try congruence.
  - intros _. apply Q.le_max_r.
  - intros _. apply Qle_refl.
Qed.

Lemma leDouble_min_glb (x y z : double) :
  leDouble z x -> leDouble z y -> leDouble z (Math_min x y).
Proof.
  destruct x as [a| | |], y as [b| | |], z as [c| | |]; cbn; try tauto.
  apply Q.min_glb.
Qed.

Lemma leDouble_max_lub (x y z : double) :
  leDouble x z -> leDouble y z -> leDouble (Math_max x y) z.
Proof.
  destruct x as [a| | |], y as [b| | |], z as [c| | |]; cbn; try tauto.
  apply Q.max_lub.
Qed.

Lemma bigIntOfFloor_returns (x : double) (price : Z) :
  bigIntOfFloor x = inl price -> exists a, x = Finite a /\ price = Qfloor a.
Proof.
  destruct x as [a| | |]; cbn; try discriminate.
  intros [= <-]. exists a. split; reflexivity.
Qed.

Section PriceFacts.
Variable mul : double -> double -> double.
Variable div : double -> double -> double.
Variable number : Z -> double.
Hypothesis mul_monotone :
  forall x y, leDouble x y ->
              leDouble (mul x (Finite 1000000000)) (mul y (Finite 1000000000)).
Hypothesis mul_NaN : mul NaN (Finite 1000000000) = NaN.

Lemma toWei_le (x y : double) (lo price : Z) :
  leDouble x y -> toWei mul x = inl lo -> toWei mul y = inl price -> lo <= price.
Proof.
  intros Hle Hx Hy. unfold toWei in *.
  apply bigIntOfFloor_returns in Hx as (a & Ea & ->).
  apply bigIntOfFloor_returns in Hy as (b & Eb & ->).
  pose proof (mul_monotone x y Hle) as Hm. rewrite Ea, Eb in Hm.
  apply Qfloor_resp_le. exact Hm.
Qed.

Lemma toWei_same (x y : double) (price : Z) :
  leDouble x y -> leDouble y x -> toWei mul x = inl price -> toWei mul y = inl price.
Proof.
  intros Hxy Hyx Hx. unfold toWei in *.
  apply bigIntOfFloor_returns in Hx as (a & Ea & ->).
  pose proof (mul_monotone x y Hxy) as H1. pose proof (mul_monotone y x Hyx) as H2.
  rewrite Ea in H1, H2.
  destruct (mul y (Finite 1000000000)) as [b| | |]; cbn in H1, H2; try contradiction.
  cbn. f_equal. apply Z.le_antisymm; apply Qfloor_resp_le; assumption.
Qed.

Lemma toWei_returns (x : double) (price : Z) :
  toWei mul x = inl price -> x <> NaN.
Proof.
  intros Hx ->. unfold toWei in Hx. rewrite mul_NaN in Hx. discriminate.
Qed.

(** What is converted to wei is the floor when it is the larger limit,
    and lies between the limits otherwise. *)
Lemma clamped_limits (cfg : tradingConfig) (z : double) (price : Z) :
  toWei mul z = inl price ->
  (z = clampFixed cfg (default NaN (fixedGasPrice cfg)) /\ usesFixedPrice cfg = true)
  \/ ((exists gwei, z = adjust mul cfg gwei) /\ usesFixedPrice cfg = false) ->
  (leDouble (minGasPrice cfg) (maxGasPrice cfg) ->
   (forall lo, toWei mul (minGasPrice cfg) = inl lo -> lo <= price)
   /\ (forall hi, toWei mul (maxGasPrice cfg) = inl hi -> price <= hi))
  /\ (leDouble (maxGasPrice cfg) (minGasPrice cfg) ->
      toWei mul (if usesFixedPrice cfg then minGasPrice cfg else maxGasPrice cfg)
      = inl price).
Proof.
  intros Hz Hcase. pose proof (toWei_returns z price Hz) as Hnan.
  destruct Hcase as [[-> ->] | [[gwei ->] ->]].
  - unfold clampFixed in *.
    set (f := default NaN (fixedGasPrice cfg)) in *.
    destruct (Math_max_operands _ _ Hnan) as [Hinner Hmin].
    pose proof (leDouble_max_r _ _ Hnan) as Hge.
    pose proof (leDouble_min_r _ _ Hinner) as Hle.
    split.
    + intros Hord. split.
      * intros lo Hlo. exact (toWei_le _ _ lo price Hge Hlo Hz).
      * intros hi Hhi. refine (toWei_le _ _ price hi _ Hz Hhi).
        apply leDouble_max_lub; assumption.
    + intros Hord. refine (toWei_same _ _ price _ Hge Hz).
      apply leDouble_max_lub; [|apply leDouble_refl; exact Hmin].
      exact (leDouble_trans _ _ _ Hle Hord).
  - unfold adjust in *.
    destruct (Math_min_operands _ _ Hnan) as [Hinner Hmax].
    pose proof (leDouble_min_r _ _ Hnan) as Hle.
    pose proof (leDouble_max_r _ _ Hinner) as Hge.
    split.
    + intros Hord. split.
      * intros lo Hlo. refine (toWei_le _ _ lo price _ Hlo Hz).
        apply leDouble_min_glb; assumption.
      * intros hi Hhi. exact (toWei_le _ _ price hi Hle Hz Hhi).
    + intros Hord. refine (toWei_same _ _ price Hle _ Hz).
      apply leDouble_min_glb; [|apply leDouble_refl; exact Hmax].
      exact (leDouble_trans _ _ _ Hord Hge).
Qed.

Lemma gasPriceOnce_limits (cfg : tradingConfig) (getGasPrice : Z + thrown) (price : Z) :
  gasPriceOnce mul div number cfg getGasPrice = inl price ->
  (leDouble (minGasPrice cfg) (maxGasPrice cfg) ->
   (forall lo, toWei mul (minGasPrice cfg) = inl lo -> lo <= price)
   /\ (forall hi, toWei mul (maxGasPrice cfg) = inl hi -> price <= hi))
  /\ (leDouble (maxGasPrice cfg) (minGasPrice cfg) ->
      toWei mul (if usesFixedPrice cfg then minGasPrice cfg else maxGasPrice cfg)
      = inl price).
Proof.
  unfold gasPriceOnce. intros Hrun.
  destruct (String.eqb (modeOf cfg) "fixed") eqn:Hmode;
    [destruct (fixedGasPrice cfg) as [fixed|] eqn:Hfixed|].
  - apply (clamped_limits cfg _ price Hrun). left.
    unfold usesFixedPrice. rewrite Hmode, Hfixed. split; reflexivity.
  - destruct getGasPrice as [gasPrice|error]; [|discriminate].
    apply (clamped_limits cfg _ price Hrun). right.
    unfold usesFixedPrice. rewrite Hmode, Hfixed. split; [eexists|]; reflexivity.
  - destruct getGasPrice as [gasPrice|error]; [|discriminate].
    assert (usesFixedPrice cfg = false) as Hno
      by (unfold usesFixedPrice; rewrite Hmode; reflexivity).
    destruct (fixedGasPrice cfg);
      (apply (clamped_limits cfg _ price Hrun); right;
       split; [eexists; reflexivity | exact Hno]).
Qed.
End PriceFacts.

(** X13. The gas price [getCurrentGasPrice] returns, in the arithmetic of
    the run time: of its multiplication nothing is used but that
    multiplying by [1e9] keeps the order of the numbers and turns [NaN] into
    [NaN], as the rounded multiplication of doubles does; its division and
    [Number] are arbitrary.  When the configured floor is not above the
    configured cap, a price that is returned lies between the two limits
    converted to wei the same way, [floor(limit * 1e9)], whatever the network
    reports and whatever the multiplier is.  When the floor is not below the
    cap the two modes differ: the network mode returns the cap, the fixed
    mode the floor.  In the fixed mode no request is made: a call that
    returns did so at its first attempt. *)
Theorem gas_price_within_limits (mul div : double -> double -> double)
    (number : Z -> double) (random : nat -> Q) (cfg : tradingConfig)
    (getGasPrice : nat -> Z + thrown) (r : retryRun Z) (price : Z) :
  (forall x y, leDouble x y ->
               leDouble (mul x (Finite 1000000000)) (mul y (Finite 1000000000))) ->
  mul NaN (Finite 1000000000) = NaN ->
  getCurrentGasPrice mul div number random cfg getGasPrice = Some r ->
  outcome r = inl price ->
  (leDouble (minGasPrice cfg) (maxGasPrice cfg) ->
   (forall lo, toWei mul (minGasPrice cfg) = inl lo -> lo <= price)
   /\ (forall hi, toWei mul (maxGasPrice cfg) = inl hi -> price <= hi))
  /\ (leDouble (maxGasPrice cfg) (minGasPrice cfg) ->
      toWei mul (if usesFixedPrice cfg then minGasPrice cfg else maxGasPrice cfg)
      = inl price)
  /\ (usesFixedPrice cfg = true -> invocations r = 1%nat /\ delays r = []).
Proof.
  intros Hmono Hnan Hrun Hout.
  pose proof Hrun as Hshape. unfold getCurrentGasPrice, retryWithBackoff in Hshape.
  apply (retryLoop_shape _ random 3 1000 _ 0) in Hshape as (n & _ & _ & Hfn & _);
    [|lia].
  rewrite Hout in Hfn. symmetry in Hfn.
  destruct (gasPriceOnce_limits mul div number Hmono Hnan _ _ _ Hfn) as [Hin Hout'].
  split; [exact Hin|]. split; [exact Hout'|].
  intros Hfixed. unfold usesFixedPrice in Hfixed.
  apply andb_true_iff in Hfixed as [Hmode Hset].
  assert (forall g, gasPriceOnce mul div number cfg g
                    = gasPriceOnce mul div number cfg (getGasPrice (0 + n)%nat)) as Hsame.
  { intros g. unfold gasPriceOnce. rewrite Hmode.
    destruct (fixedGasPrice cfg); [reflexivity | discriminate]. }
  unfold getCurrentGasPrice, retryWithBackoff in Hrun. cbn [retryLoop] in Hrun.
  change (0 <=? 3)%Z with true in Hrun. cbn iota in Hrun.
  rewrite (Hsame (getGasPrice 0%nat)), Hfn in Hrun.
  injection Hrun as <-. split; reflexivity.
Qed.

Lemma gas_price_within_limits_witness :
  let cfg := {| gasPriceMode := None; fixedGasPrice := None;
                minGasPrice := Finite (1 # 2); maxGasPrice := Finite 5;
                gasPriceMultiplier := Finite (3 # 2) |} in
  getCurrentGasPrice exactMul exactDiv exactNumber (fun _ => 1 # 2) cfg
                     (fun _ => inl 7000000000)
  = Some {| outcome := inl 5000000000; invocations := 1; delays := [] |}
  /\ toWei exactMul (minGasPrice cfg) = inl 500000000
  /\ toWei exactMul (maxGasPrice cfg) = inl 5000000000
  /\ 500000000 <= 5000000000 <= 5000000000.
Proof.
  intros cfg.
  assert (getCurrentGasPrice exactMul exactDiv exactNumber (fun _ => 1 # 2) cfg
                             (fun _ => inl 7000000000)
          = Some {| outcome := inl 5000000000; invocations := 1; delays := [] |})
    as Hrun by (vm_compute; reflexivity).
  split; [exact Hrun|]. split; [reflexivity|]. split; [reflexivity|].
  destruct (gas_price_within_limits exactMul exactDiv exactNumber (fun _ => 1 # 2) cfg
              (fun _ => inl 7000000000)
              {| outcome := inl 5000000000; invocations := 1; delays := [] |}
              5000000000) as (Hin & _).
  - intros [a| | |] [b| | |]; cbn; try tauto.
    intros Hab. apply Qmult_le_compat_r; [exact Hab | discriminate].
  - reflexivity.
  - exact Hrun.
  - reflexivity.
  - destruct Hin as [Hlo Hhi]; [cbn; discriminate|].
    split; [apply Hlo | apply Hhi]; reflexivity.
Defined.

(** ** The nonce manager: order, exclusion, progress *)

(** The queues of the mutexes hold call numbers in increasing order. *)

Lemma queuesOrdered_empty : queuesOrdered emptyWorld.
Proof. intros key st H. cbn in H. rewrite lookup_empty in H. discriminate. Qed.

Lemma sorted_snoc (q : list nat) (n : nat) :
  StronglySorted lt q -> Forall (fun i => (i < n)%nat) q ->
  StronglySorted lt (q ++ [n]).
Proof.
  induction q as [|x q IH]; intros Hs Hb; cbn.
  - repeat constructor.
  - apply StronglySorted_inv in Hs as [Hs Hx]. apply Forall_cons in Hb as [Hxb Hqb].
    constructor; [apply IH; assumption|].
    apply Forall_app. split; [exact Hx|]. constructor; [exact Hxb | constructor].
Qed.

Lemma queuesOrdered_release (w : world) (id : nat) (key : string)
    (st s1 : NonceState) (r : result) :
  queuesOrdered w ->
  ADDRESS_STATE w !! key = Some st -> mutex s1 = mutex st ->
  queuesOrdered (fst (release id key s1 r w)).
Proof.
  intros Hq Hst Hm. destruct (release id key s1 r w) as [w' os] eqn:E.
  apply release_spec in E as (_ & Hmap & Hcalls). cbn [fst].
  assert (length (calls w') = length (calls w)) as Hlen.
  { rewrite Hcalls. destruct (snd (unlock (mutex s1))); rewrite ?length_alter; reflexivity. }
  intros key' st' Hst'. rewrite Hlen. rewrite Hmap in Hst'.
  destruct (decide (key = key')) as [<-|Hne].
  - rewrite lookup_insert_eq in Hst'. injection Hst' as <-. cbn [mutex].
    rewrite Hm. destruct (Hq key st Hst) as [Hs Hb]. unfold unlock.
    destruct (queue (mutex st)) as [|next rest]; cbn [fst queue].
    + split; constructor.
    + apply StronglySorted_inv in Hs as [Hs _]. apply Forall_cons in Hb as [_ Hb].
      split; assumption.
  - rewrite lookup_insert_ne in Hst' by exact Hne. exact (Hq key' st' Hst').
Qed.

Lemma queuesOrdered_step (ev : event) (w w' : world) (os : list obs) :
  queuesOrdered w -> step ev w = Some (w', os) -> queuesOrdered w'.
Proof.
  intros Hq Hstep.
  destruct ev as [address0 op0|id now|id r now']; cbn [step] in Hstep; open_calls.
  - unfold getOrCreateState in Hstep.
    assert (forall s0 states m granted,
              (forall key st, states !! key = Some st -> key <> toLowerCase address0 ->
                              ADDRESS_STATE w !! key = Some st) ->
              StronglySorted lt (queue (mutex s0)) ->
              Forall (fun i => (i < length (calls w))%nat) (queue (mutex s0)) ->
              lock (length (calls w)) (mutex s0) = (m, granted) ->
              queuesOrdered
                {| ADDRESS_STATE :=
                     <[toLowerCase address0 :=
                         {| currentNonce := currentNonce s0;
                            lastSyncMs := lastSyncMs s0; mutex := m |}]> states;
                   calls := calls w
                            ++ [{| address := address0; op := op0;
                                   at_ := if granted then LockGranted else AwaitLock |}] |})
      as Hgen.
    { intros s0 states m granted Hother Hs Hb El key st Hst.
      cbn [ADDRESS_STATE calls] in *. rewrite length_app. cbn [length].
      destruct (decide (toLowerCase address0 = key)) as [<-|Hne].
      - rewrite lookup_insert_eq in Hst. injection Hst as <-. cbn [mutex].
        unfold lock in El. destruct (locked (mutex s0)); injection El as <- _;
          cbn [queue].
        + split.
          * apply sorted_snoc; assumption.
          * apply Forall_app. split.
            -- eapply Forall_impl; [exact Hb|]. cbn. intros; lia.
            -- constructor; [lia|constructor].
        + split; [exact Hs|]. eapply Forall_impl; [exact Hb|]. cbn. intros; lia.
      - rewrite lookup_insert_ne in Hst by exact Hne.
        destruct (Hq key st (Hother key st Hst ltac:(congruence))) as [Hs' Hb'].
        split; [exact Hs'|]. eapply Forall_impl; [exact Hb'|]. cbn. intros; lia. }
    destruct (ADDRESS_STATE w !! toLowerCase address0) as [s0|] eqn:E0;
      destruct (lock (length (calls w)) (mutex _)) as [m granted] eqn:El;
      injection Hstep as <- _.
    + destruct (Hq _ _ E0) as [Hs Hb].
      exact (Hgen s0 (ADDRESS_STATE w) m granted (fun key st H _ => H) Hs Hb El).
    + refine (Hgen freshState _ m granted _ _ _ El).
      * intros key st Hst Hne. rewrite lookup_insert_ne in Hst by congruence. exact Hst.
      * constructor.
      * constructor.
  - destruct (calls w !! id) as [c0|] eqn:Ec; [|discriminate].
    destruct (at_ c0) eqn:Eat; try discriminate.
    destruct (ADDRESS_STATE w !! toLowerCase (address c0)) as [s0|] eqn:E0;
      [|discriminate].
    assert (queuesOrdered {| ADDRESS_STATE := ADDRESS_STATE w;
                             calls := alter (moveTo (AwaitCount now)) id (calls w) |})
      as Hmove.
    { intros key st Hst. cbn [ADDRESS_STATE calls] in *. rewrite length_alter.
      exact (Hq key st Hst). }
    destruct (op c0) as [force|].
    + destruct (needsSync force s0 now).
      * injection Hstep as <- _. exact Hmove.
      * destruct (reserve s0) as [[next s1]|] eqn:Eres; [|discriminate].
        injection Hstep as Hstep.
        assert (mutex s1 = mutex s0) as Hm.
        { unfold reserve in Eres. destruct (currentNonce s0); [|discriminate].
          injection Eres as _ <-. reflexivity. }
        pose proof (queuesOrdered_release w id _ s0 s1 (Nonce next) Hq E0 Hm) as H.
        rewrite Hstep in H. exact H.
    + injection Hstep as <- _. exact Hmove.
  - destruct (calls w !! id) as [c0|] eqn:Ec; [|discriminate].
    destruct (at_ c0) as [| |now0|] eqn:Eat; try discriminate.
    destruct (ADDRESS_STATE w !! toLowerCase (address c0)) as [s0|] eqn:E0;
      [|discriminate].
    assert (forall s1 r1,
              mutex s1 = mutex s0 ->
              release id (toLowerCase (address c0)) s1 r1 w = (w', os) ->
              queuesOrdered w') as Hrel.
    { intros s1 r1 Hm E.
      pose proof (queuesOrdered_release w id _ s0 s1 r1 Hq E0 Hm) as H.
      rewrite E in H. exact H. }
    destruct (op c0); destruct r as [error|chainPending];
      cbn [reserve resynced currentNonce] in Hstep; injection Hstep as Hstep;
      (eapply Hrel; [|exact Hstep]); reflexivity.
Qed.

Lemma queuesOrdered_run (schedule : list event) :
  forall (w w' : world) (os : list obs),
    queuesOrdered w -> run schedule w = Some (w', os) -> queuesOrdered w'.
Proof.
  induction schedule as [|ev rest IH]; intros w w' os Hq Hrun; cbn [run] in Hrun.
  - injection Hrun as <- _. exact Hq.
  - destruct (step ev w) as [[w1 o1]|] eqn:Estep; [|discriminate].
    destruct (run rest w1) as [[w2 o2]|] eqn:Erest; [|discriminate].
    injection Hrun as <- _.
    eapply IH; [|exact Erest]. eapply queuesOrdered_step; eassumption.
Qed.

(** What a step shows to the environment is the doing of the call whose
    continuation ran, and that call held the lock. *)
Lemma step_obs (ev : event) (w w' : world) (os : list obs) :
  step ev w = Some (w', os) ->
  os = []
  \/ exists j cj,
       eventOf j ev /\ calls w !! j = Some cj /\ holds (at_ cj) = true
       /\ (os = [Fetch j (address cj)] \/ exists r, os = [Settle j (keyOf cj) r]).
Proof.
  intros Hstep.
  destruct ev as [address0 op0|id now|id r now']; cbn [step] in Hstep; open_calls.
  - left. destruct (getOrCreateState _ _) as [s0 states].
    destruct (lock _ _) as [m granted]. injection Hstep as _ <-. reflexivity.
  - right. destruct (calls w !! id) as [c0|] eqn:Ec; [|discriminate].
    destruct (at_ c0) eqn:Eat; try discriminate.
    destruct (ADDRESS_STATE w !! toLowerCase (address c0)) as [s0|]; [|discriminate].
    exists id, c0. split; [reflexivity|]. split; [exact Ec|].
    split; [rewrite Eat; reflexivity|].
    destruct (op c0) as [force|].
    + destruct (needsSync force s0 now).
      * injection Hstep as _ <-. left. reflexivity.
      * destruct (reserve s0) as [[next s1]|]; [|discriminate].
        injection Hstep as Hstep. apply release_spec in Hstep as (-> & _ & _).
        right. eexists. reflexivity.
    + injection Hstep as _ <-. left. reflexivity.
  - right. destruct (calls w !! id) as [c0|] eqn:Ec; [|discriminate].
    destruct (at_ c0) as [| |now0|] eqn:Eat; try discriminate.
    destruct (ADDRESS_STATE w !! toLowerCase (address c0)) as [s0|]; [|discriminate].
    exists id, c0. split; [reflexivity|]. split; [exact Ec|].
    split; [rewrite Eat; reflexivity|]. right.
    destruct (op c0); destruct r as [error|chainPending];
      cbn [reserve resynced currentNonce] in Hstep; injection Hstep as Hstep;
      apply release_spec in Hstep as (-> & _ & _); eexists; reflexivity.
Qed.

(** A step keeps every state, and changes the nonce and the sync time of
    an address only when a call settles on it. *)
Lemma frame_step (key : string) (ev : event) (w w' : world) (os : list obs)
    (st : NonceState) :
  step ev w = Some (w', os) ->
  ADDRESS_STATE w !! key = Some st ->
  exists st',
    ADDRESS_STATE w' !! key = Some st'
    /\ (settledFor key os = [] ->
        currentNonce st' = currentNonce st /\ lastSyncMs st' = lastSyncMs st).
Proof.
  intros Hstep Hst.
  assert (forall id k s1 r1,
            release id k s1 r1 w = (w', os) ->
            exists st',
              ADDRESS_STATE w' !! key = Some st'
              /\ (settledFor key os = [] ->
                  currentNonce st' = currentNonce st /\ lastSyncMs st' = lastSyncMs st))
    as Hrel.
  { intros id k s1 r1 E. apply release_spec in E as (-> & Hmap & _). rewrite Hmap.
    destruct (decide (k = key)) as [->|Hne].
    - rewrite lookup_insert_eq. eexists. split; [reflexivity|].
      rewrite settledFor_one, String.eqb_refl. discriminate.
    - rewrite lookup_insert_ne by exact Hne. exists st. split; [exact Hst|].
      intros _. split; reflexivity. }
  assert (forall now1 id,
            w' = {| ADDRESS_STATE := ADDRESS_STATE w;
                    calls := alter (moveTo (AwaitCount now1)) id (calls w) |} ->
            exists st',
              ADDRESS_STATE w' !! key = Some st'
              /\ (settledFor key os = [] ->
                  currentNonce st' = currentNonce st /\ lastSyncMs st' = lastSyncMs st))
    as Hmove.
  { intros now1 id ->. exists st. split; [exact Hst|]. intros _. split; reflexivity. }
  destruct ev as [address0 op0|id now|id r now']; cbn [step] in Hstep; open_calls.
  - unfold getOrCreateState in Hstep.
    destruct (ADDRESS_STATE w !! toLowerCase address0) as [s0|] eqn:E0;
      destruct (lock _ _) as [m granted]; injection Hstep as <- _;
      cbn [ADDRESS_STATE].
    + destruct (decide (toLowerCase address0 = key)) as [Hk|Hk].
      * rewrite Hk in *. rewrite lookup_insert_eq. rewrite Hst in E0. injection E0 as <-.
        eexists. split; [reflexivity|]. intros _. split; reflexivity.
      * rewrite lookup_insert_ne by exact Hk. exists st. split; [exact Hst|].
        intros _. split; reflexivity.
    + assert (toLowerCase address0 <> key) as Hk by congruence.
      rewrite !lookup_insert_ne by exact Hk. exists st. split; [exact Hst|].
      intros _. split; reflexivity.
  - destruct (calls w !! id) as [c0|]; [|discriminate].
    destruct (at_ c0); try discriminate.
    destruct (ADDRESS_STATE w !! toLowerCase (address c0)) as [s0|]; [|discriminate].
    destruct (op c0) as [force|].
    + destruct (needsSync force s0 now).
      * injection Hstep as <- _. eapply Hmove. reflexivity.
      * destruct (reserve s0) as [[next s1]|]; [|discriminate].
        injection Hstep as Hstep. eapply Hrel. exact Hstep.
    + injection Hstep as <- _. eapply Hmove. reflexivity.
  - destruct (calls w !! id) as [c0|]; [|discriminate].
    destruct (at_ c0); try discriminate.
    destruct (ADDRESS_STATE w !! toLowerCase (address c0)) as [s0|]; [|discriminate].
    destruct (op c0); destruct r as [error|chainPending];
      cbn [reserve resynced currentNonce] in Hstep; injection Hstep as Hstep;
      eapply Hrel; exact Hstep.
Qed.

(** The waiter that a step wakes is the head of its mutex's queue, and the
    queue is left with the rest. *)
Lemma woken_is_head (ev : event) (w w' : world) (os : list obs) (i : nat) (c : call) :
  step ev w = Some (w', os) ->
  calls w !! i = Some c -> at_ c = AwaitLock ->
  at_ <$> calls w' !! i = Some LockGranted ->
  exists key st st' rest,
    ADDRESS_STATE w !! key = Some st /\ queue (mutex st) = i :: rest
    /\ ADDRESS_STATE w' !! key = Some st' /\ queue (mutex st') = rest.
Proof.
  intros Hstep Hc Hat Hwoken.
  assert (forall p id, id <> i \/ p <> LockGranted ->
                       at_ <$> alter (moveTo p) id (calls w) !! i = Some LockGranted ->
                       False) as Halt.
  { intros p id Hor H. destruct (decide (id = i)) as [->|Hne].
    - rewrite list_lookup_alter_eq, Hc in H. cbn in H. destruct Hor; congruence.
    - rewrite list_lookup_alter_ne, Hc in H by exact Hne. cbn in H. congruence. }
  assert (forall id k s0 s1 r1,
            ADDRESS_STATE w !! k = Some s0 -> mutex s1 = mutex s0 ->
            release id k s1 r1 w = (w', os) ->
            exists key st st' rest,
              ADDRESS_STATE w !! key = Some st /\ queue (mutex st) = i :: rest
              /\ ADDRESS_STATE w' !! key = Some st' /\ queue (mutex st') = rest)
    as Hrel.
  { intros id k s0 s1 r1 Hs0 Hm E. apply release_spec in E as (_ & Hmap & Hcalls).
    rewrite Hcalls, Hm in Hwoken. rewrite Hm in Hmap. unfold unlock in *.
    destruct (queue (mutex s0)) as [|next rest] eqn:Hq; cbn [fst snd] in *.
    - exfalso. eapply (Halt (Settled r1) id); [right; discriminate | exact Hwoken].
    - destruct (decide (next = i)) as [->|Hne].
      + exists k, s0. eexists. exists rest. split; [exact Hs0|]. split; [exact Hq|].
        rewrite Hmap, lookup_insert_eq. split; reflexivity.
      + exfalso. rewrite list_lookup_alter_ne in Hwoken by exact Hne.
        eapply (Halt (Settled r1) id); [right; discriminate | exact Hwoken]. }
  destruct ev as [address0 op0|id now|id r now']; cbn [step] in Hstep; open_calls.
  - exfalso. destruct (getOrCreateState _ _) as [s0 states].
    destruct (lock _ _) as [m granted]. injection Hstep as <- _.
    cbn [calls] in Hwoken. rewrite lookup_app_l in Hwoken by (eapply lookup_lt_Some; eauto).
    rewrite Hc in Hwoken. cbn in Hwoken. congruence.
  - destruct (calls w !! id) as [c0|] eqn:Ec; [|discriminate].
    destruct (at_ c0) eqn:Eat; try discriminate.
    destruct (ADDRESS_STATE w !! toLowerCase (address c0)) as [s0|] eqn:E0;
      [|discriminate].
    destruct (op c0) as [force|].
    + destruct (needsSync force s0 now).
      * exfalso. injection Hstep as <- _.
        eapply (Halt (AwaitCount now) id); [right; discriminate | exact Hwoken].
      * destruct (reserve s0) as [[next s1]|] eqn:Eres; [|discriminate].
        injection Hstep as Hstep. eapply (Hrel id _ s0 s1); [exact E0| |exact Hstep].
        unfold reserve in Eres. destruct (currentNonce s0); [|discriminate].
        injection Eres as _ <-. reflexivity.
    + exfalso. injection Hstep as <- _.
      eapply (Halt (AwaitCount now) id); [right; discriminate | exact Hwoken].
  - destruct (calls w !! id) as [c0|] eqn:Ec; [|discriminate].
    destruct (at_ c0) as [| |now0|] eqn:Eat; try discriminate.
    destruct (ADDRESS_STATE w !! toLowerCase (address c0)) as [s0|] eqn:E0;
      [|discriminate].
    destruct (op c0); destruct r as [error|chainPending];
      cbn [reserve resynced currentNonce] in Hstep; injection Hstep as Hstep;
      (eapply (Hrel id _ s0); [exact E0| |exact Hstep]); reflexivity.
Qed.

(** A step leaves alone every call that is neither the one whose
    continuation runs nor a waiter. *)
Lemma step_other_call (ev : event) (w w' : world) (os : list obs) (i : nat) (c : call) :
  wellFormed w ->
  step ev w = Some (w', os) ->
  calls w !! i = Some c -> ~ eventOf i ev -> at_ c <> AwaitLock ->
  calls w' !! i = Some c.
Proof.
  intros Hwf Hstep Hc Hev Hat.
  assert (forall id k s0 s1 r1,
            id <> i ->
            ADDRESS_STATE w !! k = Some s0 -> mutex s1 = mutex s0 ->
            release id k s1 r1 w = (w', os) -> calls w' !! i = Some c) as Hrel.
  { intros id k s0 s1 r1 Hne Hs0 Hm E. apply release_spec in E as (_ & _ & ->).
    rewrite Hm. unfold unlock.
    destruct (queue (mutex s0)) as [|next rest] eqn:Hq; cbn [snd].
    - rewrite list_lookup_alter_ne by exact Hne. exact Hc.
    - assert (next <> i) as Hn.
      { intros ->. destruct Hwf as [_ Hinv].
        assert (i ∈ queue (mutex s0)) as Hin by (rewrite Hq; left).
        apply (inv_queue _ _ (Hinv _ _ Hs0)), view_Some in Hin as (c' & Hc' & _ & Hat').
        rewrite Hc in Hc'. injection Hc' as <-. contradiction. }
      rewrite !list_lookup_alter_ne by assumption. exact Hc. }
  destruct ev as [address0 op0|id now|id r now']; cbn [step] in Hstep; open_calls.
  - destruct (getOrCreateState _ _) as [s0 states].
    destruct (lock _ _) as [m granted]. injection Hstep as <- _. cbn [calls].
    rewrite lookup_app_l by (eapply lookup_lt_Some; eauto). exact Hc.
  - assert (id <> i) as Hne by (intros ->; apply Hev; reflexivity).
    destruct (calls w !! id) as [c0|] eqn:Ec; [|discriminate].
    destruct (at_ c0) eqn:Eat; try discriminate.
    destruct (ADDRESS_STATE w !! toLowerCase (address c0)) as [s0|] eqn:E0;
      [|discriminate].
    destruct (op c0) as [force|].
    + destruct (needsSync force s0 now).
      * injection Hstep as <- _. cbn [calls].
        rewrite list_lookup_alter_ne by exact Hne. exact Hc.
      * destruct (reserve s0) as [[next s1]|] eqn:Eres; [|discriminate].
        injection Hstep as Hstep. eapply (Hrel id _ s0 s1); [exact Hne|exact E0| |exact Hstep].
        unfold reserve in Eres. destruct (currentNonce s0); [|discriminate].
        injection Eres as _ <-. reflexivity.
    + injection Hstep as <- _. cbn [calls].
      rewrite list_lookup_alter_ne by exact Hne. exact Hc.
  - assert (id <> i) as Hne by (intros ->; apply Hev; reflexivity).
    destruct (calls w !! id) as [c0|] eqn:Ec; [|discriminate].
    destruct (at_ c0) as [| |now0|] eqn:Eat; try discriminate.
    destruct (ADDRESS_STATE w !! toLowerCase (address c0)) as [s0|] eqn:E0;
      [|discriminate].
    destruct (op c0); destruct r as [error|chainPending];
      cbn [reserve resynced currentNonce] in Hstep; injection Hstep as Hstep;
      (eapply (Hrel id _ s0); [exact Hne|exact E0| |exact Hstep]); reflexivity.
Qed.

(** X14. The lock of an address is handed over in the order of the calls:
    in any world the manager can reach, when a step wakes a call that was
    waiting for the lock, every other call still waiting for the lock of
    the same address was made after it. *)
Theorem lock_granted_in_call_order (schedule : list event) (w w' : world)
    (os0 os : list obs) (ev : event) (i j : nat) (ci cj : call) :
  run schedule emptyWorld = Some (w, os0) ->
  step ev w = Some (w', os) ->
  calls w !! i = Some ci -> at_ ci = AwaitLock ->
  at_ <$> calls w' !! i = Some LockGranted ->
  calls w !! j = Some cj -> at_ cj = AwaitLock -> keyOf cj = keyOf ci ->
  j <> i ->
  (i < j)%nat.
Proof.
  intros Hrun Hstep Hi Hati Hwoken Hj Hatj Hkey Hne.
  pose proof (reachable_wellFormed _ _ _ Hrun) as [Hstates Hinv].
  pose proof (queuesOrdered_run _ _ _ _ queuesOrdered_empty Hrun) as Hord.
  destruct (woken_is_head _ _ _ _ _ _ Hstep Hi Hati Hwoken)
    as (key & st & st' & rest & Hst & Hq & _ & _).
  pose proof (Hinv _ _ Hst) as Hk.
  assert (keyOf ci = key) as Hki.
  { assert (i ∈ queue (mutex st)) as Hin by (rewrite Hq; left).
    apply (inv_queue _ _ Hk), view_Some in Hin as (c' & Hc' & Hkey' & _).
    rewrite Hi in Hc'. injection Hc' as <-. exact Hkey'. }
  assert (j ∈ queue (mutex st)) as Hin.
  { apply (inv_queue _ _ Hk), view_Some. exists cj.
    split; [exact Hj|]. split; [congruence | exact Hatj]. }
  rewrite Hq in Hin. apply elem_of_cons in Hin as [?|Hin]; [contradiction|].
  destruct (Hord _ _ Hst) as [Hsorted _]. rewrite Hq in Hsorted.
  apply StronglySorted_inv in Hsorted as [_ Hall].
  rewrite List.Forall_forall in Hall. apply Hall, list_elem_of_In, Hin.
Qed.

Lemma lock_granted_in_call_order_witness :
  exists w os0 w' os,
    run [Invoke "0xA" Resync; Invoke "0xa" (GetNextNonce false);
         Invoke "0xA" (GetNextNonce true); Resume 0 20000] emptyWorld
    = Some (w, os0)
    /\ step (CountSettles 0 (inr 5%Z) 20001) w = Some (w', os)
    /\ at_ <$> calls w !! 2%nat = Some AwaitLock
    /\ at_ <$> calls w' !! 1%nat = Some LockGranted
    /\ (1 < 2)%nat.
Proof.
  do 4 eexists. split; [reflexivity|]. split; [reflexivity|].
  split; [reflexivity|]. split; [reflexivity|].
  eapply (lock_granted_in_call_order
            [Invoke "0xA" Resync; Invoke "0xa" (GetNextNonce false);
             Invoke "0xA" (GetNextNonce true); Resume 0 20000]
            _ _ _ _ (CountSettles 0 (inr 5%Z) 20001) 1 2);
    [reflexivity | reflexivity | reflexivity | reflexivity | reflexivity
    | reflexivity | reflexivity | reflexivity | discriminate].
Defined.

(** X15. The critical section is exclusive.  In any world the manager can
    reach, while a call holds the lock of an address (its continuation is
    due, or its [getTransactionCount] request is in flight), a step of any
    other call, on this address or another, sends no request for the
    address, settles no call on it, leaves its nonce and its sync time as
    they are, and leaves the holder and the lock where they stand. *)
Theorem critical_section_exclusive (schedule : list event) (w w' : world)
    (os0 os : list obs) (ev : event) (id : nat) (c : call) (st : NonceState) :
  run schedule emptyWorld = Some (w, os0) ->
  calls w !! id = Some c -> holds (at_ c) = true ->
  ADDRESS_STATE w !! keyOf c = Some st ->
  step ev w = Some (w', os) -> ~ eventOf id ev ->
  fetchesFor (keyOf c) os = [] /\ settledFor (keyOf c) os = []
  /\ calls w' !! id = Some c
  /\ exists st',
       ADDRESS_STATE w' !! keyOf c = Some st'
       /\ currentNonce st' = currentNonce st /\ lastSyncMs st' = lastSyncMs st
       /\ locked (mutex st') = true.
Proof.
  intros Hrun Hc Hholds Hst Hstep Hev.
  pose proof (reachable_wellFormed _ _ _ Hrun) as Hwf.
  pose proof (wellFormed_step _ _ _ _ Hwf Hstep) as [_ Hinv'].
  assert (fetchesFor (keyOf c) os = [] /\ settledFor (keyOf c) os = []) as [Hf Hs].
  { destruct (step_obs _ _ _ _ Hstep) as [->|(j & cj & Hj & Hcj & Hpj & Hos)];
      [split; reflexivity|].
    assert (keyOf cj <> keyOf c) as Hk.
    { intros Hk. apply Hev.
      rewrite <- (mutual_exclusion w j id cj c Hwf Hcj Hc Hk Hpj Hholds). exact Hj. }
    destruct Hos as [->|[r ->]].
    - rewrite fetchesFor_one. fold (keyOf cj).
      rewrite (proj2 (String.eqb_neq _ _) Hk). split; reflexivity.
    - rewrite settledFor_one.
      rewrite (proj2 (String.eqb_neq _ _) Hk). split; reflexivity. }
  assert (calls w' !! id = Some c) as Hc'.
  { eapply step_other_call; try eassumption.
    intros E. rewrite E in Hholds. discriminate. }
  split; [exact Hf|]. split; [exact Hs|]. split; [exact Hc'|].
  destruct (frame_step _ _ _ _ _ _ Hstep Hst) as (st' & Hst' & Hsame).
  destruct (Hsame Hs) as [Hn Ht].
  exists st'. split; [exact Hst'|]. split; [exact Hn|]. split; [exact Ht|].
  apply (inv_locked _ _ (Hinv' _ _ Hst')). exists id, (at_ c).
  split; [|exact Hholds]. apply view_Some. exists c. auto.
Qed.

Lemma critical_section_exclusive_witness :
  exists w',
    step (Invoke "0xa" Resync) fetchingWorld = Some (w', [])
    /\ calls w' !! 0%nat
       = Some {| address := "0xA"; op := GetNextNonce false; at_ := AwaitCount 20000 |}
    /\ nonceOf "0xa" w' = None.
Proof.
  destruct (step (Invoke "0xa" Resync) fetchingWorld) as [[w' os]|] eqn:Hstep;
    [|discriminate].
  destruct (critical_section_exclusive _ fetchingWorld w' _ os (Invoke "0xa" Resync) 0
              {| address := "0xA"; op := GetNextNonce false; at_ := AwaitCount 20000 |}
              {| currentNonce := None; lastSyncMs := 0;
                 mutex := {| queue := []; locked := true |} |}
              fetchingWorld_reached eq_refl eq_refl eq_refl Hstep (fun H => H))
    as (_ & _ & Hc & st' & Hst' & Hn & _).
  exists w'. split; [|split; [exact Hc|]].
  - cbn in Hstep. injection Hstep as <- <-. reflexivity.
  - unfold nonceOf. change (keyOf _) with "0xa" in Hst'. rewrite Hst'. exact Hn.
Defined.

(** X16. The stored nonce of an address changes only when a call on that
    address settles: over any run, calls on other addresses, calls that
    are still waiting and requests that are still in flight leave the
    state of the address as it is, and no state is ever removed from the
    map. *)
Theorem state_changes_only_on_settle (key : string) (schedule : list event) :
  forall (w w' : world) (os : list obs) (st : NonceState),
    run schedule w = Some (w', os) ->
    ADDRESS_STATE w !! key = Some st ->
    exists st',
      ADDRESS_STATE w' !! key = Some st'
      /\ (settledFor key os = [] ->
          currentNonce st' = currentNonce st /\ lastSyncMs st' = lastSyncMs st).
Proof.
  induction schedule as [|ev rest IH]; intros w w' os st Hrun Hst; cbn [run] in Hrun.
  - injection Hrun as <- <-. exists st. split; [exact Hst|]. intros _. split; reflexivity.
  - destruct (step ev w) as [[w1 o1]|] eqn:Estep; [|discriminate].
    destruct (run rest w1) as [[w2 o2]|] eqn:Erest; [|discriminate].
    injection Hrun as <- <-.
    destruct (frame_step _ _ _ _ _ _ Estep Hst) as (s1 & Hs1 & H1).
    destruct (IH _ _ _ _ Erest Hs1) as (s2 & Hs2 & H2).
    exists s2. split; [exact Hs2|].
    unfold settledFor. rewrite omap_app. intros Happ.
    apply app_eq_nil in Happ as [Ho1 Ho2].
    destruct (H1 Ho1) as [E1 E2]. destruct (H2 Ho2) as [E3 E4]. split; congruence.
Qed.

Lemma state_changes_only_on_settle_witness :
  exists w' os,
    run [Invoke "0xB" (GetNextNonce false); Resume 1 30000;
         CountSettles 1 (inr 40%Z) 30001; Invoke "0xa" (GetNextNonce false)]
        syncedWorld = Some (w', os)
    /\ nonceOf "0xa" w' = Some 6%Z.
Proof.
  destruct (run [Invoke "0xB" (GetNextNonce false); Resume 1 30000;
                 CountSettles 1 (inr 40%Z) 30001; Invoke "0xa" (GetNextNonce false)]
                syncedWorld) as [[w' os]|] eqn:Hrun; [|vm_compute in Hrun; discriminate].
  destruct (state_changes_only_on_settle "0xa" _ _ _ _ _ Hrun eq_refl)
    as (st' & Hst' & Hsame).
  exists w', os. split; [reflexivity|].
  unfold nonceOf. rewrite Hst'. apply Hsame.
  vm_compute in Hrun. injection Hrun as _ <-. reflexivity.
Defined.

(** X17. A resync followed by a reservation.  When the count requested by
    [resync] arrives, the call settles with nothing, the count itself is
    stored (it is not incremented) together with the clock read after the
    request; the next [getNextNonce] without [forceResync] that takes the
    lock within 10 s of that reading returns the count with no request of
    its own and stores its successor, whatever nonces had been handed out
    before the resync. *)
Theorem resync_then_getNextNonce (w : world) (id : nat) (c : call) (st : NonceState)
    (now0 now' chainPending : Z) :
  calls w !! id = Some c -> op c = Resync -> at_ c = AwaitCount now0 ->
  ADDRESS_STATE w !! keyOf c = Some st ->
  exists w1,
    step (CountSettles id (inr chainPending) now') w
    = Some (w1, [Settle id (keyOf c) Void])
    /\ nonceOf (keyOf c) w1 = Some chainPending
    /\ forall j cj now,
         calls w1 !! j = Some cj -> at_ cj = LockGranted ->
         op cj = GetNextNonce false -> keyOf cj = keyOf c ->
         (now - now' <= 10000)%Z ->
         exists w2,
           step (Resume j now) w1 = Some (w2, [Settle j (keyOf c) (Nonce chainPending)])
           /\ nonceOf (keyOf c) w2 = Some (chainPending + 1)%Z.
Proof.
  intros Hc Hop Hat Hst.
  destruct (release id (keyOf c) (resynced chainPending now' st) Void w)
    as [w1 os1] eqn:Hrel.
  pose proof Hrel as Hspec. apply release_spec in Hspec as (-> & Hmap & _).
  exists w1. split.
  { cbn [step]; open_calls. rewrite Hc, Hat. fold (keyOf c). rewrite Hst, Hop.
    rewrite <- Hrel. reflexivity. }
  split.
  { unfold nonceOf. rewrite Hmap, lookup_insert_eq. reflexivity. }
  intros j cj now Hcj Hatj Hopj Hkey Hnow.
  assert (ADDRESS_STATE w1 !! toLowerCase (address cj)
          = Some {| currentNonce := Some chainPending; lastSyncMs := now';
                    mutex := fst (unlock (mutex st)) |}) as Hst1.
  { fold (keyOf cj). rewrite Hkey, Hmap, lookup_insert_eq. reflexivity. }
  pose proof (resume_within_window w1 j cj _ chainPending now Hcj Hatj Hopj Hst1
                eq_refl Hnow) as Hstep.
  fold (keyOf cj) in Hstep. rewrite Hkey in Hstep.
  destruct (release j (keyOf c) _ (Nonce chainPending) w1) as [w2 os2] eqn:Hrel2.
  apply release_spec in Hrel2 as (-> & Hmap2 & _).
  exists w2. split; [exact Hstep|].
  unfold nonceOf. rewrite Hmap2, lookup_insert_eq. reflexivity.
Qed.

Lemma resync_then_getNextNonce_witness :
  exists w1,
    step (CountSettles 1 (inr 3%Z) 25000) resyncingWorld
    = Some (w1, [Settle 1 "0xa" Void])
    /\ nonceOf "0xa" w1 = Some 3%Z.
Proof.
  assert (ADDRESS_STATE resyncingWorld !! "0xa"
          = Some {| currentNonce := Some 6%Z; lastSyncMs := 20000;
                    mutex := {| queue := []; locked := true |} |}) as Hst
    by reflexivity.
  destruct (resync_then_getNextNonce resyncingWorld 1
              {| address := "0xA"; op := Resync; at_ := AwaitCount 24000 |}
              _ 24000 25000 3 eq_refl eq_refl eq_refl Hst)
    as (w1 & Hstep & Hn & _).
  exists w1. split; [exact Hstep | exact Hn].
Defined.

Lemma run_app (s1 s2 : list event) :
  forall (w w1 w2 : world) (o1 o2 : list obs),
    run s1 w = Some (w1, o1) -> run s2 w1 = Some (w2, o2) ->
    run (s1 ++ s2) w = Some (w2, o1 ++ o2).
Proof.
  induction s1 as [|ev rest IH]; intros w w1 w2 o1 o2 H1 H2; cbn [run app] in *.
  - injection H1 as <- <-. exact H2.
  - destruct (step ev w) as [[wa oa]|]; [|discriminate].
    destruct (run rest wa) as [[wb ob]|] eqn:Erest; [|discriminate].
    injection H1 as <- <-.
    rewrite (IH _ _ _ _ _ Erest H2), <- app_assoc. reflexivity.
Qed.

(** What the [finally] block leaves: the queue without its head, and the
    head granted the lock. *)
Lemma release_hands_over (w w' : world) (os : list obs) (id : nat) (key : string)
    (st s1 : NonceState) (r : result) :
  wellFormed w ->
  ADDRESS_STATE w !! key = Some st -> mutex s1 = mutex st ->
  release id key s1 r w = (w', os) ->
  exists st',
    ADDRESS_STATE w' !! key = Some st'
    /\ queue (mutex st') = tail (queue (mutex st))
    /\ forall next, head (queue (mutex st)) = Some next ->
                    at_ <$> calls w' !! next = Some LockGranted.
Proof.
  intros [_ Hinv] Hst Hm Hrel. apply release_spec in Hrel as (_ & Hmap & Hcalls).
  rewrite Hm in Hmap, Hcalls. eexists. split; [rewrite Hmap, lookup_insert_eq; reflexivity|].
  cbn [mutex]. unfold unlock in *.
  destruct (queue (mutex st)) as [|n rest] eqn:Hq; cbn [fst snd queue tail head] in *.
  - split; [reflexivity | discriminate].
  - split; [reflexivity|]. intros next [= <-].
    assert (n ∈ queue (mutex st)) as Hin by (rewrite Hq; left).
    apply (inv_queue _ _ (Hinv _ _ Hst)), view_Some in Hin as (cn & Hcn & _).
    rewrite Hcalls, list_lookup_alter_eq.
    destruct (decide (id = n)) as [->|Hne].
    + rewrite list_lookup_alter_eq, Hcn. reflexivity.
    + rewrite list_lookup_alter_ne, Hcn by exact Hne. reflexivity.
Qed.

(** The call that holds the lock releases it within two events, whatever
    the network answers. *)
Lemma holder_finishes (answer : nat -> thrown + Z) (now : Z) (w : world) (j : nat)
    (cj : call) (st : NonceState) :
  wellFormed w ->
  calls w !! j = Some cj -> holds (at_ cj) = true ->
  ADDRESS_STATE w !! keyOf cj = Some st ->
  exists rest w' os st',
    run rest w = Some (w', os) /\ Forall (served answer) rest
    /\ ADDRESS_STATE w' !! keyOf cj = Some st'
    /\ queue (mutex st') = tail (queue (mutex st))
    /\ forall next, head (queue (mutex st)) = Some next ->
                    at_ <$> calls w' !! next = Some LockGranted.
Proof.
  assert (forall w0 c0 now0,
             wellFormed w0 ->
             calls w0 !! j = Some c0 -> at_ c0 = AwaitCount now0 ->
             ADDRESS_STATE w0 !! keyOf c0 = Some st ->
             exists w' os st',
               step (CountSettles j (answer j) now) w0 = Some (w', os)
               /\ ADDRESS_STATE w' !! keyOf c0 = Some st'
               /\ queue (mutex st') = tail (queue (mutex st))
               /\ forall next, head (queue (mutex st)) = Some next ->
                               at_ <$> calls w' !! next = Some LockGranted)
    as Hcount.
  { intros w0 c0 now0 Hwf Hc Hat Hst. cbn [step]; open_calls.
    rewrite Hc, Hat. fold (keyOf c0). rewrite Hst.
    destruct (op c0); destruct (answer j) as [error|chainPending];
      cbn [reserve resynced currentNonce];
      match goal with
      | |- context [Some (release ?a ?b ?s ?r ?x)] =>
          destruct (release a b s r x) as [w' os] eqn:Hrel;
          destruct (release_hands_over _ _ _ _ _ st s _ Hwf Hst eq_refl Hrel)
            as (st' & Hst' & Hq & Hnext);
          exists w', os, st'; split; [reflexivity|]; split; [exact Hst'|];
          split; [exact Hq | exact Hnext]
      end. }
  intros Hwf Hc Hholds Hst.
  destruct (at_ cj) as [| |now0|] eqn:Hat; try discriminate.
  - assert (step (Resume j now) w
            = Some ({| ADDRESS_STATE := ADDRESS_STATE w;
                       calls := alter (moveTo (AwaitCount now)) j (calls w) |},
                    [Fetch j (address cj)])
            -> exists rest w' os st',
                 run rest w = Some (w', os) /\ Forall (served answer) rest
                 /\ ADDRESS_STATE w' !! keyOf cj = Some st'
                 /\ queue (mutex st') = tail (queue (mutex st))
                 /\ forall next, head (queue (mutex st)) = Some next ->
                                 at_ <$> calls w' !! next = Some LockGranted)
      as Htwo.
    { intros Hstep.
      pose proof (wellFormed_step _ _ _ _ Hwf Hstep) as Hwf1.
      destruct (Hcount _ (moveTo (AwaitCount now) cj) now Hwf1) as
        (w' & os & st' & Hstep2 & Hst' & Hq & Hnext).
      - cbn [calls]. rewrite list_lookup_alter_eq, Hc. reflexivity.
      - reflexivity.
      - exact Hst.
      - eexists [Resume j now; CountSettles j (answer j) now], w', _, st'.
        split; [cbn [run]; rewrite Hstep, Hstep2; reflexivity|].
        split; [repeat constructor|]. auto. }
    assert (step (Resume j now) w
            = match op cj with
              | GetNextNonce forceResync => getNextNonce_locked j cj forceResync st now w
              | Resync => resync_locked j cj now w
              end) as Hstep.
    { cbn [step]. rewrite Hc, Hat. fold (keyOf cj). rewrite Hst. reflexivity. }
    destruct (op cj) as [force|]; [|exact (Htwo Hstep)].
    unfold getNextNonce_locked in Hstep.
    destruct (needsSync force st now) eqn:Esync; [exact (Htwo Hstep)|].
    unfold needsSync in Esync. unfold reserve in Hstep.
    destruct (currentNonce st) as [n|] eqn:En;
      [|rewrite orb_true_r in Esync; discriminate].
    match type of Hstep with
    | _ = Some (release ?a ?b ?s ?r ?x) =>
        destruct (release a b s r x) as [w' os] eqn:Hrel;
        destruct (release_hands_over _ _ _ _ _ st s _ Hwf Hst eq_refl Hrel)
          as (st' & Hst' & Hq & Hnext)
    end.
    eexists [Resume j now], w', _, st'.
    split; [cbn [run]; rewrite Hstep; reflexivity|].
    split; [repeat constructor|]. auto.
  - destruct (Hcount w cj now0 Hwf Hc Hat Hst) as (w' & os & st' & Hstep & Hrest).
    eexists [CountSettles j (answer j) now], w', _, st'.
    split; [cbn [run]; rewrite Hstep; reflexivity|].
    split; [repeat constructor|]. exact Hrest.
Qed.

Lemma queue_drains (answer : nat -> thrown + Z) (now : Z) (key : string) (i : nat) :
  forall (q : list nat) (w : world) (st : NonceState),
    wellFormed w ->
    ADDRESS_STATE w !! key = Some st -> queue (mutex st) = q -> i ∈ q ->
    exists rest w' os,
      run rest w = Some (w', os) /\ Forall (served answer) rest
      /\ at_ <$> calls w' !! i = Some LockGranted.
Proof.
  induction q as [|next q' IH]; intros w st Hwf Hst Hq Hin; [inversion Hin|].
  pose proof Hwf as [_ Hinv]. pose proof (Hinv _ _ Hst) as Hk.
  assert (locked (mutex st) = true) as Hl.
  { destruct (locked (mutex st)) eqn:E; [reflexivity|].
    rewrite (inv_free _ _ Hk E) in Hq. discriminate. }
  apply (inv_locked _ _ Hk) in Hl as (j & p & Hj & Hp).
  apply view_Some in Hj as (cj & Hcj & Hkj & <-). rewrite <- Hkj in Hst.
  destruct (holder_finishes answer now w j cj st Hwf Hcj Hp Hst)
    as (rest1 & w1 & os1 & st1 & Hrun1 & Hserved1 & Hst1 & Hq1 & Hnext).
  rewrite Hq in Hq1, Hnext. cbn [tail head] in Hq1, Hnext.
  apply elem_of_cons in Hin as [->|Hin].
  - exists rest1, w1, os1. split; [exact Hrun1|]. split; [exact Hserved1|].
    apply Hnext. reflexivity.
  - rewrite Hkj in Hst1.
    destruct (IH w1 st1 (wellFormed_run _ _ _ _ Hwf Hrun1) Hst1 Hq1 Hin)
      as (rest2 & w2 & os2 & Hrun2 & Hserved2 & Hgranted).
    exists (rest1 ++ rest2), w2, (os1 ++ os2).
    split; [eapply run_app; eassumption|].
    split; [apply Forall_app; split; assumption | exact Hgranted].
Qed.

(** X18. No call waits for ever.  In any world the manager can reach, a
    call that waits for the lock of its address is granted it by running
    the continuations of the calls ahead of it, with no new call needed and
    whatever the network answers to the requests in flight, failures
    included. *)
Theorem waiting_call_gets_lock (answer : nat -> thrown + Z) (now : Z)
    (schedule : list event) (w : world) (os0 : list obs) (i : nat) (c : call) :
  run schedule emptyWorld = Some (w, os0) ->
  calls w !! i = Some c -> at_ c = AwaitLock ->
  exists rest w' os,
    run rest w = Some (w', os) /\ Forall (served answer) rest
    /\ at_ <$> calls w' !! i = Some LockGranted.
Proof.
  intros Hrun Hc Hat.
  pose proof (reachable_wellFormed _ _ _ Hrun) as Hwf.
  pose proof Hwf as [Hstates Hinv].
  destruct (Hstates i c Hc) as [st Hst].
  eapply (queue_drains answer now (keyOf c) i _ w st Hwf Hst eq_refl).
  apply (inv_queue _ _ (Hinv _ _ Hst)), view_Some. eauto.
Qed.

Lemma waiting_call_gets_lock_witness :
  exists rest w' os,
    run rest {| ADDRESS_STATE :=
                  {[ "0xa" := {| currentNonce := None; lastSyncMs := 0;
                                 mutex := {| queue := [1%nat]; locked := true |} |} ]};
                calls := [{| address := "0xA"; op := GetNextNonce false;
                             at_ := LockGranted |};
                          {| address := "0xa"; op := Resync; at_ := AwaitLock |}] |}
    = Some (w', os)
    /\ Forall (served (fun _ => inl (ErrorInst "request timed out"))) rest
    /\ at_ <$> calls w' !! 1%nat = Some LockGranted.
Proof.
  eapply (waiting_call_gets_lock (fun _ => inl (ErrorInst "request timed out")) 20000
            [Invoke "0xA" (GetNextNonce false); Invoke "0xa" Resync] _ _ 1);
    reflexivity.
Defined.

(** What the call whose continuation runs does: it sends its request from
    the grant of the lock, or it settles and stays settled. *)
Lemma step_actor (ev : event) (w w' : world) (os : list obs) :
  wellFormed w ->
  step ev w = Some (w', os) ->
  ((forall i, ~ eventOf i ev) /\ os = [])
  \/ exists j cj cj',
       eventOf j ev /\ calls w !! j = Some cj /\ calls w' !! j = Some cj'
       /\ keyOf cj' = keyOf cj
       /\ ((os = [Fetch j (address cj)] /\ at_ cj = LockGranted
            /\ progress (at_ cj') = 2%nat)
           \/ (exists r, os = [Settle j (keyOf cj) r] /\ holds (at_ cj) = true
                         /\ at_ cj' = Settled r)).
Proof.
  intros Hwf Hstep.
  assert (forall id c0 s0 s1 r1,
            calls w !! id = Some c0 -> holds (at_ c0) = true ->
            ADDRESS_STATE w !! keyOf c0 = Some s0 -> mutex s1 = mutex s0 ->
            release id (keyOf c0) s1 r1 w = (w', os) ->
            exists cj', calls w' !! id = Some cj' /\ keyOf cj' = keyOf c0
                        /\ os = [Settle id (keyOf c0) r1] /\ at_ cj' = Settled r1) as Hrel.
  { intros id c0 s0 s1 r1 Hc Hh Hs0 Hm E. apply release_spec in E as (-> & _ & ->).
    rewrite Hm. unfold unlock.
    destruct (queue (mutex s0)) as [|next rest] eqn:Hq; cbn [snd].
    - rewrite list_lookup_alter_eq, Hc. eexists. split; [reflexivity|].
      split; [reflexivity|]. split; reflexivity.
    - assert (next <> id) as Hne.
      { intros ->. apply (holder_not_queued w id c0 s0 Hwf Hc Hh Hs0).
        rewrite Hq. left. reflexivity. }
      rewrite list_lookup_alter_ne by exact Hne.
      rewrite list_lookup_alter_eq, Hc. eexists. split; [reflexivity|].
      split; [reflexivity|]. split; reflexivity. }
  assert (forall id c0 now,
            calls w !! id = Some c0 -> at_ c0 = LockGranted ->
            w' = {| ADDRESS_STATE := ADDRESS_STATE w;
                    calls := alter (moveTo (AwaitCount now)) id (calls w) |} ->
            os = [Fetch id (address c0)] ->
            ((forall i, ~ eventOf i (Resume id now)) /\ os = [])
            \/ exists j cj cj',
                 eventOf j (Resume id now) /\ calls w !! j = Some cj
                 /\ calls w' !! j = Some cj'
                 /\ keyOf cj' = keyOf cj
                 /\ ((os = [Fetch j (address cj)] /\ at_ cj = LockGranted
                      /\ progress (at_ cj') = 2%nat)
                     \/ (exists r, os = [Settle j (keyOf cj) r] /\ holds (at_ cj) = true
                                   /\ at_ cj' = Settled r))) as Hfetch.
  { intros id c0 now Hc Hat -> ->. right. exists id, c0. eexists.
    split; [reflexivity|]. split; [exact Hc|]. cbn [calls].
    rewrite list_lookup_alter_eq, Hc. split; [reflexivity|].
    split; [reflexivity|]. left. auto. }
  destruct ev as [address0 op0|id now|id r now']; cbn [step] in Hstep; open_calls.
  - left. destruct (getOrCreateState _ _) as [s0 states].
    destruct (lock _ _) as [m granted]. injection Hstep as _ <-.
    split; [intros i []|reflexivity].
  - destruct (calls w !! id) as [c0|] eqn:Ec; [|discriminate].
    destruct (at_ c0) eqn:Eat; try discriminate.
    destruct (ADDRESS_STATE w !! toLowerCase (address c0)) as [s0|] eqn:E0;
      [|discriminate].
    destruct (op c0) as [force|].
    + destruct (needsSync force s0 now).
      * injection Hstep as <- <-. eapply Hfetch; eauto.
      * destruct (reserve s0) as [[next s1]|] eqn:Eres; [|discriminate].
        injection Hstep as Hstep.
        assert (holds (at_ c0) = true) as Hh by (rewrite Eat; reflexivity).
        destruct (Hrel id c0 s0 s1 (Nonce next) Ec Hh E0)
          as (cj' & Hcj' & Hk' & Hos & Hat'); [|exact Hstep|].
        { unfold reserve in Eres. destruct (currentNonce s0); [|discriminate].
          injection Eres as _ <-. reflexivity. }
        right. exists id, c0, cj'. split; [reflexivity|]. split; [exact Ec|].
        split; [exact Hcj'|]. split; [exact Hk'|].
        right. exists (Nonce next). rewrite Eat. auto.
    + injection Hstep as <- <-. eapply Hfetch; eauto.
  - destruct (calls w !! id) as [c0|] eqn:Ec; [|discriminate].
    destruct (at_ c0) as [| |now0|] eqn:Eat; try discriminate.
    destruct (ADDRESS_STATE w !! toLowerCase (address c0)) as [s0|] eqn:E0;
      [|discriminate].
    assert (holds (at_ c0) = true) as Hh by (rewrite Eat; reflexivity).
    right. exists id, c0.
    destruct (op c0); destruct r as [error|chainPending];
      cbn [reserve resynced currentNonce] in Hstep; injection Hstep as Hstep;
      match type of Hstep with
      | release _ _ ?s ?r _ = _ =>
          destruct (Hrel id c0 s0 s r Ec Hh E0 eq_refl Hstep)
            as (cj' & Hcj' & Hk' & Hos & Hat')
      end;
      exists cj'; (split; [reflexivity|]); (split; [exact Ec|]);
      (split; [exact Hcj'|]); (split; [exact Hk'|]); right; eexists;
      (split; [exact Hos|]); (split; [exact Hh | exact Hat']).
Qed.

(** A step never takes a call back. *)
Lemma step_progress (ev : event) (w w' : world) (os : list obs) (i : nat) (c : call) :
  wellFormed w ->
  step ev w = Some (w', os) ->
  calls w !! i = Some c ->
  exists c', calls w' !! i = Some c'
             /\ (progress (at_ c) <= progress (at_ c'))%nat
             /\ (forall r, at_ c = Settled r -> c' = c).
Proof.
  intros Hwf Hstep Hc.
  assert (at_ c = AwaitLock \/ at_ c <> AwaitLock) as [Hat|Hat]
    by (destruct (at_ c); [left; reflexivity | right; discriminate ..]).
  { assert (i < length (calls w'))%nat as Hlt.
    { apply lookup_lt_Some in Hc.
      destruct ev as [address0 op0|id now|id r now']; cbn [step] in Hstep; open_calls.
      - destruct (getOrCreateState _ _) as [s0 states].
        destruct (lock _ _) as [m granted]. injection Hstep as <- _.
        cbn [calls]. rewrite length_app. lia.
      - destruct (calls w !! id) as [c0|]; [|discriminate].
        destruct (at_ c0); try discriminate.
        destruct (ADDRESS_STATE w !! toLowerCase (address c0)) as [s0|]; [|discriminate].
        destruct (op c0) as [force|];
          [destruct (needsSync force s0 now);
           [|destruct (reserve s0) as [[next s1]|]; [|discriminate]]|];
          injection Hstep as Hstep; try (subst w'; cbn [calls]; rewrite length_alter; lia);
          apply release_spec in Hstep as (_ & _ & ->);
          destruct (snd (unlock _)); rewrite ?length_alter; lia.
      - destruct (calls w !! id) as [c0|]; [|discriminate].
        destruct (at_ c0); try discriminate.
        destruct (ADDRESS_STATE w !! toLowerCase (address c0)) as [s0|]; [|discriminate].
        destruct (op c0); destruct r as [error|chainPending];
          cbn [reserve resynced currentNonce] in Hstep; injection Hstep as Hstep;
          apply release_spec in Hstep as (_ & _ & ->);
          destruct (snd (unlock _)); rewrite ?length_alter; lia. }
    apply lookup_lt_is_Some in Hlt as [c' Hc']. exists c'.
    split; [exact Hc'|]. rewrite Hat. split; [cbn; lia | discriminate]. }
  destruct (step_actor _ _ _ _ Hwf Hstep)
    as [[Hev _]|(j & cj & cj' & Hj & Hcj & Hcj' & _ & Hcase)].
  - exists c. split; [|split; [lia | reflexivity]].
    eapply step_other_call; try eassumption. apply Hev.
  - destruct (decide (i = j)) as [->|Hne].
    + rewrite Hc in Hcj. injection Hcj as <-. exists cj'. split; [exact Hcj'|].
      destruct Hcase as [(_ & Hg & Hp)|(r & _ & Hh & Hs)].
      * rewrite Hg, Hp. split; [cbn; lia|]. discriminate.
      * rewrite Hs. split; [destruct (at_ c); cbn; lia|].
        intros r0 E. rewrite E in Hh. discriminate.
    + exists c. split; [|split; [lia | reflexivity]].
      eapply step_other_call; try eassumption.
      intros Hev. apply Hne. destruct ev; cbn in Hev, Hj; [contradiction| |]; congruence.
Qed.

Lemma settled_elem (os : list obs) (id : nat) :
  id ∈ settled os <-> exists key r, Settle id key r ∈ os.
Proof.
  unfold settled. rewrite list_elem_of_omap. split.
  - intros ([j a|j key r] & Hin & [= <-]). eauto.
  - intros (key & r & Hin). exists (Settle id key r). auto.
Qed.

Lemma consistent_step (ev : event) (w w' : world) (os0 os : list obs) :
  wellFormed w -> consistent w os0 ->
  step ev w = Some (w', os) ->
  consistent w' (os0 ++ os).
Proof.
  intros Hwf (Hnf & Hns & Hf & Hs) Hstep.
  assert (forall id, id ∈ fetched os0 ->
            exists c, calls w' !! id = Some c /\ (2 <= progress (at_ c))%nat) as Hf'.
  { intros id Hin. destruct (Hf id Hin) as (c & Hc & Hp).
    destruct (step_progress _ _ _ _ _ _ Hwf Hstep Hc) as (c' & Hc' & Hle & _).
    exists c'. split; [exact Hc' | lia]. }
  assert (forall id key r, Settle id key r ∈ os0 ->
            exists c, calls w' !! id = Some c /\ at_ c = Settled r /\ keyOf c = key)
    as Hs'.
  { intros id key r Hin. destruct (Hs id key r Hin) as (c & Hc & Hat & Hk).
    destruct (step_progress _ _ _ _ _ _ Hwf Hstep Hc) as (c' & Hc' & _ & Hsame).
    rewrite (Hsame r Hat) in Hc'. eauto. }
  unfold consistent, fetched, settled. rewrite !omap_app.
  fold (fetched os0) (settled os0).
  destruct (step_actor _ _ _ _ Hwf Hstep)
    as [[_ ->]|(j & cj & cj' & _ & Hcj & Hcj' & Hk & [(-> & Hg & Hp)|(r & -> & Hh & Hat')])];
    cbn [omap list_omap]; rewrite ?app_nil_r.
  - repeat split; assumption.
  - split; [|split; [exact Hns|split]].
    + apply NoDup_app. split; [exact Hnf|]. split; [|apply NoDup_singleton].
      intros id Hin Hid. apply list_elem_of_singleton in Hid as ->.
      destruct (Hf j Hin) as (c & Hc & Hprog).
      rewrite Hcj in Hc. injection Hc as <-. rewrite Hg in Hprog. cbn in Hprog. lia.
    + intros id Hin. apply elem_of_app in Hin as [Hin|Hin]; [apply Hf', Hin|].
      apply list_elem_of_singleton in Hin as ->. exists cj'. split; [exact Hcj' | lia].
    + intros id key r Hin. apply elem_of_app in Hin as [Hin|Hin]; [eapply Hs', Hin|].
      apply list_elem_of_singleton in Hin. discriminate.
  - split; [exact Hnf|split; [|split; [exact Hf'|]]].
    + apply NoDup_app. split; [exact Hns|]. split; [|apply NoDup_singleton].
      intros id Hin Hid. apply list_elem_of_singleton in Hid as ->.
      apply settled_elem in Hin as (key & r0 & Hin).
      destruct (Hs j key r0 Hin) as (c & Hc & Hat & _).
      rewrite Hcj in Hc. injection Hc as <-. rewrite Hat in Hh. discriminate.
    + intros id key r0 Hin. apply elem_of_app in Hin as [Hin|Hin]; [eapply Hs', Hin|].
      apply list_elem_of_singleton in Hin. injection Hin as -> -> ->.
      exists cj'. split; [exact Hcj'|]. split; [exact Hat' | exact Hk].
Qed.

Lemma consistent_run (schedule : list event) :
  forall (w w' : world) (os0 os : list obs),
    wellFormed w -> consistent w os0 ->
    run schedule w = Some (w', os) ->
    consistent w' (os0 ++ os).
Proof.
  induction schedule as [|ev rest IH]; intros w w' os0 os Hwf Hcons Hrun;
    cbn [run] in Hrun.
  - injection Hrun as <- <-. rewrite app_nil_r. exact Hcons.
  - destruct (step ev w) as [[w1 o1]|] eqn:Estep; [|discriminate].
    destruct (run rest w1) as [[w2 o2]|] eqn:Erest; [|discriminate].
    injection Hrun as <- <-. rewrite app_assoc.
    eapply IH; [| |exact Erest].
    + eapply wellFormed_step; eassumption.
    + eapply consistent_step; eassumption.
Qed.

Lemma ids_bounded (ids : list nat) (n : nat) :
  NoDup ids -> (forall id, id ∈ ids -> (id < n)%nat) -> (length ids <= n)%nat.
Proof.
  intros Hnd Hlt.
  assert (length ids <= length (seq 0 n))%nat as Hle.
  { apply submseteq_length, NoDup_submseteq; [exact Hnd|].
    intros id Hin. apply elem_of_seq. specialize (Hlt id Hin). lia. }
  rewrite length_seq in Hle. exact Hle.
Qed.

(** X19. Each call sends at most one request and settles at most once.
    Over any run of the manager from its initial state, no call has two
    [getTransactionCount] requests go out and no call settles twice, so
    there are at most as many requests, and as many settlements, as calls;
    and the result with which a call settled is final: the call stands
    settled with it, on its own address, whatever ran afterwards. *)
Theorem each_call_requests_and_settles_once (schedule : list event) (w : world)
    (os : list obs) :
  run schedule emptyWorld = Some (w, os) ->
  NoDup (fetched os) /\ NoDup (settled os)
  /\ (length (fetched os) <= length (calls w))%nat
  /\ (length (settled os) <= length (calls w))%nat
  /\ forall id key r,
       Settle id key r ∈ os ->
       exists c, calls w !! id = Some c /\ at_ c = Settled r /\ keyOf c = key.
Proof.
  intros Hrun.
  assert (consistent emptyWorld []) as Hinit.
  { unfold consistent, fetched, settled. cbn [omap list_omap].
    split; [constructor|]. split; [constructor|].
    split; [intros id Hin | intros id key r Hin]; inversion Hin. }
  destruct (consistent_run schedule emptyWorld w [] os wellFormed_empty Hinit Hrun)
    as (Hnf & Hns & Hf & Hs).
  cbn [app] in *.
  split; [exact Hnf|]. split; [exact Hns|]. split; [|split; [|exact Hs]].
  - apply ids_bounded; [exact Hnf|]. intros id Hin.
    destruct (Hf id Hin) as (c & Hc & _). eapply lookup_lt_Some, Hc.
  - apply ids_bounded; [exact Hns|]. intros id Hin.
    apply settled_elem in Hin as (key & r & Hin).
    destruct (Hs id key r Hin) as (c & Hc & _). eapply lookup_lt_Some, Hc.
Qed.

Lemma each_call_requests_and_settles_once_witness :
  NoDup (fetched [Fetch 0 "0xA"; Settle 0 "0xa" (Nonce 5)])
  /\ NoDup (settled [Fetch 0 "0xA"; Settle 0 "0xa" (Nonce 5)]).
Proof.
  destruct (each_call_requests_and_settles_once _ _ _ syncedWorld_reached)
    as (Hnf & Hns & _).
  split; [exact Hnf | exact Hns].
Defined.

Lemma atMost_refl (a : option Z) : atMost a a.
Proof. destruct a; cbn; lia. Qed.

Lemma atMost_trans (a b c : option Z) : atMost a b -> atMost b c -> atMost a c.
Proof. destruct a, b, c; cbn; try tauto; lia. Qed.

Lemma ascendingFrom_mono (lo lo' : option Z) (ns : list Z) :
  atMost lo lo' -> ascendingFrom lo' ns -> ascendingFrom lo ns.
Proof.
  destruct ns as [|n rest]; [trivial|]. cbn [ascendingFrom].
  intros Hle [Hn Hrest]. split; [eapply atMost_trans; eassumption | exact Hrest].
Qed.

Lemma ascendingFrom_sorted (ns : list Z) :
  forall lo : Z,
    ascendingFrom (Some lo) ns ->
    Forall (fun n => lo <= n) ns /\ StronglySorted Z.lt ns.
Proof.
  induction ns as [|n rest IH]; intros lo; cbn [ascendingFrom atMost].
  - intros _. split; constructor.
  - intros [Hn Hrest]. destruct (IH _ Hrest) as [Hall Hsorted].
    split; constructor; try assumption.
    + eapply Forall_impl; [exact Hall|]. cbn. intros; lia.
    + eapply Forall_impl; [exact Hall|]. cbn. intros; lia.
Qed.

(** What the [finally] block shows and leaves for an address. *)
Lemma release_nonce (key : string) (id : nat) (k : string) (s1 : NonceState)
    (r : result) (w w1 : world) (o : list obs) :
  release id k s1 r w = (w1, o) ->
  (k = key /\ settledFor key o = [r] /\ nonceOf key w1 = currentNonce s1)
  \/ (k <> key /\ settledFor key o = [] /\ nonceOf key w1 = nonceOf key w).
Proof.
  intros E. apply release_spec in E as (-> & Hmap & _).
  rewrite settledFor_one. unfold nonceOf. rewrite Hmap.
  destruct (decide (k = key)) as [->|Hne].
  - left. rewrite String.eqb_refl, lookup_insert_eq. auto.
  - right. rewrite (proj2 (String.eqb_neq _ _) Hne), lookup_insert_ne by exact Hne. auto.
Qed.

(** A step either hands out no nonce for the address and does not lower
    the stored one, or hands out one that is not below the stored one and
    stores its successor. *)
Lemma ascending_step (key : string) (ev : event) (w w1 : world) (o : list obs) :
  step ev w = Some (w1, o) ->
  notBehind key ev w ->
  (noncesOf (settledFor key o) = [] /\ atMost (nonceOf key w) (nonceOf key w1))
  \/ exists n,
       noncesOf (settledFor key o) = [n]
       /\ atMost (nonceOf key w) (Some n)
       /\ nonceOf key w1 = Some (n + 1)%Z.
Proof.
  intros Hstep Hhonest.
  destruct ev as [address0 op0|id now|id r now']; cbn [step] in Hstep; open_calls.
  - left. unfold getOrCreateState in Hstep.
    destruct (ADDRESS_STATE w !! toLowerCase address0) as [s0|] eqn:E0;
      destruct (lock _ _) as [m granted]; injection Hstep as <- <-;
      (split; [reflexivity|]); unfold nonceOf; cbn [ADDRESS_STATE].
    + destruct (decide (toLowerCase address0 = key)) as [<-|Hk].
      * rewrite lookup_insert_eq, E0. apply atMost_refl.
      * rewrite lookup_insert_ne by exact Hk. apply atMost_refl.
    + destruct (decide (toLowerCase address0 = key)) as [<-|Hk].
      * rewrite E0. exact I.
      * rewrite !lookup_insert_ne by exact Hk. apply atMost_refl.
  - destruct (calls w !! id) as [c0|] eqn:Ec; [|discriminate].
    destruct (at_ c0) eqn:Eat; try discriminate.
    destruct (ADDRESS_STATE w !! toLowerCase (address c0)) as [s0|] eqn:E0;
      [|discriminate].
    assert (Some ({| ADDRESS_STATE := ADDRESS_STATE w;
                     calls := alter (moveTo (AwaitCount now)) id (calls w) |},
                  [Fetch id (address c0)]) = Some (w1, o) ->
            (noncesOf (settledFor key o) = []
             /\ atMost (nonceOf key w) (nonceOf key w1))
            \/ exists n,
                 noncesOf (settledFor key o) = [n]
                 /\ atMost (nonceOf key w) (Some n)
                 /\ nonceOf key w1 = Some (n + 1)%Z) as Hfetch.
    { intros [= <- <-]. left. split; [reflexivity | apply atMost_refl]. }
    destruct (op c0) as [force|]; [|exact (Hfetch Hstep)].
    destruct (needsSync force s0 now); [exact (Hfetch Hstep)|].
    unfold reserve in Hstep. destruct (currentNonce s0) as [n|] eqn:En; [|discriminate].
    injection Hstep as Hstep.
    destruct (release_nonce key _ _ _ _ _ _ _ Hstep)
      as [(Hk & -> & ->)|(Hk & -> & ->)].
    + right. exists n. split; [reflexivity|]. split; [|reflexivity].
      unfold nonceOf. rewrite <- Hk, E0, En. cbn. lia.
    + left. split; [reflexivity | apply atMost_refl].
  - destruct (calls w !! id) as [c0|] eqn:Ec; [|discriminate].
    destruct (at_ c0) as [| |now0|] eqn:Eat; try discriminate.
    destruct (ADDRESS_STATE w !! toLowerCase (address c0)) as [s0|] eqn:E0;
      [|discriminate].
    assert (toLowerCase (address c0) = key ->
            forall chainPending, r = inr chainPending ->
                                 atMost (nonceOf key w) (Some chainPending)) as Hge.
    { intros Hk chainPending ->. cbn [notBehind] in Hhonest.
      destruct (nonceOf key w) as [stored|] eqn:Hn; [|exact I].
      cbn. exact (Hhonest c0 stored Ec Hk eq_refl). }
    destruct (op c0); destruct r as [error|chainPending];
      cbn [reserve resynced currentNonce] in Hstep; injection Hstep as Hstep;
      destruct (release_nonce key _ _ _ _ _ _ _ Hstep)
        as [(Hk & -> & ->)|(Hk & -> & ->)]; cbn [currentNonce];
      try (left; split; [reflexivity | apply atMost_refl]).
    + left. split; [reflexivity|]. unfold nonceOf. rewrite <- Hk, E0. apply atMost_refl.
    + right. exists chainPending. split; [reflexivity|]. split; [|reflexivity].
      apply (Hge Hk chainPending eq_refl).
    + left. split; [reflexivity|]. unfold nonceOf. rewrite <- Hk, E0. apply atMost_refl.
    + left. split; [reflexivity|]. apply (Hge Hk chainPending eq_refl).
Qed.

Lemma ascending_run (key : string) (schedule : list event) :
  forall (w w' : world) (os : list obs),
    run schedule w = Some (w', os) ->
    chainKeepsUp key schedule w ->
    ascendingFrom (nonceOf key w) (noncesOf (settledFor key os))
    /\ atMost (nonceOf key w) (nonceOf key w')
    /\ forall n, n ∈ noncesOf (settledFor key os) ->
                 atMost (Some (n + 1)%Z) (nonceOf key w').
Proof.
  induction schedule as [|ev rest IH]; intros w w' os Hrun Hkeeps;
    cbn [run chainKeepsUp] in *.
  - injection Hrun as <- <-. split; [exact I|]. split; [apply atMost_refl|].
    intros n Hin. inversion Hin.
  - destruct Hkeeps as [Hev Hrest].
    destruct (step ev w) as [[w1 o1]|] eqn:Estep; [|discriminate].
    destruct (run rest w1) as [[w2 o2]|] eqn:Erest; [|discriminate].
    injection Hrun as <- <-.
    destruct (IH _ _ _ Erest Hrest) as (Hasc & Hle & Hbelow).
    unfold settledFor, noncesOf. rewrite !omap_app.
    fold (settledFor key o1) (settledFor key o2).
    fold (noncesOf (settledFor key o1)) (noncesOf (settledFor key o2)).
    destruct (ascending_step key ev w w1 o1 Estep Hev)
      as [[-> Hmono]|(n & -> & Hn & Hnext)]; cbn [app].
    + split; [eapply ascendingFrom_mono; eassumption|].
      split; [eapply atMost_trans; eassumption | exact Hbelow].
    + rewrite Hnext in Hasc, Hle. cbn [ascendingFrom].
      split; [split; assumption|].
      split; [eapply atMost_trans; [exact Hn|]; eapply atMost_trans; [|exact Hle]; cbn; lia|].
      intros n' Hin. apply elem_of_cons in Hin as [->|Hin]; [exact Hle | apply Hbelow, Hin].
Qed.

(** X20. Nonces are never reused while the chain keeps up.  Over any run
    of the manager from its initial state, with any interleaving of
    [getNextNonce] and [resync] calls, forced or not, fresh or stale: if
    every count that arrives for an address is at least the nonce the
    manager holds for it at that moment, then the nonces handed out for the
    address are strictly increasing in the order in which the calls settle
    (so no two calls get the same nonce), and the nonce stored at the end is
    above all of them.  A nonce can be handed out twice only after the
    network reported a count below the stored one. *)
Theorem nonces_increase_while_chain_keeps_up (key : string) (schedule : list event)
    (w : world) (os : list obs) :
  run schedule emptyWorld = Some (w, os) ->
  chainKeepsUp key schedule emptyWorld ->
  StronglySorted Z.lt (noncesOf (settledFor key os))
  /\ NoDup (noncesOf (settledFor key os))
  /\ forall n, n ∈ noncesOf (settledFor key os) ->
               exists stored, nonceOf key w = Some stored /\ (n < stored)%Z.
Proof.
  intros Hrun Hkeeps.
  destruct (ascending_run key schedule _ _ _ Hrun Hkeeps) as (Hasc & _ & Hbelow).
  assert (StronglySorted Z.lt (noncesOf (settledFor key os))) as Hsorted.
  { destruct (noncesOf (settledFor key os)) as [|n rest]; [constructor|].
    destruct Hasc as [_ Hrest].
    destruct (ascendingFrom_sorted rest _ Hrest) as [Hall Hs].
    constructor; [exact Hs|]. eapply Forall_impl; [exact Hall|]. cbn. intros; lia. }
  split; [exact Hsorted|]. split.
  - clear -Hsorted. induction Hsorted as [|n rest _ IH Hall]; constructor; [|exact IH].
    intros Hin. rewrite List.Forall_forall in Hall.
    apply list_elem_of_In, Hall in Hin. lia.
  - intros n Hin. specialize (Hbelow n Hin).
    destruct (nonceOf key w) as [stored|]; [|destruct Hbelow].
    exists stored. split; [reflexivity|]. cbn in Hbelow. lia.
Qed.

Lemma nonces_increase_while_chain_keeps_up_witness :
  exists w os,
    run [Invoke "0xA" (GetNextNonce false); Resume 0 20000;
         CountSettles 0 (inr 5%Z) 20000;
         Invoke "0xa" (GetNextNonce false); Resume 1 40000;
         CountSettles 1 (inr 7%Z) 40001] emptyWorld = Some (w, os)
    /\ noncesOf (settledFor "0xa" os) = [5%Z; 7%Z]
    /\ NoDup (noncesOf (settledFor "0xa" os)).
Proof.
  do 2 eexists. split; [reflexivity|]. split; [reflexivity|].
  eapply (nonces_increase_while_chain_keeps_up "0xa"
            [Invoke "0xA" (GetNextNonce false); Resume 0 20000;
             CountSettles 0 (inr 5%Z) 20000;
             Invoke "0xa" (GetNextNonce false); Resume 1 40000;
             CountSettles 1 (inr 7%Z) 40001]).
  - reflexivity.
  - cbn. repeat split; try exact I; intros c stored Hc Hk Hn;
      vm_compute in Hn; try discriminate; injection Hn as <-; lia.
Defined.
